(** * syzdescriptor: analysis passes, syzlang generator and driver

    A shallow embedding of [syzdescriptor/passes.py], [syzdescriptor/syzlang.py]
    and [syzdescriptor/driver.py], and of the part of
    [syzdescriptor/postprocessor.py] that reads the generated header back,
    followed by the properties of the analysis pipeline that are established
    on it.

    Conventions of the embedding.
    - Python integers are [Z]; FTDB ids, positions and sizes are integers.
    - Python strings are [string]s, one [ascii] for each character: the
      characters below U+0100.  Strings with other characters are not
      represented.
    - A Python [list] is a [list]; indexing follows Python ([py_index]):
      negative indices count from the end, anything out of range raises
      [IndexError].
    - A Python [dict] that is only looked up is a [gmap]; one that is iterated
      is an association list in insertion order.
    - A Python [set] is a duplicate-free [list]; the order of the list stands
      for the iteration order of the set, which CPython derives from hashes
      and which the language leaves unspecified.  Where a result depends on
      that order the order is an explicit parameter of the definition.
    - Calls that may raise, loop or recurse return a [result]: [Ok v] for a
      normal return, [Raise e] for an exception that propagates, [Diverges]
      when the fuel given to the definition is exhausted.  A computation that
      is [Diverges] for every amount of fuel is one that never returns.
    - The fuel of a recursive method bounds the nesting of its invocations.
      CPython ends a recursion that nests deeper than its recursion limit
      allows (1000 frames unless the limit is raised, which the program does
      not do) with [RecursionError]: the fuel stands for the nesting that
      the interpreter allows, and a result stated for enough fuel holds of a
      run in which that much nesting is allowed. *)

From Stdlib Require Import ZArith Lia Permutation Sorted.
From stdpp Require Import gmap strings list fin_maps pretty.

Local Open Scope Z_scope.

(** ** Exceptions and results *)

Inductive exn : Set :=
| IndexError
| KeyError
| AttributeError
| ZeroDivisionError
| AssertionError
| FileExistsError
| SystemExit.

Inductive result (A : Type) : Type :=
| Ok (a : A)
| Raise (e : exn)
| Diverges.

Arguments Ok {A} a.
Arguments Raise {A} e.
Arguments Diverges {A}.

#[global] Instance result_ret : MRet result := fun A a => Ok a.

#[global] Instance result_bind : MBind result := fun A B f m =>
  match m with
  | Ok a => f a
  | Raise e => Raise e
  | Diverges => Diverges
  end.

#[global] Instance result_fmap : FMap result := fun A B f m =>
  match m with
  | Ok a => Ok (f a)
  | Raise e => Raise e
  | Diverges => Diverges
  end.

(** [for x in l: s = body(s, x)], stopping at the first exception. *)
Fixpoint for_each {A S : Type} (body : S -> A -> result S) (l : list A) (s : S)
  : result S :=
  match l with
  | [] => Ok s
  | x :: l' => s' ← body s x; for_each body l' s'
  end.

(** [[f(x) for x in l]], stopping at the first exception. *)
Fixpoint map_each {A B : Type} (f : A -> result B) (l : list A) : result (list B) :=
  match l with
  | [] => Ok []
  | x :: l' => y ← f x; ys ← map_each f l'; Ok (y :: ys)
  end.

(** [[x for x in l if p(x)]]. *)
Fixpoint filter_each {A : Type} (p : A -> result bool) (l : list A) : result (list A) :=
  match l with
  | [] => Ok []
  | x :: l' => b ← p x; ys ← filter_each p l'; Ok (if b : bool then x :: ys else ys)
  end.

(** ** Python containers *)

(** [l[i]] *)
Definition py_index {A : Type} (l : list A) (i : Z) : result A :=
  let n := Z.of_nat (length l) in
  let j := if bool_decide (i < 0) then i + n else i in
  if bool_decide (0 <= j < n)
  then from_option Ok (Raise IndexError) (l !! Z.to_nat j)
  else Raise IndexError.

(** [s.add(x)] on a set kept as a duplicate-free list. *)
Definition set_add {A : Type} `{EqDecision A} (x : A) (s : list A) : list A :=
  if decide (x ∈ s) then s else s ++ [x].

(** [s.remove(x)] for an [x] known to be in [s]. *)
Definition set_remove {A : Type} `{EqDecision A} (x : A) (s : list A) : list A :=
  filter (fun y => y ≠ x) s.

(** [{ **a, **b }]: the keys of both, [b] winning on the common ones. *)
Definition dict_spread {K V : Type} `{Countable K} (a b : gmap K V) : gmap K V :=
  b ∪ a.

(** [d[k] = v] on an insertion-ordered dictionary. *)
Fixpoint dict_set {K V : Type} `{EqDecision K} (k : K) (v : V) (d : list (K * V))
  : list (K * V) :=
  match d with
  | [] => [(k, v)]
  | (k', v') :: d' => if decide (k' = k) then (k, v) :: d' else (k', v') :: dict_set k v d'
  end.

(** [d[k]] *)
Fixpoint dict_get {K V : Type} `{EqDecision K} (k : K) (d : list (K * V)) : result V :=
  match d with
  | [] => Raise KeyError
  | (k', v) :: d' => if decide (k' = k) then Ok v else dict_get k d'
  end.

(** ** The FTDB object model (libftdb), as far as the passes read it *)

Record ftdb_type : Type := {
  t_id : Z;
  t_str : string;
  t_class : string;
  t_size : Z;
  t_refs : list Z;
  t_refnames : list string;
  t_values : list Z;
  t_union : bool
}.

Record ftdb_local : Type := { l_name : string }.

(** A case of a switch is the tuple [(value, _, label, expanded)]. *)
Record ftdb_case : Type := {
  case_0 : Z;
  case_1 : Z;
  case_2 : string;
  case_3 : string
}.

Record ftdb_switch : Type := {
  sw_condition : string;
  sw_cases : list ftdb_case
}.

Record ftdb_callref : Type := {
  cr_type : string;
  cr_id : Z;
  cr_pos : Z
}.

Record ftdb_offsetref : Type := {
  or_kind : string;
  or_id : Z
}.

Record ftdb_deref : Type := {
  d_kind : string;
  d_offsetrefs : list ftdb_offsetref;
  d_type : list Z;
  d_member : list Z
}.

Record ftdb_call_info : Type := { ci_args : list Z }.

Record ftdb_func : Type := {
  f_id : Z;
  f_name : string;
  f_locals : list ftdb_local;
  f_switches : list ftdb_switch;
  f_callrefs : list (list ftdb_callref);
  f_calls : list Z;
  f_call_info : list ftdb_call_info;
  f_derefs : list ftdb_deref
}.

Record ftdb_global : Type := { g_name : string }.

Record ftdb_fops : Type := {
  fo_type : Z;
  fo_members : list (string * list Z);
  fo_kind : string;
  fo_var : Z
}.

Record ftdb : Type := {
  db_types : list ftdb_type;
  db_funcs : list ftdb_func;
  db_globals : list ftdb_global;
  db_fops : list ftdb_fops
}.

(** [ftdb['types'].entry_by_id(id)]: the entry of that id, an exception when
    there is none. *)
Definition types_entry_by_id (db : ftdb) (id : Z) : result ftdb_type :=
  from_option Ok (Raise KeyError)
    (List.find (fun t => bool_decide (t_id t = id)) (db_types db)).

(** [ftdb['funcs'].entry_by_id(id)] *)
Definition funcs_entry_by_id (db : ftdb) (id : Z) : result ftdb_func :=
  from_option Ok (Raise KeyError)
    (List.find (fun f => bool_decide (f_id f = id)) (db_funcs db)).

(** [ftdb['funcs'].entry_by_name(name)]: all the functions of that name. *)
Definition funcs_entry_by_name (db : ftdb) (name : string) : list ftdb_func :=
  List.filter (fun f => bool_decide (f_name f = name)) (db_funcs db).

(** ** passes.py *)

Record PointerCycle : Type := {
  cycled_id : Z;
  member_position : Z
}.

Record MemberBounds : Type := {
  type_id : Z;
  binding_member : Z;
  bound_member : Z
}.

#[global] Instance PointerCycle_eq_dec : EqDecision PointerCycle.
Proof. solve_decision. Defined.

#[global] Instance MemberBounds_eq_dec : EqDecision MemberBounds.
Proof. solve_decision. Defined.

(** A command is the tuple [(label, value, root type id)]. *)
Definition command : Type := string * Z * Z.

(** [Fops]: only [name] and [syscall_id] are set by the constructor; the
    other attributes exist once the pass that fills them has run. *)
Record Fops : Type := {
  name : string;
  syscall_id : Z;
  commands : option (list command);
  deps : option (list Z);
  pointer_cycles : option (gmap Z (list PointerCycle));
  pointer_bounds : option (gmap Z (list MemberBounds))
}.

Definition Fops_init (name : string) (syscall_id : Z) : Fops :=
  {| name := name; syscall_id := syscall_id; commands := None; deps := None;
     pointer_cycles := None; pointer_bounds := None |}.

Definition set_commands (fops : Fops) (c : list command) : Fops :=
  {| name := name fops; syscall_id := syscall_id fops; commands := Some c;
     deps := deps fops; pointer_cycles := pointer_cycles fops;
     pointer_bounds := pointer_bounds fops |}.

Definition set_deps (fops : Fops) (d : list Z) : Fops :=
  {| name := name fops; syscall_id := syscall_id fops; commands := commands fops;
     deps := Some d; pointer_cycles := pointer_cycles fops;
     pointer_bounds := pointer_bounds fops |}.

Definition set_pointer_cycles (fops : Fops) (c : gmap Z (list PointerCycle)) : Fops :=
  {| name := name fops; syscall_id := syscall_id fops; commands := commands fops;
     deps := deps fops; pointer_cycles := Some c;
     pointer_bounds := pointer_bounds fops |}.

Definition set_pointer_bounds (fops : Fops) (b : gmap Z (list MemberBounds)) : Fops :=
  {| name := name fops; syscall_id := syscall_id fops; commands := commands fops;
     deps := deps fops; pointer_cycles := pointer_cycles fops;
     pointer_bounds := Some b |}.

(** One invocation of a depth-bounded recursive analysis
    ([recursively_pick_ioctl_with_switchcase], [analyze_bounds]), as observed
    from outside: the functions on the call chain that led to it (the entry
    function first, the invoked one last), the [depth] it was given, and
    whether it went past its guards to look at the function and descend into
    its callees. *)
Record invocation : Type := {
  inv_chain : list Z;
  inv_depth : Z;
  inv_expanded : bool
}.

(** *** TypeAnalysisPass *)

Module TypeAnalysisPass.
Section WithDB.
Context (db : ftdb).

(** The [while db_type['class'] == 'typedef'] loop of [detypedef]. *)
Fixpoint detypedef_loop (fuel : nat) (db_type : ftdb_type) : result Z :=
  if decide (t_class db_type = "typedef") then
    match fuel with
    | O => Diverges
    | S n =>
        r ← py_index (t_refs db_type) 0;
        t ← types_entry_by_id db r;
        detypedef_loop n t
    end
  else Ok (t_id db_type).

Definition detypedef (fuel : nat) (type_id : Z) : result Z :=
  db_type ← types_entry_by_id db type_id;
  detypedef_loop fuel db_type.

Fixpoint find_unique_type_dependencies_rec (fuel : nat) (type_id : Z) (found : list Z)
  : result (list Z) :=
  match fuel with
  | O => Diverges
  | S n =>
      if decide (type_id ∈ found) then Ok found else
      db_type ← types_entry_by_id db type_id;
      let found := set_add type_id found in
      if decide (t_class db_type = "enum") then Ok found else
      for_each (fun found ref =>
                  d ← detypedef n ref;
                  find_unique_type_dependencies_rec n d found)
               (t_refs db_type) found
  end.

Definition find_unique_type_dependencies (fuel : nat) (type_id : Z) : result (list Z) :=
  d ← detypedef fuel type_id;
  find_unique_type_dependencies_rec fuel d [].

Definition contains_fields (fuel : nat) (type_id : Z) : result bool :=
  d ← detypedef fuel type_id;
  t ← types_entry_by_id db d;
  Ok (bool_decide (0 < Z.of_nat (length (t_refs t)))).

(** The [while db_type['class'] in ['pointer', 'typedef']] loop. *)
Fixpoint dereference_loop (fuel : nat) (db_type : ftdb_type) : result Z :=
  if decide (t_class db_type ∈ ["pointer"; "typedef"]) then
    match fuel with
    | O => Diverges
    | S n =>
        r ← py_index (t_refs db_type) 0;
        t ← types_entry_by_id db r;
        dereference_loop n t
    end
  else Ok (t_id db_type).

Definition dereference (fuel : nat) (type_id : Z) : result Z :=
  db_type ← types_entry_by_id db type_id;
  dereference_loop fuel db_type.

Definition process (fuel : nat) (fops : Fops) : result (Fops * bool) :=
  match commands fops with
  | None => Raise AttributeError
  | Some cmds =>
      all ← map_each (fun c : command => find_unique_type_dependencies fuel c.2) cmds;
      kept ← filter_each (contains_fields fuel) (concat all);
      let deps := remove_dups kept in
      Ok (set_deps fops deps, bool_decide (0 < Z.of_nat (length deps)))
  end.
End WithDB.
End TypeAnalysisPass.

(** *** PointerCyclesPass (a subclass of TypeAnalysisPass) *)

Module PointerCyclesPass.
Section WithDB.
Context (db : ftdb).

(** The body of [for i in range(len(db_type['refs']))]: the cycle entry of
    field [i], whose type is [ref], is appended under [type_id]. *)
Definition record_cycle (fuel : nat) (type_id : Z) (traversed : list Z)
    (cycles : gmap Z (list PointerCycle)) (field : nat * Z)
  : result (gmap Z (list PointerCycle)) :=
  let '(i, ref) := field in
  ref_type ← types_entry_by_id db ref;
  if decide (t_class ref_type ≠ "pointer") then Ok cycles else
  derefed ← TypeAnalysisPass.dereference db fuel ref;
  if decide (derefed ∈ traversed) then
    let entry := {| cycled_id := derefed; member_position := Z.of_nat i |} in
    match cycles !! type_id with
    | Some (f :: fs) => Ok (<[type_id := (f :: fs) ++ [entry]]> cycles)
    | _ => Ok (<[type_id := [entry]]> cycles)
    end
  else Ok cycles.

(** The body of [for ref in db_type['refs']], with the recursive call
    [analyze] it makes: the cycles of the branch through [ref] are merged
    into the ones collected so far. *)
Definition merge_branch (fuel : nat)
    (analyze : Z -> list Z -> result (gmap Z (list PointerCycle) * list Z))
    (st : gmap Z (list PointerCycle) * list Z) (ref : Z)
  : result (gmap Z (list PointerCycle) * list Z) :=
  let '(cycles, traversed) := st in
  if decide (ref ∈ traversed) then Ok (cycles, traversed) else
  d ← TypeAnalysisPass.dereference db fuel ref;
  '(sub, traversed) ← analyze d traversed;
  Ok (dict_spread cycles sub, traversed).

(** [__analyze_pointer_cycles]; [traversed] is one set shared by the whole
    recursion, so it is threaded through and returned. *)
Fixpoint analyze_pointer_cycles_rec (fuel : nat) (type_id : Z) (traversed : list Z)
  : result (gmap Z (list PointerCycle) * list Z) :=
  match fuel with
  | O => Diverges
  | S n =>
      if decide (type_id ∈ traversed) then Ok (∅, traversed) else
      db_type ← types_entry_by_id db type_id;
      if decide (t_class db_type ≠ "record") then Ok (∅, traversed) else
      cycles ← for_each (record_cycle n type_id traversed)
                        (imap pair (t_refs db_type)) ∅;
      let traversed := set_add type_id traversed in
      for_each (merge_branch n (analyze_pointer_cycles_rec n))
               (t_refs db_type) (cycles, traversed)
  end.

Definition analyze_pointer_cycles (fuel : nat) (type_id : Z)
  : result (gmap Z (list PointerCycle)) :=
  d ← TypeAnalysisPass.detypedef db fuel type_id;
  fst <$> analyze_pointer_cycles_rec fuel d [].

(** The body of [for _, _, type_id in fops.commands]. *)
Definition merge_root (fuel : nat) (acc : gmap Z (list PointerCycle)) (c : command)
  : result (gmap Z (list PointerCycle)) :=
  sub ← analyze_pointer_cycles fuel c.2;
  Ok (dict_spread acc sub).

Definition process (fuel : nat) (fops : Fops) : result (Fops * bool) :=
  match commands fops with
  | None => Raise AttributeError
  | Some cmds =>
      cycles ← for_each (merge_root fuel) cmds ∅;
      Ok (set_pointer_cycles fops cycles, true)
  end.
End WithDB.
End PointerCyclesPass.

(** *** PointerBoundsPass *)

Module PointerBoundsPass.

(** A binding model [{ 'binding': b, 'bound': p }] is the pair [(b, p)]. *)
Definition BINDING_CALLS : list (string * list (Z * Z)) :=
  [ ("copy_from_user", [(2, 0); (2, 1)]);
    ("copy_to_user", [(2, 0); (2, 1)]) ].

(** [__init__]: the ids of the functions named in [BINDING_CALLS]. *)
Definition init_id_to_name (db : ftdb) : list (Z * string) :=
  fold_left (fun d func_name =>
               fold_left (fun d function_object =>
                            dict_set (f_id function_object) func_name d)
                         (funcs_entry_by_name db func_name) d)
            (map fst BINDING_CALLS) [].

Definition find_indexes_of_element (lst : list Z) (element : Z) : list nat :=
  filter (fun i => lst !! i = Some element) (seq 0 (length lst)).

Section WithDB.
Context (db : ftdb) (id_to_name : list (Z * string)).

Definition call_indexes (db_func : ftdb_func) : list nat :=
  concat (map (fun fid => find_indexes_of_element (f_calls db_func) fid)
              (map fst id_to_name)).

(** The [while binding_deref['kind'] != 'member' or ...] loop. *)
Fixpoint walk_to_members (wfuel : nat) (derefs : list ftdb_deref)
    (binding_deref bound_deref : ftdb_deref) : result (ftdb_deref * ftdb_deref) :=
  if decide (d_kind binding_deref ≠ "member" ∨ d_kind bound_deref ≠ "member") then
    match wfuel with
    | O => Diverges
    | S n =>
        binding_deref ←
          (if decide (d_kind binding_deref ≠ "member")
           then o ← py_index (d_offsetrefs binding_deref) 0; py_index derefs (or_id o)
           else Ok binding_deref);
        bound_deref ←
          (if decide (d_kind bound_deref ≠ "member")
           then o ← py_index (d_offsetrefs bound_deref) 0; py_index derefs (or_id o)
           else Ok bound_deref);
        walk_to_members n derefs binding_deref bound_deref
    end
  else Ok (binding_deref, bound_deref).

(** The body of [for model in models] at one call site. *)
Definition scan_model (wfuel : nat) (db_func : ftdb_func) (call_index : nat)
    (res : gmap Z (list MemberBounds)) (model : Z * Z)
  : result (gmap Z (list MemberBounds)) :=
  info ← py_index (f_call_info db_func) (Z.of_nat call_index);
  a ← py_index (ci_args info) model.1;
  binding_deref ← py_index (f_derefs db_func) a;
  info ← py_index (f_call_info db_func) (Z.of_nat call_index);
  a ← py_index (ci_args info) model.2;
  bound_deref ← py_index (f_derefs db_func) a;
  o ← py_index (d_offsetrefs binding_deref) 0;
  if decide (or_kind o ≠ "member") then Ok res else
  o ← py_index (d_offsetrefs bound_deref) 0;
  if decide (or_kind o ≠ "member") then Ok res else
  '(binding_deref, bound_deref) ←
    walk_to_members wfuel (f_derefs db_func) binding_deref bound_deref;
  tb ← py_index (d_type binding_deref) (-1);
  td ← py_index (d_type bound_deref) (-1);
  if decide (tb ≠ td) then Ok res else
  anchor_record ← types_entry_by_id db td;
  if decide (t_class anchor_record = "record" ∧ t_union anchor_record = true)
  then Ok res else
  mb ← py_index (d_member binding_deref) (-1);
  md ← py_index (d_member bound_deref) (-1);
  let member_bounds :=
    {| type_id := td; binding_member := mb; bound_member := md |} in
  match res !! td with
  | Some (x :: s) => Ok (<[td := set_add member_bounds (x :: s)]> res)
  | _ => Ok (<[td := [member_bounds]]> res)
  end.

(** The body of [for call_index in call_indexes]. *)
Definition scan_call (wfuel : nat) (db_func : ftdb_func)
    (res : gmap Z (list MemberBounds)) (call_index : nat)
  : result (gmap Z (list MemberBounds)) :=
  callee ← py_index (f_calls db_func) (Z.of_nat call_index);
  fname ← dict_get callee id_to_name;
  models ← dict_get fname BINDING_CALLS;
  for_each (scan_model wfuel db_func call_index) models res.

(** [analyze_bounds], returning next to its result the invocations it
    made, in call order.  [chain] is the call chain down to and including
    [func_id]; it is not read by the analysis.  The recursive call leaves
    [max_depth] to its default. *)
Fixpoint analyze_bounds_traced (fuel wfuel : nat) (chain : list Z)
    (func_id depth max_depth : Z)
  : result (gmap Z (list MemberBounds) * list invocation) :=
  match fuel with
  | O => Diverges
  | S n =>
      let quiet := {| inv_chain := chain; inv_depth := depth; inv_expanded := false |} in
      match funcs_entry_by_id db func_id with
      | Ok db_func =>
          let call_indexes := call_indexes db_func in
          if bool_decide (depth > max_depth) || bool_decide (length call_indexes = 0%nat)
          then Ok (∅, [quiet])
          else
            res ← for_each (scan_call wfuel db_func) call_indexes ∅;
            for_each (fun (st : gmap Z (list MemberBounds) * list invocation) call =>
                        let '(res, log) := st in
                        '(sub, sublog) ←
                          analyze_bounds_traced n wfuel (chain ++ [call]) call (depth + 1) 4;
                        Ok (dict_spread res sub, log ++ sublog))
                     (f_calls db_func)
                     (res, [{| inv_chain := chain; inv_depth := depth;
                               inv_expanded := true |}])
      | _ => Ok (∅, [quiet])
      end
  end.

Definition analyze_bounds (fuel wfuel : nat) (func_id depth max_depth : Z)
  : result (gmap Z (list MemberBounds)) :=
  fst <$> analyze_bounds_traced fuel wfuel [func_id] func_id depth max_depth.

Definition process (fuel wfuel : nat) (fops : Fops) : result (Fops * bool) :=
  res ← analyze_bounds fuel wfuel (syscall_id fops) 1 4;
  Ok (set_pointer_bounds fops res, true).
End WithDB.
End PointerBoundsPass.

(** *** Strings and the [sizeof] pattern *)

Definition starts_with (s pre : string) : bool := String.prefix pre s.

Definition ends_with (s suf : string) : bool :=
  (String.length suf <=? String.length s)%nat &&
  bool_decide (String.substring (String.length s - String.length suf)
                                (String.length suf) s = suf).

(** [s.split(sep)] for a non-empty [sep]: [cur] is the piece being read and
    [skip] the number of characters of a separator still to pass over. *)
Fixpoint py_split_aux (sep : string) (skip : nat) (cur : string) (s : string)
  : list string :=
  match s with
  | EmptyString => [cur]
  | String c s' =>
      match skip with
      | S k => py_split_aux sep k cur s'
      | O =>
          if String.prefix sep s
          then cur :: py_split_aux sep (String.length sep - 1) EmptyString s'
          else py_split_aux sep 0 (cur +:+ String c EmptyString) s'
      end
  end.

Definition py_split (s sep : string) : list string := py_split_aux sep 0 EmptyString s.

(** [s.split(sep)[0]] and [s.split(sep)[-1]] *)
Definition split_first (s sep : string) : string := List.hd s (py_split s sep).
Definition split_last (s sep : string) : string := List.last (py_split s sep) s.

(** The character class [[a-zA-Z0-9\s_\-$\[\]\*]].  In a pattern that is a
    [str], [\s] is the white space of Unicode: below U+0100 the characters
    9 to 13, 28 to 32, 133 (U+0085) and 160 (U+00A0). *)
Definition sizeof_class (c : Ascii.ascii) : bool :=
  let n := Ascii.nat_of_ascii c in
  ((97 <=? n) && (n <=? 122) || (65 <=? n) && (n <=? 90) || (48 <=? n) && (n <=? 57)
   || (9 <=? n) && (n <=? 13) || (28 <=? n) && (n <=? 32) || (n =? 133) || (n =? 160)
   || (n =? 95) || (n =? 45) || (n =? 36) || (n =? 91) || (n =? 93) || (n =? 42))%nat.

(** The longest prefix of characters of the class, and what follows it. *)
Fixpoint span_class (s : string) : string * string :=
  match s with
  | EmptyString => (EmptyString, EmptyString)
  | String c s' =>
      if sizeof_class c
      then let '(grp, rest) := span_class s' in (String c grp, rest)
      else (EmptyString, s)
  end.

(** A match of [sizeof\(([...]+)\)] starting at the head of [s]: the closing
    parenthesis is not in the class, so the group is the longest run of class
    characters after [sizeof(] and a shorter group cannot match. *)
Definition match_sizeof_here (s : string) : option string :=
  if String.prefix "sizeof(" s then
    let '(grp, rest) := span_class (String.substring 7 (String.length s - 7) s) in
    if negb (bool_decide (grp = EmptyString)) && String.prefix ")" rest
    then Some grp else None
  else None.

(** [re.search(SIZEOF_REGEX, s)]: the group of the leftmost match. *)
Fixpoint search_sizeof (s : string) : option string :=
  match match_sizeof_here s with
  | Some grp => Some grp
  | None =>
      match s with
      | EmptyString => None
      | String _ s' => search_sizeof s'
      end
  end.

(** *** IoctlAnalysisPass *)

Module IoctlAnalysisPass.

Definition IOCTL_FILE_ARG : string * Z := ("parm", 0).
Definition IOCTL_COMMAND_ARG : string * Z := ("parm", 1).
Definition IOCTL_ARGUMENT_ARG : string * Z := ("parm", 2).

Definition FORWARD_DECLARED_TYPES : list string := ["record_forward"; "enum_forward"].

(** [lst.index(x)] for an [x] known to be in [lst]. *)
Fixpoint list_index {A : Type} `{EqDecision A} (x : A) (lst : list A) : nat :=
  match lst with
  | [] => O
  | y :: lst' => if decide (y = x) then O else S (list_index x lst')
  end.

Definition strip_type (type_name : string) : string * string :=
  let strip_star (name : string) :=
    if ends_with type_name " *" then split_first name " *" else name in
  if starts_with type_name "struct " then
    (strip_star (split_last type_name "struct "), "record")
  else if starts_with type_name "union " then
    (strip_star (split_last type_name "union "), "record")
  else if starts_with type_name "enum " then
    (strip_star (split_last type_name "enum "), "enum")
  else if ends_with type_name " *" then
    (split_first type_name " *", "pointer")
  else if ends_with type_name " [" then
    let name := split_first type_name " [" in
    let rest := split_last type_name " [" in
    if starts_with rest "]" || starts_with rest "0]"
    then (name, "incomplete_array")
    else (name, "const_array")
  else (type_name, "builtin").

Section WithDB.
Context (db : ftdb).

Definition pick_switchcases_by_argument_name (fid : Z) (condition : string)
  : result (list ftdb_switch) :=
  function ← funcs_entry_by_id db fid;
  Ok (filter (fun switch => sw_condition switch = condition) (f_switches function)).

Definition get_forwarded_ioctls (fid : Z) : result (list (Z * Z)) :=
  function ← funcs_entry_by_id db fid;
  for_each (fun candidates (ic : nat * list ftdb_callref) =>
              let '(i, callref) := ic in
              let typeparams := map (fun ref => (cr_type ref, cr_id ref)) callref in
              let typepos := map cr_pos callref in
              if decide (IOCTL_COMMAND_ARG ∈ typeparams ∧ IOCTL_ARGUMENT_ARG ∈ typeparams)
              then
                callee ← py_index (f_calls function) (Z.of_nat i);
                pos ← py_index typepos (Z.of_nat (list_index IOCTL_COMMAND_ARG typeparams));
                Ok (candidates ++ [(callee, pos)])
              else Ok candidates)
           (imap pair (f_callrefs function)) [].

(** The [try] block of [recursively_pick_ioctl_with_switchcase]. *)
Definition lookup_argument_name (fid argument_id : Z) : result string :=
  function ← funcs_entry_by_id db fid;
  l_name <$> py_index (f_locals function) argument_id.

(** [recursively_pick_ioctl_with_switchcase], returning next to its result
    the invocations it made, in call order.  [chain] is the call chain down
    to and including [fid]; it is not read by the analysis. *)
Fixpoint recursively_pick_traced (fuel : nat) (chain : list Z)
    (fid argument_id depth max_depth : Z)
  : result (list (Z * Z) * list invocation) :=
  match fuel with
  | O => Diverges
  | S n =>
      let quiet := {| inv_chain := chain; inv_depth := depth; inv_expanded := false |} in
      if bool_decide (depth > max_depth) then Ok ([], [quiet]) else
      match lookup_argument_name fid argument_id with
      | Ok argument_name =>
          targeted_switch ← pick_switchcases_by_argument_name fid argument_name;
          let functions :=
            match targeted_switch with [] => [] | _ => [(fid, argument_id)] end in
          forwarded ← get_forwarded_ioctls fid;
          for_each (fun (st : list (Z * Z) * list invocation) (cand : Z * Z) =>
                      let '(functions, log) := st in
                      '(sub, sublog) ←
                        recursively_pick_traced n (chain ++ [cand.1]) cand.1 cand.2
                                                (depth + 1) max_depth;
                      Ok (functions ++ sub, log ++ sublog))
                   forwarded
                   (functions, [{| inv_chain := chain; inv_depth := depth;
                                   inv_expanded := true |}])
      | _ => Ok ([], [quiet])
      end
  end.

Definition recursively_pick_ioctl_with_switchcase (fuel : nat)
    (fid argument_id depth max_depth : Z) : result (list (Z * Z)) :=
  fst <$> recursively_pick_traced fuel [fid] fid argument_id depth max_depth.

Definition get_ftdb_type_id_from_string (type_name : string) : option Z :=
  let identifier := (strip_type type_name).1 in
  let found_types := filter (fun x => t_str x = identifier) (db_types db) in
  match filter (fun x => t_class x ∉ FORWARD_DECLARED_TYPES) found_types with
  | guessed_type :: _ => Some (t_id guessed_type)
  | [] => None
  end.

(** The body of [for case in ...]. *)
Definition harvest_case (cases : list command) (case : ftdb_case) : list command :=
  match search_sizeof (case_3 case) with
  | None => cases
  | Some type_name =>
      match get_ftdb_type_id_from_string type_name with
      | None => cases
      | Some type_id =>
          if decide (type_id = 0) then cases
          else set_add (case_2 case, case_0 case, type_id) cases
      end
  end.

(** The loop [for function_id, argument_id in functions], which returns
    from the method at the first function without a matching switch. *)
Fixpoint harvest_functions (functions : list (Z * Z)) (cases : list command)
  : result (list command) :=
  match functions with
  | [] => Ok cases
  | (function_id, argument_id) :: rest =>
      function ← funcs_entry_by_id db function_id;
      argument_name ← l_name <$> py_index (f_locals function) argument_id;
      switches ← pick_switchcases_by_argument_name (f_id function) argument_name;
      match switches with
      | [] => Ok cases
      | _ =>
          harvest_functions rest
            (fold_left harvest_case (concat (map sw_cases switches)) cases)
      end
  end.

Definition analyze_switch_cases (fuel : nat) (fid : Z) : result (list command) :=
  functions ← recursively_pick_ioctl_with_switchcase fuel fid 1 1 3;
  match functions with
  | [] => Ok []
  | _ => harvest_functions functions []
  end.

Definition analyze_ifs (fid : Z) : list command := [].

(** [a.union(b)] *)
Definition analyze_ioctl_commands (fuel : nat) (fid : Z) : result (list command) :=
  a ← analyze_switch_cases fuel fid;
  Ok (fold_left (fun s x => set_add x s) (analyze_ifs fid) a).

Definition process (fuel : nat) (fops : Fops) : result (Fops * bool) :=
  cmds ← analyze_ioctl_commands fuel (syscall_id fops);
  Ok (set_commands fops cmds, bool_decide (Z.of_nat (length cmds) > 0)).
End WithDB.
End IoctlAnalysisPass.

(** *** FopsCollector *)

Module FopsCollector.

Definition FILE_OPERATIONS : list string := ["file_operations"; "proc_ops"; "uart_ops"].

Record t : Type := {
  types : list (string * list ftdb_type);
  fields : gmap Z (list string);
  vars : list ftdb_fops
}.

Definition get_fops_types (db : ftdb) : result (list ftdb_type) :=
  let fops_types :=
    filter (fun x => t_str x ∈ FILE_OPERATIONS ∧ t_class x ≠ "record_forward")
           (db_types db) in
  if bool_decide (length fops_types = 0%nat) then Raise AttributeError
  else Ok fops_types.

(** The first loop of [__init__]: group the entries by name. *)
Definition group_by_name (fops_types : list ftdb_type) : list (string * list ftdb_type) :=
  fold_left (fun types typ =>
               match dict_get (t_str typ) types with
               | Ok (x :: v) => dict_set (t_str typ) ((x :: v) ++ [typ]) types
               | _ => dict_set (t_str typ) [typ] types
               end)
            fops_types [].

Definition get_fops_vars (db : ftdb) (types : list (string * list ftdb_type))
  : list ftdb_fops :=
  let fops_ids := concat (map (fun kv => map t_id kv.2) types) in
  filter (fun x => fo_type x ∈ fops_ids) (db_fops db).

Definition init (db : ftdb) : result t :=
  fops_types ← get_fops_types db;
  let types := group_by_name fops_types in
  let fields :=
    fold_left (fun fields kv =>
                 fold_left (fun fields typ => <[t_id typ := t_refnames typ]> fields)
                           kv.2 fields)
              types (∅ : gmap Z (list string)) in
  Ok {| types := types; fields := fields; vars := get_fops_vars db types |}.
(** The loop [while name in fops.keys(): name += '_'] of
    [find_new_fops_name], on the keys of [fops]. *)
Fixpoint find_new_fops_name_loop (fuel : nat) (keys : list string) (name : string)
  : result string :=
  if decide (name ∈ keys) then
    match fuel with
    | O => Diverges
    | S n => find_new_fops_name_loop n keys (name +:+ "_")
    end
  else Ok name.

(** [fops] is the dictionary of the handlers collected so far, in insertion
    order.  The loop passes over distinct names that are all keys of it, so
    as many rounds as there are keys are enough. *)
Definition find_new_fops_name {V : Type} (fops : list (string * V)) (name : string)
  : result string :=
  find_new_fops_name_loop (length fops) (map fst fops) name.
End FopsCollector.

(** ** syzlang.py *)

Definition nl : string := String (Ascii.ascii_of_nat 10) EmptyString.
Definition tab : string := String (Ascii.ascii_of_nat 9) EmptyString.

(** The declaration classes.  [BaseDeclaration] is the base class itself,
    which renders as the empty string.  [PointerDeclaration] carries its
    [optional] attribute; [LengthDeclaration] holds the text of the type it
    wraps. *)
Inductive declaration : Type :=
| BaseDeclaration
| RecordDeclaration (name : string)
| EnumDeclaration (layout_type : string) (inside_type : declaration)
| IntegerDeclaration (size : Z)
| VoidDeclaration
| ArrayDeclaration (inside_type : declaration) (size : Z)
| PointerDeclaration (inside_type : declaration) (optional : bool)
| LengthDeclaration (field_name : string) (inside_type : string).

(** [ArrayDeclaration.__init__] *)
Definition ArrayDeclaration_init (inside_type : declaration) (size : Z) : declaration :=
  ArrayDeclaration inside_type (if bool_decide (size > 0) then size else 1).

(** [PointerDeclaration.__init__] *)
Definition PointerDeclaration_init (inside_type : declaration) : declaration :=
  PointerDeclaration inside_type false.

(** [__str__] of the declaration classes *)
Fixpoint declaration_str (d : declaration) : string :=
  match d with
  | BaseDeclaration => ""
  | RecordDeclaration name => name
  | EnumDeclaration layout_type inside_type =>
      "flags[" +:+ layout_type +:+ ", " +:+ declaration_str inside_type +:+ "]"
  | IntegerDeclaration size => "int" +:+ pretty size
  | VoidDeclaration => "void"
  | ArrayDeclaration inside_type size =>
      "array[" +:+ declaration_str inside_type +:+ ", " +:+ pretty size +:+ "]"
  | PointerDeclaration inside_type optional =>
      match inside_type with
      | VoidDeclaration => "buffer[inout]"
      | _ =>
          if optional
          then "ptr[inout, " +:+ declaration_str inside_type +:+ ", opt]"
          else "ptr[inout, " +:+ declaration_str inside_type +:+ "]"
      end
  | LengthDeclaration field_name inside_type =>
      "len[" +:+ field_name +:+ ", " +:+ inside_type +:+ "]"
  end.

(** [decl.optional = True]: read back by [PointerDeclaration.__str__] only. *)
Definition set_optional (d : declaration) : declaration :=
  match d with
  | PointerDeclaration inside_type _ => PointerDeclaration inside_type true
  | _ => d
  end.

Record RecordField : Type := {
  field_name : string;
  type_decl : declaration
}.

Definition RecordField_str (f : RecordField) : string :=
  field_name f +:+ " " +:+ declaration_str (type_decl f).

(** What [__generate_type_definition] returns. *)
Inductive definition : Type :=
| RecordDefinition (name : string) (fields : list RecordField) (union : bool)
| EnumDefinition (name : string) (values : list Z)
| NoDefinition.

(** [", ".join] of the values, as [EnumDefinition.__str__] writes them. *)
Fixpoint comma_separated (values : list Z) : string :=
  match values with
  | [] => ""
  | [v] => pretty v
  | v :: rest => pretty v +:+ ", " +:+ comma_separated rest
  end.

Definition definition_str (d : definition) : string :=
  match d with
  | RecordDefinition name fields union =>
      name +:+ " " +:+ (if union then "[" else "{") +:+ nl
      +:+ String.concat "" (map (fun f => tab +:+ RecordField_str f +:+ nl) fields)
      +:+ (if union then "]" else "}") +:+ nl +:+ nl
  | EnumDefinition name values =>
      name +:+ " = " +:+ comma_separated values +:+ nl +:+ nl
  | NoDefinition => ""
  end.

Definition IoctlDeclaration_str (fd_name label : string) (argument : declaration) : string :=
  "ioctl$" +:+ label +:+ "_syzdescriptor(fd " +:+ fd_name +:+ ", cmd const["
  +:+ label +:+ "_syzdescriptor], arg " +:+ declaration_str argument +:+ ")" +:+ nl +:+ nl.

Definition OpenDeclaration_str (label open_path fd_name : string) : string :=
  "openat$" +:+ label +:+ "_syzdescriptor(fd const[AT_FDCWD], file ptr[in, string["
  +:+ open_path +:+ "_syzdescriptor]], flags flags[open_flags], mode const[0]) "
  +:+ fd_name +:+ nl +:+ nl.

(** The value of a constant: a command value or, for a path, a string. *)
Inductive const_value : Type :=
| IntValue (v : Z)
| StrValue (s : string).

Definition const_value_str (v : const_value) : string :=
  match v with
  | IntValue v => pretty v
  | StrValue s => s
  end.

Definition ConstantDefinition_str (name : string) (value : const_value) : string :=
  name +:+ "_syzdescriptor = " +:+ const_value_str value +:+ nl.

(** [l[i] = f(l[i])] *)
Definition py_update {A : Type} (l : list A) (i : Z) (f : A -> A) : result (list A) :=
  let n := Z.of_nat (length l) in
  let j := if bool_decide (i < 0) then i + n else i in
  if bool_decide (0 <= j < n)
  then Ok (alter f (Z.to_nat j) l)
  else Raise IndexError.

(** [int(a / b)]: the true division of two integers, truncated towards zero
    (exact as long as the quotient is below 2^53, which sizes in bits are). *)
Definition py_int_div (a b : Z) : result Z :=
  if decide (b = 0) then Raise ZeroDivisionError else Ok (Z.quot a b).

(** *** Generator *)

Module Generator.

Record t : Type := {
  generated_consts : gmap string const_value;
  generated_types : gmap Z (list string);
  bounds : option (gmap Z (list MemberBounds));
  cycles : option (gmap Z (list PointerCycle))
}.

(** [__init__]: [bounds] and [cycles] are not set yet. *)
Definition init : t :=
  {| generated_consts := ∅; generated_types := ∅; bounds := None; cycles := None |}.

Definition set_generated_consts (g : t) (c : gmap string const_value) : t :=
  {| generated_consts := c; generated_types := generated_types g;
     bounds := bounds g; cycles := cycles g |}.

Definition set_generated_types (g : t) (ty : gmap Z (list string)) : t :=
  {| generated_consts := generated_consts g; generated_types := ty;
     bounds := bounds g; cycles := cycles g |}.

Definition set_analysis (g : t) (b : option (gmap Z (list MemberBounds)))
    (c : option (gmap Z (list PointerCycle))) : t :=
  {| generated_consts := generated_consts g; generated_types := generated_types g;
     bounds := b; cycles := c |}.

(** The loop [while name in self.generated_consts.keys(): name += '_']. *)
Fixpoint find_new_const_name_loop (fuel : nat) (consts : gmap string const_value)
    (name : string) : result string :=
  if decide (is_Some (consts !! name)) then
    match fuel with
    | O => Diverges
    | S n => find_new_const_name_loop n consts (name +:+ "_")
    end
  else Ok name.

(** The loop passes over distinct names that are all keys of the
    dictionary, so it leaves after at most as many rounds as there are
    keys ([find_new_const_name_returns]). *)
Definition find_new_const_name (g : t) (name : string) : result string :=
  find_new_const_name_loop (size (generated_consts g)) (generated_consts g) name.

Definition rename_already_used_consts (g : t) (commands : list command)
  : result (list command) :=
  let to_remove :=
    fold_left (fun to_remove (c : command) =>
                 if decide (is_Some (generated_consts g !! c.1.1))
                 then set_add c to_remove else to_remove)
              commands [] in
  for_each (fun commands (el : command) =>
              new_name ← find_new_const_name g el.1.1;
              Ok (set_add (new_name, el.1.2, el.2) (set_remove el commands)))
           to_remove commands.

(** [generate_const_file]: the text, the generator and the handler record
    after the call (the commands of the record are renamed in place). *)
Definition generate_const_file (g : t) (fop : Fops) : result (string * t * Fops) :=
  match commands fop with
  | None => Raise AttributeError
  | Some cmds =>
      cmds ← rename_already_used_consts g cmds;
      let '(buffer, consts) :=
        fold_left (fun (st : string * gmap string const_value) (c : command) =>
                     let '(buffer, consts) := st in
                     (buffer +:+ ConstantDefinition_str c.1.1 (IntValue c.1.2),
                      <[c.1.1 := IntValue c.1.2]> consts))
                  cmds ("", generated_consts g) in
      Ok (buffer, set_generated_consts g consts, set_commands fop cmds)
  end.

Section WithDB.
Context (db : ftdb).

Definition detypedef (fuel : nat) (type_id : Z) : result Z :=
  db_type ← types_entry_by_id db type_id;
  TypeAnalysisPass.detypedef_loop db fuel db_type.

Definition assign_name_to_type (fuel : nat) (g : t) (typeid : Z)
  : result (option (Z * string) * t) :=
  match generated_types g !! typeid with
  | Some (x :: names) =>
      let new_name := List.last (x :: names) x +:+ "_" in
      Ok (Some (typeid, new_name),
          set_generated_types g (<[typeid := (x :: names) ++ [new_name]]> (generated_types g)))
  | _ =>
      d ← detypedef fuel typeid;
      db_type ← types_entry_by_id db d;
      if decide (t_class db_type ∉ ["record"; "enum"]) then Ok (None, g) else
      let name := t_str db_type in
      let name := if decide (name = "") then "ANONTYPE_" +:+ pretty typeid else name in
      Ok (Some (typeid, name),
          set_generated_types g (<[typeid := [name]]> (generated_types g)))
  end.

(** [self.generated_types[id][-1]] when [self.generated_types.get(id)] holds. *)
Definition assigned_name (g : t) (id : Z) : option string :=
  match generated_types g !! id with
  | Some (x :: names) => Some (List.last (x :: names) x)
  | _ => None
  end.

Fixpoint generate_type_declaration (fuel : nat) (g : t) (type_id : Z)
  : result declaration :=
  match fuel with
  | O => Diverges
  | S n =>
      d ← detypedef n type_id;
      db_type ← types_entry_by_id db d;
      if decide (t_class db_type = "record") then
        Ok (from_option RecordDeclaration BaseDeclaration (assigned_name g (t_id db_type)))
      else if decide (t_class db_type = "const_array" ∨ t_class db_type = "incomplete_array") then
        let size := t_size db_type in
        let size := if decide (size = 0) then 1 else size in
        r ← py_index (t_refs db_type) 0;
        underlying_type ← types_entry_by_id db r;
        r ← py_index (t_refs db_type) 0;
        inside ← generate_type_declaration n g r;
        count ← py_int_div size (t_size underlying_type);
        Ok (ArrayDeclaration_init inside count)
      else if decide (t_class db_type = "enum") then
        Ok (from_option (fun name => EnumDeclaration name (IntegerDeclaration 32))
                        BaseDeclaration (assigned_name g (t_id db_type)))
      else if decide (t_class db_type = "pointer") then
        r ← py_index (t_refs db_type) 0;
        r ← detypedef n r;
        inside ← generate_type_declaration n g r;
        Ok (PointerDeclaration_init inside)
      else if decide (t_class db_type = "builtin" ∧ t_str db_type = "void") then
        Ok VoidDeclaration
      else if decide (t_class db_type = "builtin" ∧ t_size db_type > 64) then
        if decide (t_size db_type `mod` 8 ≠ 0) then Raise AssertionError else
        count ← py_int_div (t_size db_type) 8;
        Ok (ArrayDeclaration_init (IntegerDeclaration 8) count)
      else if decide (t_class db_type = "builtin") then
        Ok (IntegerDeclaration (t_size db_type))
      else Ok BaseDeclaration
  end.

(** [filter_anonymous_type_names], with its counter passed along. *)
Definition filter_anonymous_type_names (anonymous_count : Z) (type_name : string)
  : string * Z :=
  if decide (type_name = "__!anonrecord__" ∨ type_name = "__!recorddecl__")
  then ("anonymous" +:+ pretty anonymous_count, anonymous_count + 1)
  else (type_name, anonymous_count).

(** The rewrite of one bound pair in [generate_record_definition]. *)
Definition apply_bound (fields : list RecordField) (bound : MemberBounds)
  : result (list RecordField) :=
  binding ← py_index fields (binding_member bound);
  let type_decl := declaration_str (type_decl binding) in
  bound_field ← py_index fields (bound_member bound);
  py_update fields (binding_member bound)
    (fun f => {| field_name := field_name f;
                 type_decl := LengthDeclaration (field_name bound_field) type_decl |}).

(** The mark of one pointer cycle in [generate_record_definition]. *)
Definition apply_cycle (fields : list RecordField) (cycle : PointerCycle)
  : result (list RecordField) :=
  py_update fields (member_position cycle)
    (fun f => {| field_name := field_name f; type_decl := set_optional (type_decl f) |}).

Definition generate_record_definition (fuel : nat) (g : t) (type_id : Z)
    (name : string) (union : bool) : result definition :=
  d ← detypedef fuel type_id;
  db_type ← types_entry_by_id db d;
  '(fields, _) ←
    for_each (fun (st : list RecordField * Z) (nt : string * Z) =>
                let '(fields, anonymous_count) := st in
                let '(fname, anonymous_count) :=
                  filter_anonymous_type_names anonymous_count nt.1 in
                decl ← generate_type_declaration fuel g nt.2;
                Ok (fields ++ [{| field_name := fname; type_decl := decl |}],
                    anonymous_count))
             (zip (t_refnames db_type) (t_refs db_type)) ([], 0);
  bounds ← from_option Ok (Raise AttributeError) (bounds g);
  fields ←
    match bounds !! type_id with
    | Some (b :: bs) => for_each apply_bound (b :: bs) fields
    | _ => Ok fields
    end;
  cycles ← from_option Ok (Raise AttributeError) (cycles g);
  fields ←
    match cycles !! type_id with
    | Some (c :: cs) => for_each apply_cycle (c :: cs) fields
    | _ => Ok fields
    end;
  Ok (RecordDefinition name fields union).

Definition generate_enum_definition (fuel : nat) (type_id : Z) (name : string)
  : result definition :=
  d ← detypedef fuel type_id;
  db_type ← types_entry_by_id db d;
  Ok (EnumDefinition name (t_values db_type)).

Definition generate_type_definition (fuel : nat) (g : t) (type_id : Z) (name : string)
  : result definition :=
  d ← detypedef fuel type_id;
  db_type ← types_entry_by_id db d;
  if decide (t_class db_type = "record" ∧ t_union db_type = false) then
    generate_record_definition fuel g type_id name false
  else if decide (t_class db_type = "record" ∧ t_union db_type = true) then
    generate_record_definition fuel g type_id name true
  else if decide (t_class db_type = "enum") then
    generate_enum_definition fuel type_id name
  else Ok NoDefinition.

(** [__generate_ioctl_declaration(...).__str__()] *)
Definition generate_ioctl_declaration (fuel : nat) (g : t) (fd_name label : string)
    (type_id : Z) : result string :=
  d ← detypedef fuel type_id;
  db_type ← types_entry_by_id db d;
  argument_type ← generate_type_declaration fuel g type_id;
  match argument_type with
  | BaseDeclaration => Ok ""
  | _ =>
      if decide (t_class db_type = "pointer")
      then Ok (IoctlDeclaration_str fd_name label argument_type)
      else Ok (IoctlDeclaration_str fd_name label (PointerDeclaration_init argument_type))
  end.

(** [today] is the text of [datetime.date.today()]. *)
Definition generate_header (today fd_name path_constant : string) (anchor_id : Z)
  : string :=
  "# Generated by syzdescriptor on " +:+ today +:+ nl
  +:+ "# Path constant is: " +:+ path_constant +:+ nl
  +:+ "# Anchor function ID is: " +:+ pretty anchor_id +:+ nl
  +:+ "include <linux/ioctl.h>" +:+ nl
  +:+ "include <linux/types.h>" +:+ nl
  +:+ nl
  +:+ "resource " +:+ fd_name +:+ "[fd]" +:+ nl +:+ nl.

(** The list [[self.__assign_name_to_type(x) for x in fop.deps]] without
    its [None]s, and the generator after the calls. *)
Definition assign_names (fuel : nat) (g : t) (deps : list Z)
  : result (list (Z * string) * t) :=
  for_each (fun (st : list (Z * string) * t) x =>
              let '(named, g) := st in
              '(r, g) ← assign_name_to_type fuel g x;
              Ok (match r with Some p => named ++ [p] | None => named end, g))
           deps ([], g).

(** [generate_description].  The local [deps] is a set of pairs
    [(type id, name)]; [set_order] gives the order in which iterating that
    set yields the pairs it was built from. *)
Definition generate_description (set_order : list (Z * string) -> list (Z * string))
    (fuel : nat) (today : string) (g : t) (fop : Fops) : result (string * t) :=
  fop_deps ← from_option Ok (Raise AttributeError) (deps fop);
  '(named, g) ← assign_names fuel g fop_deps;
  let deps := set_order (remove_dups named) in
  let fd_name := "fd_" +:+ name fop in
  path ← find_new_const_name g ("SYZDESCRIPTOR_PATH_" +:+ pretty (syscall_id fop));
  let g := set_generated_consts g (<[path := StrValue ""]> (generated_consts g)) in
  let buffer := generate_header today fd_name path (syscall_id fop) in
  let buffer := buffer +:+ OpenDeclaration_str (name fop) path fd_name in
  cmds ← from_option Ok (Raise AttributeError) (commands fop);
  buffer ← for_each (fun buffer (c : command) =>
                       s ← generate_ioctl_declaration fuel g fd_name c.1.1 c.2;
                       Ok (buffer +:+ s))
                    cmds buffer;
  let buffer := buffer +:+ nl in
  b ← from_option Ok (Raise AttributeError) (pointer_bounds fop);
  c ← from_option Ok (Raise AttributeError) (pointer_cycles fop);
  let g := set_analysis g (Some b) (Some c) in
  buffer ← for_each (fun buffer (p : Z * string) =>
                       d ← generate_type_definition fuel g p.1 p.2;
                       Ok (buffer +:+ definition_str d))
                    deps buffer;
  Ok (buffer, set_analysis g None None).
End WithDB.
End Generator.

(** ** driver.py *)

Module GenerationDriver.

(** The passes, objects of classes derived from [BasePass]; a
    [PointerBoundsPass] holds the [id_to_name] table its constructor built. *)
Inductive pass : Type :=
| IoctlAnalysisPass
| TypeAnalysisPass
| PointerCyclesPass
| PointerBoundsPass (id_to_name : list (Z * string)).

(** [p.process(fop)] *)
Definition process (db : ftdb) (fuel wfuel : nat) (p : pass) (fop : Fops)
  : result (Fops * bool) :=
  match p with
  | IoctlAnalysisPass => IoctlAnalysisPass.process db fuel fop
  | TypeAnalysisPass => TypeAnalysisPass.process db fuel fop
  | PointerCyclesPass => PointerCyclesPass.process db fuel fop
  | PointerBoundsPass id_to_name => PointerBoundsPass.process db id_to_name fuel wfuel fop
  end.

(** What the driver holds and what it changes: the generator and the files
    of the output directory, by path. *)
Record t : Type := {
  collector : FopsCollector.t;
  generator : Generator.t;
  passes : list (pass * bool);
  output_path : string;
  architecture : string;
  files : gmap string string
}.

Definition with_output (drv : t) (g : Generator.t) (fs : gmap string string) : t :=
  {| collector := collector drv; generator := g; passes := passes drv;
     output_path := output_path drv; architecture := architecture drv; files := fs |}.

(** [__init__], on a database that has been loaded; [files] is the output
    directory as it is found. *)
Definition init (db : ftdb) (output_path architecture : string)
    (files : gmap string string) : result t :=
  collector ← FopsCollector.init db;
  Ok {| collector := collector;
        generator := Generator.init;
        passes := [ (IoctlAnalysisPass, true);
                    (TypeAnalysisPass, true);
                    (PointerCyclesPass, false);
                    (PointerBoundsPass (PointerBoundsPass.init_id_to_name db), false) ];
        output_path := output_path;
        architecture := architecture;
        files := files |}.

(** [os.path.join(a, b)] *)
Definition path_join (a b : string) : string :=
  if starts_with b "/" then b
  else if bool_decide (a = "") || ends_with a "/" then a +:+ b
  else a +:+ "/" +:+ b.

(** The loop over [self.passes] of [__generate_description]: the record
    after the passes, or [None] when a pass that discards on failure
    failed.  An exception in a pass ends the program. *)
Fixpoint run_passes (db : ftdb) (fuel wfuel : nat) (ps : list (pass * bool)) (fop : Fops)
  : result (option Fops) :=
  match ps with
  | [] => Ok (Some fop)
  | (p, skip_on_fail) :: ps' =>
      match process db fuel wfuel p fop with
      | Ok (fop, success) =>
          if skip_on_fail && negb success then Ok None
          else run_passes db fuel wfuel ps' fop
      | Raise _ => Raise SystemExit
      | Diverges => Diverges
      end
  end.

Section WithDB.
Context (db : ftdb) (set_order : list (Z * string) -> list (Z * string))
        (fuel wfuel : nat) (today : string).

Definition dump_file (drv : t) (fop : Fops) : result t :=
  let const_path :=
    path_join (output_path drv) (name fop +:+ "_" +:+ architecture drv +:+ ".const") in
  let desc_path := path_join (output_path drv) (name fop +:+ ".txt") in
  (* [open(path, 'x')] raises when the file exists *)
  match files drv !! const_path with
  | Some _ => Raise FileExistsError
  | None =>
      '(text, g, fop) ← Generator.generate_const_file (generator drv) fop;
      let fs := <[const_path := text]> (files drv) in
      match fs !! desc_path with
      | Some _ => Raise FileExistsError
      | None =>
          '(text, g) ← Generator.generate_description db set_order fuel today g fop;
          Ok (with_output drv g (<[desc_path := text]> fs))
      end
  end.

(** [__generate_description] *)
Definition generate_description (drv : t) (fop : Fops) : result t :=
  r ← run_passes db fuel wfuel (passes drv) fop;
  match r with
  | None => Ok drv
  | Some fop => dump_file drv fop
  end.
End WithDB.
End GenerationDriver.

(** ** postprocessor.py *)

(** [s.find(sub)]: the index of the first occurrence of [sub] in [s], [-1]
    when there is none; [i] is the index of the head of [s]. *)
Fixpoint py_find_from (sub s : string) (i : Z) : Z :=
  if String.prefix sub s then i else
  match s with
  | EmptyString => -1
  | String _ s' => py_find_from sub s' (i + 1)
  end.

Definition py_find (s sub : string) : Z := py_find_from sub s 0.

(** A bound of a slice of a sequence of length [len]: a negative bound
    counts from the end, and bounds are cut to the sequence. *)
Definition py_clamp (len i : Z) : Z :=
  if bool_decide (i < 0) then Z.max (i + len) 0 else Z.min i len.

(** [s[a:b]] and [s[a:]] *)
Definition py_slice (s : string) (a b : Z) : string :=
  let len := Z.of_nat (String.length s) in
  let a := py_clamp len a in
  let b := py_clamp len b in
  if bool_decide (a < b) then String.substring (Z.to_nat a) (Z.to_nat (b - a)) s else "".

Definition py_slice_from (s : string) (a : Z) : string :=
  py_slice s a (Z.of_nat (String.length s)).

Module Postprocessor.

Definition OPEN_PLACEHOLDER : string := "# Anchor function ID is: ".
Definition PATH_PLACEHOLDER : string := "# Path constant is: ".

Definition get_colon_separated_value (buffer lhs : string) : string :=
  let off := py_find buffer lhs in
  if decide (off = -1) then "" else
  let eol := py_find (py_slice_from buffer (off + Z.of_nat (String.length lhs))) nl in
  py_slice buffer (off + Z.of_nat (String.length lhs))
                  (off + Z.of_nat (String.length lhs) + eol).
End Postprocessor.

(** * Vocabulary of the properties *)

Section Vocabulary.
Context (db : ftdb).

(** [d] is the id of an entry that is not a typedef. *)
Definition non_typedef (d : Z) : Prop :=
  exists t, types_entry_by_id db d = Ok t /\ t_class t <> "typedef".

(** [d] is the id of an entry that is neither a typedef nor a pointer. *)
Definition concrete (d : Z) : Prop :=
  exists t, types_entry_by_id db d = Ok t /\
            t_class t <> "typedef" /\ t_class t <> "pointer".

(** [contains_fields(d)] returns [True]. *)
Definition has_fields (d : Z) : Prop :=
  exists fuel, TypeAnalysisPass.contains_fields db fuel d = Ok true.

(** [u] is what one of the references of the entry [d] stands for once its
    typedefs are followed; the references of an enum do not count. *)
Inductive field_dep (d u : Z) : Prop :=
| field_dep_ref (t : ftdb_type) (r : Z) (fuel : nat) :
    types_entry_by_id db d = Ok t ->
    t_class t <> "enum" ->
    r ∈ t_refs t ->
    TypeAnalysisPass.detypedef db fuel r = Ok u ->
    field_dep d u.

(** Every type with fields that is reached from a member of [ds] along
    references is a member of [ds]. *)
Definition closed_under_field_dep (ds : list Z) : Prop :=
  forall d u, d ∈ ds -> rtc field_dep d u -> has_fields u -> u ∈ ds.

(** The references out of [y] lead into [S]. *)
Definition refs_within (S : list Z) (y : Z) : Prop :=
  forall u, field_dep y u -> u ∈ S.

(** What a search of [__find_unique_type_dependencies] that returns has
    done to the set it was given: nothing was taken out, what was added is
    not a typedef (the start [x] apart), and the references out of what was
    added lead into the result. *)
Definition search_post (x : option Z) (found found' : list Z) : Prop :=
  found ⊆ found' /\
  (forall y, y ∈ found' -> y ∈ found \/ Some y = x \/ non_typedef y) /\
  (forall y, y ∈ found' -> y ∉ found -> refs_within found' y).
End Vocabulary.

(** A full definition of one of the dispatch records. *)
Definition is_dispatch_type (t : ftdb_type) : Prop :=
  t_str t ∈ FopsCollector.FILE_OPERATIONS /\ t_class t <> "record_forward".

(** A computation that is given enough fuel returns or raises. *)
Definition returns {A : Type} (r : result A) : bool :=
  match r with
  | Diverges => false
  | _ => true
  end.

Section BoundsVocabulary.
Context (db : ftdb) (id_to_name : list (Z * string)).

(** The function [fid] has a call site whose callee is one of the user-copy
    functions. *)
Definition directly_copies (fid : Z) : Prop :=
  exists f, funcs_entry_by_id db fid = Ok f /\
            PointerBoundsPass.call_indexes id_to_name f <> [].

(** The scan of the call sites of the function [fid] records the set [S]
    under the type id [k]. *)
Definition found_in (wfuel : nat) (fid k : Z) (S : list MemberBounds) : Prop :=
  exists f local,
    funcs_entry_by_id db fid = Ok f /\
    for_each (PointerBoundsPass.scan_call db id_to_name wfuel f)
             (PointerBoundsPass.call_indexes id_to_name f) ∅ = Ok local /\
    local !! k = Some S.

(** The pair [mb], recorded under [k], is made of the last member index of
    two member derefs of one function whose last parent type is [k], and
    the entry of [k] is not a union record. *)
Definition bound_ok (k : Z) (mb : MemberBounds) : Prop :=
  type_id mb = k /\
  (exists anchor_record,
     types_entry_by_id db k = Ok anchor_record /\
     ~ (t_class anchor_record = "record" /\ t_union anchor_record = true)) /\
  exists f binding_deref bound_deref,
    f ∈ db_funcs db /\
    binding_deref ∈ f_derefs f /\ bound_deref ∈ f_derefs f /\
    d_kind binding_deref = "member" /\ d_kind bound_deref = "member" /\
    py_index (d_type binding_deref) (-1) = Ok k /\
    py_index (d_type bound_deref) (-1) = Ok k /\
    py_index (d_member binding_deref) (-1) = Ok (binding_member mb) /\
    py_index (d_member bound_deref) (-1) = Ok (bound_member mb).

Definition bounds_ok (res : gmap Z (list MemberBounds)) : Prop :=
  forall k S mb, res !! k = Some S -> mb ∈ S -> bound_ok k mb.

(** The first offset of a deref is of kind [member]. *)
Definition first_offset_is_member (d : ftdb_deref) : bool :=
  match d_offsetrefs d with
  | o :: _ => bool_decide (or_kind o = "member")
  | [] => false
  end.

(** The binding models of the call site [call_index] of [f], as the loop
    over [call_indexes] looks them up. *)
Definition models_at (f : ftdb_func) (call_index : nat) : result (list (Z * Z)) :=
  callee ← py_index (f_calls f) (Z.of_nat call_index);
  fname ← dict_get callee id_to_name;
  dict_get fname PointerBoundsPass.BINDING_CALLS.

(** The derefs of the two arguments of the call site [call_index] of [f]
    that the binding model [model] names, the binding one first. *)
Definition model_derefs (f : ftdb_func) (call_index : nat) (model : Z * Z)
  : result (ftdb_deref * ftdb_deref) :=
  info ← py_index (f_call_info f) (Z.of_nat call_index);
  a ← py_index (ci_args info) model.1;
  binding_deref ← py_index (f_derefs f) a;
  a ← py_index (ci_args info) model.2;
  bound_deref ← py_index (f_derefs f) a;
  Ok (binding_deref, bound_deref).

(** The walks to member derefs that [analyze_bounds] starts end within
    [wfuel] rounds: those from the derefs of the two arguments that a binding
    model names at a call of a user-copy function, in any function of the
    database, when the first offset of both is a member. *)
Definition copy_walks_return (wfuel : nat) : bool :=
  forallb (fun f =>
             forallb (fun call_index =>
                        match models_at f call_index with
                        | Ok models =>
                            forallb (fun model =>
                                       match model_derefs f call_index model with
                                       | Ok (b, d) =>
                                           negb (first_offset_is_member b
                                                 && first_offset_is_member d)
                                           || returns (PointerBoundsPass.walk_to_members
                                                         wfuel (f_derefs f) b d)
                                       | _ => true
                                       end)
                                    models
                        | _ => true
                        end)
                     (PointerBoundsPass.call_indexes id_to_name f))
          (db_funcs db).

(** What an invocation of [analyze_bounds] that returns without going past
    its guards logs, and what one that goes past them logs first. *)
Definition quiet (chain : list Z) (depth : Z) : invocation :=
  {| inv_chain := chain; inv_depth := depth; inv_expanded := false |}.

Definition expanded (chain : list Z) (depth : Z) : invocation :=
  {| inv_chain := chain; inv_depth := depth; inv_expanded := true |}.
End BoundsVocabulary.

(** The depth of every invocation is at most [cap + 1], and at most [cap]
    for those that went past their guards. *)
Definition depth_capped (cap : Z) (log : list invocation) : Prop :=
  Forall (fun inv => inv_depth inv <= cap + 1 /\
                     (inv_expanded inv = true -> inv_depth inv <= cap)) log.

(** A declaration that is not a [LengthDeclaration]. *)
Definition not_a_length (d : declaration) : Prop :=
  forall a T, d <> LengthDeclaration a T.

(** The fields are called [names], and each of them that is declared as a
    length [len[a, T]] sits at the position that the binding member of a pair
    of [S] indexes, [a] being the name at the position that the bound member
    of the pair indexes. *)
Definition lengths_from (names : list string) (S : list MemberBounds)
    (fields : list RecordField) : Prop :=
  map field_name fields = names /\
  forall i fld a T,
    fields !! i = Some fld ->
    type_decl fld = LengthDeclaration a T ->
    exists mb, mb ∈ S /\
               py_index (seq 0 (length names)) (binding_member mb) = Ok i /\
               py_index names (bound_member mb) = Ok a.

(** The entries of [cycles]: each of them is under a key outside [traversed]
    and names a target other than its key. *)
Definition fresh_keys (traversed : list Z) (cycles : gmap Z (list PointerCycle)) : Prop :=
  forall k l pc, cycles !! k = Some l -> pc ∈ l -> (k ∉ traversed) /\ cycled_id pc <> k.

(** ** Vocabulary of the further properties *)

(** One hop of a typedef chain: [a] is a typedef whose first reference is
    [b]. *)
Inductive typedef_hop (db : ftdb) (a b : Z) : Prop :=
| typedef_hop_ref (t : ftdb_type) :
    types_entry_by_id db a = Ok t ->
    t_class t = "typedef" ->
    py_index (t_refs t) 0 = Ok b ->
    typedef_hop db a b.

(** One hop of a chain of typedefs and pointers. *)
Inductive indirection_hop (db : ftdb) (a b : Z) : Prop :=
| indirection_hop_ref (t : ftdb_type) :
    types_entry_by_id db a = Ok t ->
    t_class t ∈ ["pointer"; "typedef"] ->
    py_index (t_refs t) 0 = Ok b ->
    indirection_hop db a b.

(** [d] is the id of an entry that is neither a pointer nor a typedef. *)
Definition direct (db : ftdb) (d : Z) : Prop :=
  exists t, types_entry_by_id db d = Ok t /\ t_class t ∉ ["pointer"; "typedef"].

(** The entry [pc], recorded under the type id [k]: [k] is a record, the
    field at the position of the entry is a pointer, and the target of the
    entry is what that pointer leads to in the end. *)
Definition cycle_entry_ok (db : ftdb) (k : Z) (pc : PointerCycle) : Prop :=
  exists t i ref ref_type fuel,
    types_entry_by_id db k = Ok t /\ t_class t = "record" /\
    member_position pc = Z.of_nat i /\ t_refs t !! i = Some ref /\
    types_entry_by_id db ref = Ok ref_type /\ t_class ref_type = "pointer" /\
    TypeAnalysisPass.dereference db fuel ref = Ok (cycled_id pc).

(** Typedefs [4 -> 2 -> 1] down to [struct s { int x; }], and a pointer, 5,
    to the outer typedef. *)
Definition alias_db : ftdb :=
  {| db_types := [ {| t_id := 1; t_str := "s"; t_class := "record"; t_size := 32;
                      t_refs := [3]; t_refnames := ["x"]; t_values := [];
                      t_union := false |};
                   {| t_id := 2; t_str := "s_t"; t_class := "typedef"; t_size := 32;
                      t_refs := [1]; t_refnames := []; t_values := [];
                      t_union := false |};
                   {| t_id := 3; t_str := "int"; t_class := "builtin"; t_size := 32;
                      t_refs := []; t_refnames := []; t_values := [];
                      t_union := false |};
                   {| t_id := 4; t_str := "s_tt"; t_class := "typedef"; t_size := 32;
                      t_refs := [2]; t_refnames := []; t_values := [];
                      t_union := false |};
                   {| t_id := 5; t_str := ""; t_class := "pointer"; t_size := 64;
                      t_refs := [4]; t_refnames := []; t_values := [];
                      t_union := false |} ];
     db_funcs := []; db_globals := []; db_fops := [] |}.

(** [k] underscores: what [k] rounds of [name += '_'] append. *)
Fixpoint underscores (k : nat) : string :=
  match k with
  | O => ""
  | S k => String (Ascii.ascii_of_nat 95) (underscores k)
  end.

(** The command [c'] is the command [c] under a label that is the label of
    [c] followed by [k] underscores. *)
Definition renamed_by (k : nat) (c c' : command) : Prop :=
  c'.1.1 = c.1.1 +:+ underscores k /\ c'.1.2 = c.1.2 /\ c'.2 = c.2.

(** The lines of a constants file for [cmds], one after the other. *)
Definition const_lines (cmds : list command) : string :=
  foldr (fun (c : command) rest => ConstantDefinition_str c.1.1 (IntValue c.1.2) +:+ rest)
        "" cmds.

(** The body of the loop [for el in to_remove] of
    [__rename_already_used_consts]. *)
Definition rename_step (g : Generator.t) (commands : list command) (el : command)
  : result (list command) :=
  new_name ← Generator.find_new_const_name g el.1.1;
  Ok (set_add (new_name, el.1.2, el.2) (set_remove el commands)).

(** A declaration as [__generate_type_declaration] builds them: every array
    in it has at least one element, no pointer in it is optional, the flags
    of an enum are laid out as [int32], and nothing in it is a length. *)
Fixpoint plain (d : declaration) : Prop :=
  match d with
  | ArrayDeclaration inside size => 1 <= size /\ plain inside
  | PointerDeclaration inside optional => optional = false /\ plain inside
  | EnumDeclaration _ inside => inside = IntegerDeclaration 32
  | LengthDeclaration _ _ => False
  | _ => True
  end.

(** The names given to one type id, in the order they were given: a name,
    then the same name with one more underscore each time. *)
Definition name_chain (names : list string) : Prop :=
  exists n, forall i nm, names !! i = Some nm -> nm = n +:+ underscores i.

Definition names_chained (g : Generator.t) : Prop :=
  forall id names, Generator.generated_types g !! id = Some names -> name_chain names.

(** The two files of a handler called [fop_name]. *)
Definition const_path (drv : GenerationDriver.t) (fop_name : string) : string :=
  GenerationDriver.path_join (GenerationDriver.output_path drv)
    (fop_name +:+ "_" +:+ GenerationDriver.architecture drv +:+ ".const").

Definition desc_path (drv : GenerationDriver.t) (fop_name : string) : string :=
  GenerationDriver.path_join (GenerationDriver.output_path drv) (fop_name +:+ ".txt").

(** The drivers differ in their generator and their files at most. *)
Definition same_setup (drv drv' : GenerationDriver.t) : Prop :=
  GenerationDriver.collector drv' = GenerationDriver.collector drv /\
  GenerationDriver.passes drv' = GenerationDriver.passes drv /\
  GenerationDriver.output_path drv' = GenerationDriver.output_path drv /\
  GenerationDriver.architecture drv' = GenerationDriver.architecture drv.

(** The files of [drv'] are those of [drv] and the two files of [fop_name],
    neither of which [drv] had. *)
Definition adds_two_files (drv drv' : GenerationDriver.t) (fop_name : string) : Prop :=
  GenerationDriver.files drv !! const_path drv fop_name = None /\
  GenerationDriver.files drv !! desc_path drv fop_name = None /\
  const_path drv fop_name <> desc_path drv fop_name /\
  exists consts description,
    GenerationDriver.files drv'
    = <[desc_path drv fop_name := description]>
        (<[const_path drv fop_name := consts]> (GenerationDriver.files drv)).

(** The function [fa.1] has a switch on its local of index [fa.2]. *)
Definition switched_on (db : ftdb) (fa : Z * Z) : Prop :=
  exists f l,
    funcs_entry_by_id db fa.1 = Ok f /\ py_index (f_locals f) fa.2 = Ok l /\
    filter (fun switch => sw_condition switch = l_name l) (f_switches f) <> [].

(** The cases of the switches of the function [fa.1] on its local of
    index [fa.2], in their order. *)
Definition cases_on (db : ftdb) (fa : Z * Z) : list ftdb_case :=
  match funcs_entry_by_id db fa.1 with
  | Ok f =>
      match py_index (f_locals f) fa.2 with
      | Ok l =>
          concat (map sw_cases
                      (filter (fun switch => sw_condition switch = l_name l) (f_switches f)))
      | _ => []
      end
  | _ => []
  end.

(** The command [c] is read off a case of a switch on a local of a function
    of the database: its label and its value are those of the case, and its
    type is an entry that is not a forward declaration, has a non-zero id
    and is called as the operand of the [sizeof] in the expanded case,
    stripped, is. *)
Definition harvested (db : ftdb) (c : command) : Prop :=
  exists f l switch case type_name t,
    f ∈ db_funcs db /\ l ∈ f_locals f /\ switch ∈ f_switches f /\
    sw_condition switch = l_name l /\ case ∈ sw_cases switch /\
    search_sizeof (case_3 case) = Some type_name /\
    t ∈ db_types db /\ t_str t = (IoctlAnalysisPass.strip_type type_name).1 /\
    (t_class t ∉ IoctlAnalysisPass.FORWARD_DECLARED_TYPES) /\ t_id t <> 0 /\
    c = (case_2 case, case_0 case, t_id t).

(** Every character of [g] is of the class of the [sizeof] pattern. *)
Fixpoint all_class (g : string) : bool :=
  match g with
  | EmptyString => true
  | String c g' => sizeof_class c && all_class g'
  end.

(** The pattern [sizeof\(([a-zA-Z0-9\s_\-$\[\]\*]+)\)] matches [s] after the
    text [pre], with the group [g], and [post] is what follows the match. *)
Definition sizeof_match (s pre g post : string) : Prop :=
  s = pre +:+ "sizeof(" +:+ g +:+ ")" +:+ post /\ g <> "" /\ all_class g = true.

(** A computation that returns normally. *)
Definition succeeds {A : Type} (r : result A) : bool :=
  match r with
  | Ok _ => true
  | _ => false
  end.

(** Every reference of every type entry leads, through at most [T]
    typedefs, to an entry that is not a typedef. *)
Definition refs_resolve (db : ftdb) (T : nat) : bool :=
  forallb (fun t => forallb (fun r => succeeds (TypeAnalysisPass.detypedef db T r))
                            (t_refs t))
          (db_types db).

(** The number of type entries whose id is not in [found]. *)
Definition unvisited (db : ftdb) (found : list Z) : nat :=
  length (filter (fun i => i ∉ found) (map t_id (db_types db))).

(** Every reference of every type entry leads, through at most [T] pointers
    and typedefs, to an entry that is neither. *)
Definition refs_dereference (db : ftdb) (T : nat) : bool :=
  forallb (fun t => forallb (fun r => succeeds (TypeAnalysisPass.dereference db T r))
                            (t_refs t))
          (db_types db).

(** The fields that are declared as optional pointers sit at the positions
    that the entries of [C] index. *)
Definition optional_from (C : list PointerCycle) (fields : list RecordField) : Prop :=
  forall i fld inside,
    fields !! i = Some fld ->
    type_decl fld = PointerDeclaration inside true ->
    exists pc, pc ∈ C /\ py_index (seq 0 (length fields)) (member_position pc) = Ok i.

(** The field at the position [pos] exists and, if it is declared as a
    pointer, is optional. *)
Definition marked (fields : list RecordField) (pos : Z) : Prop :=
  exists fld, py_index fields pos = Ok fld /\
              forall inside b, type_decl fld = PointerDeclaration inside b -> b = true.

(** The character [c] does not occur in [s]. *)
Fixpoint lacks (c : Ascii.ascii) (s : string) : bool :=
  match s with
  | EmptyString => true
  | String x s' => negb (bool_decide (x = c)) && lacks c s'
  end.

(** The entry for [k] after the dictionaries [subs] have been merged, one
    after the other, into a dictionary whose entry for [k] is [own]: that
    of the last of [subs] that has one. *)
Definition last_entry {V : Type} (k : Z) (subs : list (gmap Z V)) (own : option V)
  : option V :=
  fold_left (fun acc (s : gmap Z V) => match s !! k with Some v => Some v | None => acc end)
            subs own.

(** The function [f] makes a call of [cand.1] to which it passes its own
    command parameter, at the position [cand.2], and its own argument
    parameter. *)
Definition passes_on (db : ftdb) (f : Z) (cand : Z * Z) : Prop :=
  exists fn i callref cmd arg,
    funcs_entry_by_id db f = Ok fn /\
    f_callrefs fn !! i = Some callref /\ f_calls fn !! i = Some cand.1 /\
    cmd ∈ callref /\ (cr_type cmd, cr_id cmd) = IoctlAnalysisPass.IOCTL_COMMAND_ARG /\
    cr_pos cmd = cand.2 /\
    arg ∈ callref /\ (cr_type arg, cr_id arg) = IoctlAnalysisPass.IOCTL_ARGUMENT_ARG.

(** One step of the search for the function that has the switch: from a
    function and the index of one of its locals to a callee and the
    position of the command in the call. *)
Definition forwards (db : ftdb) (fa cand : Z * Z) : Prop := passes_on db fa.1 cand.

(** * Example databases *)

Definition mk_type (id : Z) (str class : string) (size : Z) (refs : list Z)
    (refnames : list string) (union : bool) : ftdb_type :=
  {| t_id := id; t_str := str; t_class := class; t_size := size; t_refs := refs;
     t_refnames := refnames; t_values := []; t_union := union |}.

Definition mk_func (id : Z) (name : string) (locals : list string)
    (switches : list ftdb_switch) (callrefs : list (list ftdb_callref)) (calls : list Z)
    (call_info : list (list Z)) (derefs : list ftdb_deref) : ftdb_func :=
  {| f_id := id; f_name := name; f_locals := map Build_ftdb_local locals;
     f_switches := switches; f_callrefs := callrefs; f_calls := calls;
     f_call_info := map Build_ftdb_call_info call_info; f_derefs := derefs |}.

(** A driver whose ioctl handler, function 42, switches on its command; the
    one case is [NODE_CMD], an [_IOWR] of
    [struct node { struct node *next; int x; };]. *)
Definition node_db : ftdb :=
  {| db_types := [ mk_type 1 "node" "record" 128 [2; 3] ["next"; "x"] false;
                   mk_type 2 "" "pointer" 64 [1] [] false;
                   mk_type 3 "int" "builtin" 32 [] [] false;
                   mk_type 10 "file_operations" "record" 64 [] [] false ];
     db_funcs := [ mk_func 42 "node_ioctl" ["file"; "cmd"; "arg"]
                     [ {| sw_condition := "cmd";
                          sw_cases := [ {| case_0 := 1; case_1 := 1; case_2 := "NODE_CMD";
                                           case_3 := "_IOWR('n', 1, sizeof(struct node))" |} ] |} ]
                     [] [] [] [] ];
     db_globals := []; db_fops := [] |}.

(** The handler record of that driver as [collect_fops] would build it, and
    as [IoctlAnalysisPass] leaves it. *)
Definition node_handler : Fops := Fops_init "my_fops" 42.

Definition node_fop : Fops := set_commands node_handler [("NODE_CMD", 1, 1)].

(** The description file that the generator writes for [node_handler]. *)
Definition node_description : string :=
  "# Generated by syzdescriptor on 2024-01-01" +:+ nl
  +:+ "# Path constant is: SYZDESCRIPTOR_PATH_42" +:+ nl
  +:+ "# Anchor function ID is: 42" +:+ nl
  +:+ "include <linux/ioctl.h>" +:+ nl
  +:+ "include <linux/types.h>" +:+ nl
  +:+ nl
  +:+ "resource fd_my_fops[fd]" +:+ nl
  +:+ nl
  +:+ "openat$my_fops_syzdescriptor(fd const[AT_FDCWD], file ptr[in, "
  +:+ "string[SYZDESCRIPTOR_PATH_42_syzdescriptor]], flags flags[open_flags], "
  +:+ "mode const[0]) fd_my_fops" +:+ nl
  +:+ nl
  +:+ "ioctl$NODE_CMD_syzdescriptor(fd fd_my_fops, cmd const[NODE_CMD_syzdescriptor], "
  +:+ "arg ptr[inout, node])" +:+ nl
  +:+ nl
  +:+ nl
  +:+ "node {" +:+ nl
  +:+ tab +:+ "next ptr[inout, node]" +:+ nl
  +:+ tab +:+ "x int32" +:+ nl
  +:+ "}" +:+ nl
  +:+ nl.

(** The passes of the driver on [node_db], and the file at [path] after the
    driver, started on an empty directory [out], has dealt with
    [node_handler]. *)
Definition node_passes : list (GenerationDriver.pass * bool) :=
  [ (GenerationDriver.IoctlAnalysisPass, true);
    (GenerationDriver.TypeAnalysisPass, true);
    (GenerationDriver.PointerCyclesPass, false);
    (GenerationDriver.PointerBoundsPass (PointerBoundsPass.init_id_to_name node_db), false) ].

Definition node_output (path : string) : result (option string) :=
  drv ← GenerationDriver.init node_db "out" "arm64" ∅;
  drv ← GenerationDriver.generate_description node_db id 8 8 "2024-01-01" drv node_handler;
  Ok (GenerationDriver.files drv !! path).


(** Three records that point at each other:
    [struct a { struct b *b; }], [struct b { struct a *a; struct c *c; }],
    [struct c { struct b *b; }]; the pointer types are 11 (to [b]), 12 (to
    [a]) and 13 (to [c]). *)
Definition ring_db : ftdb :=
  {| db_types := [ mk_type 1 "a" "record" 64 [11] ["b"] false;
                   mk_type 2 "b" "record" 128 [12; 13] ["a"; "c"] false;
                   mk_type 3 "c" "record" 64 [11] ["b"] false;
                   mk_type 11 "" "pointer" 64 [2] [] false;
                   mk_type 12 "" "pointer" 64 [1] [] false;
                   mk_type 13 "" "pointer" 64 [3] [] false ];
     db_funcs := []; db_globals := []; db_fops := [] |}.

Definition get_a : command := ("GET_A", 1, 1).
Definition get_c : command := ("GET_C", 2, 3).

(** A handler with the roots [a] and [c], iterated in that order. *)
Definition ring_fop : Fops := set_commands (Fops_init "ring_fops" 5) [get_a; get_c].

(** Two records, [struct a { int x; }] and [struct b { int y; }], and a
    handler record that depends on both. *)
Definition pair_db : ftdb :=
  {| db_types := [ mk_type 1 "a" "record" 32 [3] ["x"] false;
                   mk_type 2 "b" "record" 32 [3] ["y"] false;
                   mk_type 3 "int" "builtin" 32 [] [] false ];
     db_funcs := []; db_globals := []; db_fops := [] |}.

Definition pair_fop : Fops :=
  set_pointer_bounds
    (set_pointer_cycles (set_deps (set_commands (Fops_init "pair_fops" 9) []) [1; 2]) ∅) ∅.

Definition pair_header : string :=
  Generator.generate_header "2024-01-01" "fd_pair_fops" "SYZDESCRIPTOR_PATH_9" 9
  +:+ OpenDeclaration_str "pair_fops" "SYZDESCRIPTOR_PATH_9" "fd_pair_fops" +:+ nl.

Definition pair_definition_a : string :=
  "a {" +:+ nl +:+ tab +:+ "x int32" +:+ nl +:+ "}" +:+ nl +:+ nl.

Definition pair_definition_b : string :=
  "b {" +:+ nl +:+ tab +:+ "y int32" +:+ nl +:+ "}" +:+ nl +:+ nl.

Definition mk_deref (kind : string) (offset_kind : string) (offset_id : Z)
    (type member : list Z) : ftdb_deref :=
  {| d_kind := kind; d_offsetrefs := [ {| or_kind := offset_kind; or_id := offset_id |} ];
     d_type := type; d_member := member |}.

(** A handler, function 7, that works on a local
    [struct req { u8 *buf; u32 len; } s] and calls the user-copy function
    with the deref ids [args], then calls itself with its own parameters.
    Its derefs are 0: [s.len], 1: [s.buf], 2: the expression of [s.len] as
    an argument, 3: the expression of [s.buf] as an argument, 4: a local
    destination buffer.  Function 1 is a wrapper that passes its parameters
    on to function 7 and does nothing else. *)
Definition req_db (args : list Z) : ftdb :=
  {| db_types := [ mk_type 5 "req" "record" 128 [6; 7] ["buf"; "len"] false;
                   mk_type 6 "" "pointer" 64 [8] [] false;
                   mk_type 7 "unsigned int" "builtin" 32 [] [] false;
                   mk_type 8 "unsigned char" "builtin" 8 [] [] false ];
     db_funcs := [ mk_func 7 "req_ioctl" ["file"; "cmd"; "arg"] []
                     [ [];
                       [ {| cr_type := "parm"; cr_id := 0; cr_pos := 0 |};
                         {| cr_type := "parm"; cr_id := 1; cr_pos := 1 |};
                         {| cr_type := "parm"; cr_id := 2; cr_pos := 2 |} ] ]
                     [100; 7]
                     [ args; [] ]
                     [ mk_deref "member" "local" 3 [5] [1];
                       mk_deref "member" "local" 3 [5] [0];
                       mk_deref "parm" "member" 0 [] [];
                       mk_deref "parm" "member" 1 [] [];
                       mk_deref "parm" "local" 4 [] [] ];
                   mk_func 100 "copy_from_user" ["to"; "from"; "n"] [] [] [] [] [];
                   mk_func 1 "wrap_ioctl" ["file"; "cmd"; "arg"] []
                     [ [ {| cr_type := "parm"; cr_id := 0; cr_pos := 0 |};
                         {| cr_type := "parm"; cr_id := 1; cr_pos := 1 |};
                         {| cr_type := "parm"; cr_id := 2; cr_pos := 2 |} ] ]
                     [7] [ [] ] [] ];
     db_globals := []; db_fops := [] |}.

(** [copy_from_user(dst, s.buf, s.len)] *)
Definition buf_len_db : ftdb := req_db [4; 3; 2].

(** [copy_from_user(dst, s.len, s.len)], the length cast to a pointer *)
Definition len_len_db : ftdb := req_db [4; 2; 2].

(** A handler whose call of the user-copy function has for arguments a deref
    that is not a member and whose first offset is a member, itself. *)
Definition looping_db : ftdb :=
  {| db_types := [];
     db_funcs := [ mk_func 7 "loop_ioctl" ["file"; "cmd"; "arg"] [] [ [] ] [100]
                     [ [0; 0; 0] ]
                     [ mk_deref "array" "member" 0 [] [] ];
                   mk_func 100 "copy_from_user" ["to"; "from"; "n"] [] [] [] [] [] ];
     db_globals := []; db_fops := [] |}.

(** The [id_to_name] table of [PointerBoundsPass] on these databases. *)
Definition copy_ids : list (Z * string) := [(100, "copy_from_user")].

(** The bounds that [analyze_bounds] returns on [len_len_db], a generator
    that holds them and has named the record, and the definition it
    generates for the record. *)
Definition len_len_bounds : gmap Z (list MemberBounds) :=
  {[ 5 := [ {| type_id := 5; binding_member := 1; bound_member := 1 |} ] ]}.

Definition len_len_generator : Generator.t :=
  Generator.set_analysis
    (Generator.set_generated_types Generator.init {[ 5 := ["req"] ]})
    (Some len_len_bounds) (Some ∅).

Definition len_len_definition : string :=
  "req {" +:+ nl
  +:+ tab +:+ "buf ptr[inout, int8]" +:+ nl
  +:+ tab +:+ "len len[len, int32]" +:+ nl
  +:+ "}" +:+ nl +:+ nl.

(** The same for [buf_len_db]. *)
Definition buf_len_bounds : gmap Z (list MemberBounds) :=
  {[ 5 := [ {| type_id := 5; binding_member := 1; bound_member := 0 |} ] ]}.

(** A handler two of whose commands carry the label [FOO]. *)
Definition foo_fop (cmds : list command) : Fops :=
  set_commands (Fops_init "foo_fops" 7) cmds.

Definition foo_1 : command := ("FOO", 1, 10).
Definition foo_2 : command := ("FOO", 2, 11).

(** A generator that has written the constants of a handler whose one
    command is [FOO], and a later handler with the labels [FOO] and [FOO_]. *)
Definition foo_generator : result Generator.t :=
  (fun r => r.1.2) <$> Generator.generate_const_file Generator.init (foo_fop [foo_1]).

Definition foo_later : list command := [("FOO", 2, 11); ("FOO_", 3, 12)].

(** A generator that has registered the constant [FOO], the commands of a
    later handler after the rename, and the generator after their file is
    written. *)
Definition foo_taken : Generator.t :=
  Generator.set_generated_consts Generator.init {[ "FOO" := IntValue 1 ]}.

Definition bar_foo_written : list command := [("BAR", 3, 12); ("FOO_", 2, 11)].

Definition foo_taken_after : Generator.t :=
  Generator.set_generated_consts Generator.init
    (<["FOO_" := IntValue 2]> (<["BAR" := IntValue 3]> {[ "FOO" := IntValue 1 ]})).

(** [typedef int flex_t[];] with a pointer to it: the array entry has the
    size 0. *)
Definition flex_db : ftdb :=
  {| db_types := [ mk_type 1 "int []" "incomplete_array" 0 [2] [] false;
                   mk_type 2 "int" "builtin" 32 [] [] false;
                   mk_type 3 "flex_t" "typedef" 0 [1] [] false;
                   mk_type 4 "flex_t *" "pointer" 64 [3] [] false ];
     db_funcs := []; db_globals := []; db_fops := [] |}.

(** A generator that has described a handler of the syscall 9 before, and
    the generator after it has described [pair_fop] as well. *)
Definition pair_second : Generator.t :=
  Generator.set_generated_consts Generator.init {[ "SYZDESCRIPTOR_PATH_9" := StrValue "" ]}.

Definition pair_second_after : Generator.t :=
  Generator.set_generated_types
    (Generator.set_generated_consts Generator.init
       (<["SYZDESCRIPTOR_PATH_9_" := StrValue ""]>
          {[ "SYZDESCRIPTOR_PATH_9" := StrValue "" ]}))
    (<[2 := ["b"]]> {[ 1 := ["a"] ]}).

(** The driver for [node_db] with an empty output directory [out], and the
    driver after it has dealt with [node_handler]. *)
Definition node_driver : GenerationDriver.t :=
  {| GenerationDriver.collector :=
       {| FopsCollector.types :=
            [("file_operations", [mk_type 10 "file_operations" "record" 64 [] [] false])];
          FopsCollector.fields := {[ 10 := [] ]};
          FopsCollector.vars := [] |};
     GenerationDriver.generator := Generator.init;
     GenerationDriver.passes := node_passes;
     GenerationDriver.output_path := "out";
     GenerationDriver.architecture := "arm64";
     GenerationDriver.files := ∅ |}.

Definition node_driver_after : GenerationDriver.t :=
  GenerationDriver.with_output node_driver
    (Generator.set_generated_types
       (Generator.set_generated_consts Generator.init
          (<["SYZDESCRIPTOR_PATH_42" := StrValue ""]> {[ "NODE_CMD" := IntValue 1 ]}))
       {[ 1 := ["node"] ]})
    (<["out/my_fops.txt" := node_description]>
       {[ "out/my_fops_arm64.const" := "NODE_CMD_syzdescriptor = 1" +:+ nl ]}).

(** The handler of [buf_len_db], function 7. *)
Definition req_ioctl : ftdb_func :=
  List.hd (mk_func 0 "" [] [] [] [] [] []) (db_funcs buf_len_db).

(** A generator that has named the records of [ring_db] and holds the
    pointer cycles found from the root [a]. *)
Definition ring_generator : Generator.t :=
  Generator.set_analysis
    (Generator.set_generated_types Generator.init
       (<[1 := ["a"]]> (<[2 := ["b"]]> {[ 3 := ["c"] ]})))
    (Some ∅)
    (Some (<[3 := [{| cycled_id := 2; member_position := 0 |}]]>
             {[ 2 := [{| cycled_id := 1; member_position := 0 |}] ]})).

Definition ring_fields_b : list RecordField :=
  [ {| field_name := "a"; type_decl := PointerDeclaration (RecordDeclaration "a") true |};
    {| field_name := "c"; type_decl := PointerDeclaration (RecordDeclaration "c") false |} ].

(** The record of [node_handler] after the four passes. *)
Definition node_analyzed : Fops :=
  set_pointer_bounds (set_pointer_cycles (set_deps node_fop [1; 2]) ∅) ∅.

(** [node_db] with a wrapper, function 1, that passes its parameters on to
    the handler 42. *)
Definition wrapped_db : ftdb :=
  {| db_types := db_types node_db;
     db_funcs := db_funcs node_db
                 ++ [ mk_func 1 "wrap_ioctl" ["file"; "cmd"; "arg"] []
                        [ [ {| cr_type := "parm"; cr_id := 0; cr_pos := 0 |};
                            {| cr_type := "parm"; cr_id := 1; cr_pos := 1 |};
                            {| cr_type := "parm"; cr_id := 2; cr_pos := 2 |} ] ]
                        [42] [ [] ] [] ];
     db_globals := []; db_fops := [] |}.

(** In the analysis of [ring_db] from [a]: the cycles of [b] before the
    branch through its pointer to [c], and after it. *)
Definition ring_b_own : gmap Z (list PointerCycle) :=
  <[2 := [{| cycled_id := 1; member_position := 0 |}]]> ∅.

Definition ring_b_merged : gmap Z (list PointerCycle) :=
  <[3 := [{| cycled_id := 2; member_position := 0 |}]]> ring_b_own.

(** Three records that point at each other, the first one at both others:
    [struct a { struct b *first; struct c *second; }],
    [struct b { struct a *up; struct c *side; }],
    [struct c { struct a *up; struct b *side; }]; the pointer types are 11
    (to [b]), 12 (to [c]) and 13 (to [a]). *)
Definition fork_db : ftdb :=
  {| db_types := [ mk_type 1 "a" "record" 128 [11; 12] ["first"; "second"] false;
                   mk_type 2 "b" "record" 128 [13; 12] ["up"; "side"] false;
                   mk_type 3 "c" "record" 128 [13; 11] ["up"; "side"] false;
                   mk_type 11 "" "pointer" 64 [2] [] false;
                   mk_type 12 "" "pointer" 64 [3] [] false;
                   mk_type 13 "" "pointer" 64 [1] [] false ];
     db_funcs := []; db_globals := []; db_fops := [] |}.

(** What the branch of [a] through [first] returns: the cycles of [b] and,
    found below [b], those of [c]. *)
Definition fork_first : gmap Z (list PointerCycle) :=
  <[2 := [{| cycled_id := 1; member_position := 0 |}]]>
    (<[3 := [{| cycled_id := 1; member_position := 0 |};
             {| cycled_id := 2; member_position := 1 |}]]> ∅).

(** What the branch of [a] through [second] would return if it came first. *)
Definition fork_second_alone : gmap Z (list PointerCycle) :=
  <[3 := [{| cycled_id := 1; member_position := 0 |}]]>
    (<[2 := [{| cycled_id := 1; member_position := 0 |};
             {| cycled_id := 3; member_position := 1 |}]]> ∅).

(** * Properties *)

(** ** The result monad and the loops *)

Lemma bind_Ok {A B : Type} (m : result A) (f : A -> result B) (b : B) :
  m ≫= f = Ok b -> exists a, m = Ok a /\ f a = Ok b.
Proof. destruct m as [a| |]; simpl; [eauto | discriminate | discriminate]. Qed.

Lemma fmap_Ok {A B : Type} (m : result A) (f : A -> B) (b : B) :
  f <$> m = Ok b -> exists a, m = Ok a /\ b = f a.
Proof. destruct m as [a| |]; simpl; [| discriminate | discriminate]. intros [= <-]. eauto. Qed.

Lemma from_option_Ok {A : Type} (o : option A) (e : exn) (a : A) :
  from_option Ok (Raise e) o = Ok a -> o = Some a.
Proof. destruct o; simpl; congruence. Qed.

(** An invariant [I] that every round of a loop preserves holds when the
    loop returns. *)
Lemma for_each_invariant {A S : Type} (I : S -> Prop) (body : S -> A -> result S)
    (l : list A) :
  (forall s x s', x ∈ l -> I s -> body s x = Ok s' -> I s') ->
  forall s s', I s -> for_each body l s = Ok s' -> I s'.
Proof.
  induction l as [|x l IH]; intros Hstep s s' Hs Hrun; simpl in Hrun.
  - by injection Hrun as <-.
  - apply bind_Ok in Hrun as (s1 & Hbody & Hrest).
    eapply IH; [ | | exact Hrest].
    + intros ? ? ? Hin. apply Hstep. by right.
    + eapply Hstep; [ | exact Hs | exact Hbody]. by left.
Qed.

Lemma for_each_cons_Ok {A S : Type} (body : S -> A -> result S) (x : A) (l : list A)
    (s s' : S) :
  for_each body (x :: l) s = Ok s' ->
  exists s1, body s x = Ok s1 /\ for_each body l s1 = Ok s'.
Proof. simpl. apply bind_Ok. Qed.

Lemma map_each_Ok {A B : Type} (f : A -> result B) (l : list A) (ys : list B) :
  map_each f l = Ok ys -> Forall2 (fun x y => f x = Ok y) l ys.
Proof.
  revert ys. induction l as [|x l IH]; intros ys H; simpl in H.
  - injection H as <-. constructor.
  - apply bind_Ok in H as (y & Hy & H). apply bind_Ok in H as (ys' & Hys & H).
    injection H as <-. constructor; auto.
Qed.

Lemma filter_each_Ok {A : Type} (p : A -> result bool) (l l' : list A) :
  filter_each p l = Ok l' ->
  (forall x, x ∈ l -> exists b, p x = Ok b) /\
  (forall x, x ∈ l' <-> x ∈ l /\ p x = Ok true).
Proof.
  revert l'. induction l as [|x l IH]; intros l' H; simpl in H.
  - injection H as <-. split; [intros x Hx; inversion Hx | ].
    intros x. split; [intros Hx; inversion Hx | intros [Hx _]; inversion Hx].
  - apply bind_Ok in H as (b & Hb & H). apply bind_Ok in H as (ys & Hys & H).
    injection H as <-. destruct (IH _ Hys) as [IH1 IH2]. split.
    + intros y Hy. apply elem_of_cons in Hy as [-> | Hy]; eauto.
    + intros y. destruct b.
      * rewrite !elem_of_cons, IH2. split.
        -- intros [-> | [? ?]]; auto.
        -- intros [[-> | ?] ?]; auto.
      * rewrite elem_of_cons, IH2. split.
        -- intros [? ?]; auto.
        -- intros [[-> | ?] ?]; [congruence | auto].
Qed.

Lemma elem_of_set_add {A : Type} `{EqDecision A} (x y : A) (s : list A) :
  y ∈ set_add x s <-> y = x \/ y ∈ s.
Proof.
  unfold set_add. destruct (decide (x ∈ s)) as [Hin | Hnin].
  - split; [auto | intros [-> | ?]; auto].
  - rewrite elem_of_app, list_elem_of_singleton. tauto.
Qed.

(** ** Type entries and typedef chains *)

Section TypeFacts.
Context (db : ftdb).

Lemma types_entry_by_id_id (i : Z) (t : ftdb_type) :
  types_entry_by_id db i = Ok t -> t_id t = i.
Proof.
  unfold types_entry_by_id. intros H. apply from_option_Ok in H.
  apply find_some in H as [_ H]. by apply bool_decide_eq_true in H.
Qed.

Lemma types_entry_by_id_self (i : Z) (t : ftdb_type) :
  types_entry_by_id db i = Ok t -> types_entry_by_id db (t_id t) = Ok t.
Proof. intros H. by rewrite (types_entry_by_id_id _ _ H). Qed.

Lemma detypedef_loop_non_typedef (fuel : nat) (t : ftdb_type) (u : Z) :
  types_entry_by_id db (t_id t) = Ok t ->
  TypeAnalysisPass.detypedef_loop db fuel t = Ok u -> non_typedef db u.
Proof.
  revert t. induction fuel as [|n IH]; intros t Ht H; simpl in H.
  - destruct (decide (t_class t = "typedef")); [discriminate |].
    injection H as <-. by exists t.
  - destruct (decide (t_class t = "typedef")).
    + apply bind_Ok in H as (r & _ & H). apply bind_Ok in H as (t' & Ht' & H).
      eapply IH; [ | exact H]. by eapply types_entry_by_id_self.
    + injection H as <-. by exists t.
Qed.

Lemma detypedef_non_typedef (fuel : nat) (i u : Z) :
  TypeAnalysisPass.detypedef db fuel i = Ok u -> non_typedef db u.
Proof.
  unfold TypeAnalysisPass.detypedef. intros H.
  apply bind_Ok in H as (t & Ht & H).
  eapply detypedef_loop_non_typedef; [ | exact H]. by eapply types_entry_by_id_self.
Qed.

(** The result of [detypedef] does not depend on the fuel that was enough
    for it. *)
Lemma detypedef_loop_fuel (f1 f2 : nat) (t : ftdb_type) (u1 u2 : Z) :
  TypeAnalysisPass.detypedef_loop db f1 t = Ok u1 ->
  TypeAnalysisPass.detypedef_loop db f2 t = Ok u2 -> u1 = u2.
Proof.
  revert f2 t. induction f1 as [|n IH]; intros [|m] t H1 H2; simpl in H1, H2;
    destruct (decide (t_class t = "typedef")); try discriminate; try congruence.
  apply bind_Ok in H1 as (r1 & Hr1 & H1). apply bind_Ok in H1 as (t1 & Ht1 & H1).
  apply bind_Ok in H2 as (r2 & Hr2 & H2). apply bind_Ok in H2 as (t2 & Ht2 & H2).
  assert (r1 = r2) as -> by congruence. assert (t1 = t2) as -> by congruence.
  eapply IH; eauto.
Qed.

Lemma detypedef_fuel (f1 f2 : nat) (i u1 u2 : Z) :
  TypeAnalysisPass.detypedef db f1 i = Ok u1 ->
  TypeAnalysisPass.detypedef db f2 i = Ok u2 -> u1 = u2.
Proof.
  unfold TypeAnalysisPass.detypedef. intros H1 H2.
  apply bind_Ok in H1 as (t1 & Ht1 & H1). apply bind_Ok in H2 as (t2 & Ht2 & H2).
  assert (t1 = t2) as -> by congruence. eapply detypedef_loop_fuel; eauto.
Qed.

Lemma contains_fields_fuel (f1 f2 : nat) (i : Z) (b1 b2 : bool) :
  TypeAnalysisPass.contains_fields db f1 i = Ok b1 ->
  TypeAnalysisPass.contains_fields db f2 i = Ok b2 -> b1 = b2.
Proof.
  unfold TypeAnalysisPass.contains_fields. intros H1 H2.
  apply bind_Ok in H1 as (d1 & Hd1 & H1). apply bind_Ok in H1 as (t1 & Ht1 & H1).
  apply bind_Ok in H2 as (d2 & Hd2 & H2). apply bind_Ok in H2 as (t2 & Ht2 & H2).
  assert (d1 = d2) as -> by (eapply detypedef_fuel; eauto).
  assert (t1 = t2) as -> by congruence. congruence.
Qed.

Lemma refs_within_mono (S S' : list Z) (y : Z) :
  S ⊆ S' -> refs_within db S y -> refs_within db S' y.
Proof. intros Hsub H u Hu. apply Hsub. by apply H. Qed.

(** *** The depth-first search of [__find_unique_type_dependencies] *)

Lemma search_post_refl (found : list Z) : search_post db None found found.
Proof. split; [done | split; [auto | tauto]]. Qed.

Lemma find_unique_type_dependencies_rec_post (fuel : nat) (x : Z) (found found' : list Z) :
  TypeAnalysisPass.find_unique_type_dependencies_rec db fuel x found = Ok found' ->
  x ∈ found' /\ search_post db (Some x) found found'.
Proof.
  revert x found found'. induction fuel as [|n IH]; intros x found found' H;
    simpl in H; [discriminate |].
  destruct (decide (x ∈ found)) as [Hin | Hnin].
  { injection H as <-. split; [done |].
    destruct (search_post_refl found) as (? & ? & ?). split; [done | split; [auto | done]]. }
  apply bind_Ok in H as (t & Ht & H).
  assert (Hadd : forall y, y ∈ set_add x found <-> y = x \/ y ∈ found)
    by (intros; apply elem_of_set_add).
  destruct (decide (t_class t = "enum")) as [Henum | Hnenum].
  { injection H as <-. split; [apply Hadd; auto |]. split; [ | split].
    - intros y Hy. apply Hadd. auto.
    - intros y Hy. apply Hadd in Hy as [-> | Hy]; auto.
    - intros y Hy Hny u Hu. apply Hadd in Hy as [-> | Hy]; [ | done].
      destruct Hu as [t' r f Ht' Hne _ _]. congruence. }
  (* the loop over the references *)
  assert (Hloop : forall l S S',
    for_each (fun found ref =>
                d ← TypeAnalysisPass.detypedef db n ref;
                TypeAnalysisPass.find_unique_type_dependencies_rec db n d found) l S = Ok S' ->
    search_post db None S S' /\
    (forall r f u, r ∈ l -> TypeAnalysisPass.detypedef db f r = Ok u -> u ∈ S')).
  { clear H. induction l as [|r l IHl]; intros S S' Hrun; simpl in Hrun.
    - injection Hrun as <-. split; [apply search_post_refl |].
      intros r f u Hr. inversion Hr.
    - apply bind_Ok in Hrun as (S1 & Hbody & Hrest).
      apply bind_Ok in Hbody as (d & Hd & Hrec).
      apply IH in Hrec as [HdS1 Hpost1].
      apply IHl in Hrest as [Hpost2 Hrefs]. split.
      + destruct Hpost1 as (Hsub1 & Hnt1 & Hcl1), Hpost2 as (Hsub2 & Hnt2 & Hcl2).
        split; [by etrans | split].
        * intros y Hy. destruct (Hnt2 y Hy) as [Hy1 | [[=] | Hy1]]; auto.
          destruct (Hnt1 y Hy1) as [? | [[= ->] | ?]]; auto.
          right; right. by eapply detypedef_non_typedef.
        * intros y Hy Hny. destruct (decide (y ∈ S1)) as [Hy1 | Hy1]; [ | auto].
          eapply refs_within_mono; [exact Hsub2 | auto].
      + intros r' f u Hr' Hu. apply elem_of_cons in Hr' as [-> | Hr']; [ | eauto].
        assert (u = d) as -> by (eapply detypedef_fuel; eauto).
        destruct Hpost2 as (Hsub2 & _). by apply Hsub2. }
  apply Hloop in H as [(Hsub & Hnt & Hcl) Hrefs].
  assert (Hx : x ∈ found') by (apply Hsub, Hadd; auto).
  split; [done |]. split; [ | split].
  - intros y Hy. apply Hsub, Hadd. auto.
  - intros y Hy. destruct (Hnt y Hy) as [Hy1 | [[=] | Hy1]]; auto.
    apply Hadd in Hy1 as [-> | Hy1]; auto.
  - intros y Hy Hny. destruct (decide (y = x)) as [-> | Hne].
    + intros u [t' r f Ht' _ Hr Hu]. assert (t' = t) as -> by congruence. eauto.
    + apply Hcl; [done |]. rewrite Hadd. tauto.
Qed.

Lemma find_unique_type_dependencies_post (fuel : nat) (i : Z) (S : list Z) :
  TypeAnalysisPass.find_unique_type_dependencies db fuel i = Ok S ->
  forall y, y ∈ S -> non_typedef db y /\ refs_within db S y.
Proof.
  unfold TypeAnalysisPass.find_unique_type_dependencies. intros H.
  apply bind_Ok in H as (d & Hd & H).
  apply find_unique_type_dependencies_rec_post in H as (_ & _ & Hnt & Hcl).
  intros y Hy. split.
  - destruct (Hnt y Hy) as [Hy0 | [[= ->] | ?]]; [inversion Hy0 | | done].
    by eapply detypedef_non_typedef.
  - apply Hcl; [done |]. intros Hy0. inversion Hy0.
Qed.

Lemma refs_within_rtc (S : list Z) (d u : Z) :
  (forall y, y ∈ S -> refs_within db S y) ->
  rtc (field_dep db) d u -> d ∈ S -> u ∈ S.
Proof. intros Hcl Hrtc. induction Hrtc as [|a b c Hab _ IH]; [done |]. intros Ha. apply IH. by eapply Hcl. Qed.
End TypeFacts.

(** ** TypeAnalysisPass.process: the dependency set *)

Lemma elem_of_concat {A : Type} (x : A) (ls : list (list A)) :
  x ∈ concat ls <-> exists l, l ∈ ls /\ x ∈ l.
Proof.
  rewrite list_elem_of_In, in_concat. split; intros (l & H1 & H2); exists l.
  - by rewrite !list_elem_of_In.
  - by rewrite <- !list_elem_of_In.
Qed.

(** What [process] leaves in [deps]: the members of the searches from the
    command roots for which [contains_fields] holds. *)
Lemma process_deps (db : ftdb) (fuel : nat) (fops fops' : Fops) (b : bool) (ds : list Z) :
  TypeAnalysisPass.process db fuel fops = Ok (fops', b) ->
  deps fops' = Some ds ->
  forall d, d ∈ ds ->
    TypeAnalysisPass.contains_fields db fuel d = Ok true /\
    exists root S, TypeAnalysisPass.find_unique_type_dependencies db fuel root = Ok S /\
                   d ∈ S /\
                   forall u, u ∈ S -> has_fields db u -> u ∈ ds.
Proof.
  unfold TypeAnalysisPass.process. intros H Hds.
  destruct (commands fops) as [cmds|]; [ | discriminate].
  apply bind_Ok in H as (all & Hall & H). apply bind_Ok in H as (kept & Hkept & H).
  injection H as <- _. simpl in Hds. injection Hds as <-.
  apply map_each_Ok in Hall. apply filter_each_Ok in Hkept as [Hdef Hkept].
  intros d Hd. rewrite elem_of_remove_dups, Hkept in Hd. destruct Hd as [Hd Hcf].
  split; [done |].
  apply elem_of_concat in Hd as (S & HS & Hd).
  apply list_elem_of_lookup in HS as (i & Hi).
  destruct (Forall2_lookup_r _ _ _ _ _ Hall Hi) as (c & _ & Hc).
  exists c.2, S. split; [done | split; [done |]].
  intros u Hu (f & Hf). rewrite elem_of_remove_dups, Hkept.
  assert (Hin : u ∈ concat all).
  { apply elem_of_concat. exists S. split; [ | done]. apply list_elem_of_lookup. eauto. }
  split; [done |]. destruct (Hdef u Hin) as (b' & Hb').
  by rewrite (contains_fields_fuel db _ _ _ _ _ Hb' Hf) in Hb'.
Qed.

(** C1, as the claim states it, fails: for [struct node { struct node *next;
    int x; }] used as a command root, [process] returns with the id of the
    pointer type of [next] in [deps]. *)
Lemma deps_of_node_hold_a_pointer :
  TypeAnalysisPass.process node_db 8 node_fop = Ok (set_deps node_fop [1; 2], true) /\
  2 ∈ [1; 2] /\ ~ concrete node_db 2.
Proof.
  split; [reflexivity | split; [by right; left |]].
  intros (t & Ht & _ & Hp). vm_compute in Ht. injection Ht as <-. by apply Hp.
Qed.

(** C1, amended: after [TypeAnalysisPass.process] has run, every id in [deps]
    is the id of an entry that is not a typedef and that has at least one
    reference (pointer and array entries are among them), and [deps] is
    closed under field dependence: every type with references that is
    reached from a member of [deps] along references, typedefs followed and
    enums not entered, is in [deps]. *)
Theorem process_deps_non_typedef_closed (db : ftdb) (fuel : nat) (fops fops' : Fops)
    (b : bool) (ds : list Z) :
  TypeAnalysisPass.process db fuel fops = Ok (fops', b) ->
  deps fops' = Some ds ->
  (forall d, d ∈ ds -> non_typedef db d /\ has_fields db d) /\
  closed_under_field_dep db ds.
Proof.
  intros H Hds. split.
  - intros d Hd. destruct (process_deps _ _ _ _ _ _ H Hds d Hd) as (Hcf & root & S & HS & HdS & _).
    split; [ | by exists fuel].
    by apply (find_unique_type_dependencies_post db _ _ _ HS).
  - intros d u Hd Hrtc Hu.
    destruct (process_deps _ _ _ _ _ _ H Hds d Hd) as (_ & root & S & HS & HdS & Hback).
    apply Hback; [ | done].
    eapply refs_within_rtc; [ | exact Hrtc | exact HdS].
    intros y Hy. by apply (find_unique_type_dependencies_post db _ _ _ HS).
Qed.

Lemma process_deps_non_typedef_closed_witness :
  (forall d, d ∈ [1; 2] -> non_typedef node_db d /\ has_fields node_db d) /\
  closed_under_field_dep node_db [1; 2].
Proof.
  apply (process_deps_non_typedef_closed node_db 8 node_fop (set_deps node_fop [1; 2]) true);
    reflexivity.
Defined.

(** ** Pointer cycles of a self-referential record *)

(** C2: for [struct node { struct node *next; int x; }] as the root of the
    one command of a handler, the claim expects the entry
    [(target = node, field_index = 0)] under [node] and the field [next]
    rendered as [ptr[inout, node, opt]].  The code records no cycle at all
    for it ([node] enters [traversed] only after its own fields have been
    looked at), and the description file has [next ptr[inout, node]]. *)
Theorem node_next_is_not_marked_optional :
  PointerCyclesPass.analyze_pointer_cycles node_db 8 1 = Ok ∅ /\
  GenerationDriver.run_passes node_db 8 8 node_passes node_handler
  = Ok (Some (set_pointer_bounds (set_pointer_cycles (set_deps node_fop [1; 2]) ∅) ∅)) /\
  node_output "out/my_fops.txt" = Ok (Some node_description).
Proof. split; [ | split]; vm_compute; reflexivity. Qed.

(** ** Names of the constants *)

(** C3: two commands of one handler with the label [FOO].  The claim expects
    the constants [FOO_syzdescriptor] and [FOO__syzdescriptor]; the code
    renames only the labels that an earlier call already registered, and
    writes [FOO_syzdescriptor] twice, in whichever order the set yields the
    two commands. *)
Theorem same_label_in_one_handler_is_written_twice :
  (fun r => r.1.1) <$> Generator.generate_const_file Generator.init (foo_fop [foo_1; foo_2])
  = Ok ("FOO_syzdescriptor = 1" +:+ nl +:+ "FOO_syzdescriptor = 2" +:+ nl) /\
  (fun r => r.1.1) <$> Generator.generate_const_file Generator.init (foo_fop [foo_2; foo_1])
  = Ok ("FOO_syzdescriptor = 2" +:+ nl +:+ "FOO_syzdescriptor = 1" +:+ nl).
Proof. split; vm_compute; reflexivity. Qed.

(** The same happens between calls when the new name of a renamed label is
    a label of its own handler: after [FOO] has been written for one
    handler, a handler with the labels [FOO] and [FOO_] gets [FOO] renamed
    to [FOO_] and [FOO__syzdescriptor] written twice. *)
Example renamed_label_meets_a_label_of_its_handler :
  foo_generator ≫= (fun g => (fun r => r.1.1) <$>
                       Generator.generate_const_file g (foo_fop foo_later))
  = Ok ("FOO__syzdescriptor = 3" +:+ nl +:+ "FOO__syzdescriptor = 2" +:+ nl).
Proof. vm_compute. reflexivity. Qed.

(** ** The status of IoctlAnalysisPass and the driver *)



(** ** The constructor of FopsCollector *)



(** ** Merging the pointer cycles of several roots *)

Lemma for_each_app {A S : Type} (body : S -> A -> result S) (l1 l2 : list A) (s : S) :
  for_each body (l1 ++ l2) s = for_each body l1 s ≫= for_each body l2.
Proof.
  revert s. induction l1 as [|x l1 IH]; intros s; simpl; [done |].
  destruct (body s x) as [s'| |]; simpl; [apply IH | done | done].
Qed.

Lemma dict_spread_lookup {K V : Type} `{Countable K} (a b : gmap K V) (k : K) :
  dict_spread a b !! k = match b !! k with Some v => Some v | None => a !! k end.
Proof.
  unfold dict_spread. rewrite lookup_union.
  destruct (b !! k), (a !! k); reflexivity.
Qed.

Section CyclesMerge.
Context (db : ftdb) (fuel : nat).

Lemma merge_root_lookup (acc acc' : gmap Z (list PointerCycle)) (c : command) (k : Z) :
  PointerCyclesPass.merge_root db fuel acc c = Ok acc' ->
  exists m, PointerCyclesPass.analyze_pointer_cycles db fuel c.2 = Ok m /\
            acc' !! k = match m !! k with Some l => Some l | None => acc !! k end.
Proof.
  unfold PointerCyclesPass.merge_root. intros H.
  apply bind_Ok in H as (m & Hm & H). injection H as <-.
  exists m. split; [done | apply dict_spread_lookup].
Qed.

Lemma merge_roots_silent (post : list command) (acc acc' : gmap Z (list PointerCycle))
    (k : Z) :
  (forall c m, c ∈ post ->
     PointerCyclesPass.analyze_pointer_cycles db fuel c.2 = Ok m -> m !! k = None) ->
  for_each (PointerCyclesPass.merge_root db fuel) post acc = Ok acc' ->
  acc' !! k = acc !! k.
Proof.
  revert acc. induction post as [|c post IH]; intros acc Hnone H; simpl in H.
  - by injection H as <-.
  - apply bind_Ok in H as (acc1 & Hc & H).
    destruct (merge_root_lookup _ _ _ k Hc) as (m & Hm & Hk).
    rewrite (Hnone c m) in Hk; [ | by left | done].
    rewrite <- Hk. apply IH; [ | done]. intros c' m' Hc'. apply Hnone. by right.
Qed.
End CyclesMerge.

(** *** What one analysis records, and under which keys *)

Section CyclesKeys.
Context (db : ftdb).

Lemma record_cycle_targets (n : nat) (x : Z) (traversed : list Z)
    (cycles cycles' : gmap Z (list PointerCycle)) (field : nat * Z) :
  (forall k l pc, cycles !! k = Some l -> pc ∈ l -> k = x /\ cycled_id pc ∈ traversed) ->
  PointerCyclesPass.record_cycle db n x traversed cycles field = Ok cycles' ->
  forall k l pc, cycles' !! k = Some l -> pc ∈ l -> k = x /\ cycled_id pc ∈ traversed.
Proof.
  intros Hold H. unfold PointerCyclesPass.record_cycle in H. destruct field as [i ref].
  apply bind_Ok in H as (ref_type & _ & H).
  destruct (decide (t_class ref_type ≠ "pointer")); [by injection H as <- |].
  apply bind_Ok in H as (derefed & _ & H).
  destruct (decide (derefed ∈ traversed)) as [Hin |]; [ | by injection H as <-].
  intros k l pc Hk Hpc.
  destruct (cycles !! x) as [[|f fs]|] eqn:Hx; injection H as <-.
  - destruct (decide (k = x)) as [-> | Hne]; [ | rewrite lookup_insert_ne in Hk by done; eauto].
    rewrite lookup_insert_eq in Hk. injection Hk as <-.
    apply list_elem_of_singleton in Hpc. by subst pc.
  - destruct (decide (k = x)) as [-> | Hne]; [ | rewrite lookup_insert_ne in Hk by done; eauto].
    rewrite lookup_insert_eq in Hk. injection Hk as <-. split; [done |].
    change (pc ∈ (f :: fs) ++ [{| cycled_id := derefed; member_position := Z.of_nat i |}])
      in Hpc.
    apply elem_of_app in Hpc as [Hpc | Hpc]; [by eapply Hold |].
    apply list_elem_of_singleton in Hpc. by subst pc.
  - destruct (decide (k = x)) as [-> | Hne]; [ | rewrite lookup_insert_ne in Hk by done; eauto].
    rewrite lookup_insert_eq in Hk. injection Hk as <-.
    apply list_elem_of_singleton in Hpc. by subst pc.
Qed.

Lemma analyze_pointer_cycles_rec_keys (fuel : nat) (x : Z) (traversed traversed' : list Z)
    (res : gmap Z (list PointerCycle)) :
  PointerCyclesPass.analyze_pointer_cycles_rec db fuel x traversed = Ok (res, traversed') ->
  traversed ⊆ traversed' /\ fresh_keys traversed res.
Proof.
  revert x traversed traversed' res. induction fuel as [|n IH];
    intros x traversed traversed' res H; simpl in H; [discriminate |].
  assert (Hempty : fresh_keys traversed ∅)
    by (intros k l pc Hk; by rewrite lookup_empty in Hk).
  destruct (decide (x ∈ traversed)) as [| Hx]; [by injection H as <- <- |].
  apply bind_Ok in H as (t & _ & H).
  destruct (decide (t_class t ≠ "record")); [by injection H as <- <- |].
  apply bind_Ok in H as (own & Hown & H).
  assert (Hown' : fresh_keys traversed own).
  { assert (Hrec : forall k l pc, own !! k = Some l -> pc ∈ l ->
                                  k = x /\ cycled_id pc ∈ traversed).
    { revert Hown.
      apply (for_each_invariant
               (fun c : gmap Z (list PointerCycle) =>
                  forall k l pc, c !! k = Some l -> pc ∈ l ->
                                 k = x /\ cycled_id pc ∈ traversed)).
      - intros c fld c' _ Hc. by apply record_cycle_targets.
      - intros k l pc Hk. by rewrite lookup_empty in Hk. }
    intros k l pc Hk Hpc. destruct (Hrec k l pc Hk Hpc) as [-> Hin].
    split; [done |]. intros Heq. apply Hx. by rewrite <- Heq. }
  refine (for_each_invariant
            (fun st : gmap Z (list PointerCycle) * list Z =>
               traversed ⊆ st.2 /\ fresh_keys traversed st.1) _ _ _ _ _ _ H).
  - intros [c tr] ref [c' tr'] _ [Hsub Hc] Hstep. simpl in *.
    unfold PointerCyclesPass.merge_branch in Hstep.
    destruct (decide (ref ∈ tr)); [by injection Hstep as <- <- |].
    apply bind_Ok in Hstep as (d & _ & Hstep).
    apply bind_Ok in Hstep as ([sub tr1] & Hrec & Hstep). injection Hstep as <- <-.
    apply IH in Hrec as [Hsub1 Hfresh]. split; [by etrans |].
    intros k l pc Hk Hpc. rewrite dict_spread_lookup in Hk.
    destruct (sub !! k) as [l'|] eqn:Hs; [ | by eapply Hc].
    injection Hk as <-. destruct (Hfresh k l' pc Hs Hpc) as [Hnin Hne].
    split; [ | done]. intros Hin. apply Hnin. by apply Hsub.
  - simpl. split; [ | done]. intros y Hy. apply elem_of_set_add. by right.
Qed.

(** No analysis records a field of a record as a cycle back to that record:
    a pointer from a record to itself is never marked. *)
Lemma analyze_pointer_cycles_never_self (fuel : nat) (root k : Z)
    (res : gmap Z (list PointerCycle)) (l : list PointerCycle) (pc : PointerCycle) :
  PointerCyclesPass.analyze_pointer_cycles db fuel root = Ok res ->
  res !! k = Some l -> pc ∈ l -> cycled_id pc <> k.
Proof.
  unfold PointerCyclesPass.analyze_pointer_cycles. intros H Hk Hpc.
  apply bind_Ok in H as (d & _ & H). apply fmap_Ok in H as ([res' tr] & H & ->).
  apply analyze_pointer_cycles_rec_keys in H as [_ Hfresh].
  by destruct (Hfresh k l pc Hk Hpc).
Qed.
(** The loop over the fields of [x] records cycles under [x] only. *)
Lemma record_cycle_key (n : nat) (x : Z) (traversed : list Z)
    (cycles cycles' : gmap Z (list PointerCycle)) (field : nat * Z) :
  PointerCyclesPass.record_cycle db n x traversed cycles field = Ok cycles' ->
  forall k, is_Some (cycles' !! k) -> k = x \/ is_Some (cycles !! k).
Proof.
  intros H. unfold PointerCyclesPass.record_cycle in H. destruct field as [i ref].
  apply bind_Ok in H as (ref_type & _ & H).
  destruct (decide (t_class ref_type ≠ "pointer")); [injection H as <-; auto |].
  apply bind_Ok in H as (derefed & _ & H).
  destruct (decide (derefed ∈ traversed)); [ | injection H as <-; auto].
  intros k Hk. destruct (decide (k = x)) as [-> | Hne]; [by left | right].
  destruct (cycles !! x) as [[|f fs]|]; injection H as <-;
    by rewrite lookup_insert_ne in Hk.
Qed.

Lemma own_cycles_key (n : nat) (x : Z) (traversed : list Z) (fields : list (nat * Z))
    (own : gmap Z (list PointerCycle)) :
  for_each (PointerCyclesPass.record_cycle db n x traversed) fields ∅ = Ok own ->
  forall k, is_Some (own !! k) -> k = x.
Proof.
  apply (for_each_invariant
           (fun c : gmap Z (list PointerCycle) => forall k, is_Some (c !! k) -> k = x)).
  - intros c fld c' _ Hc Hstep k Hk.
    destruct (record_cycle_key _ _ _ _ _ _ Hstep k Hk) as [-> | Hold]; [done | by apply Hc].
  - intros k Hk. rewrite lookup_empty in Hk. by destruct Hk.
Qed.

(** A branch returns cycles only for types that were not traversed when it
    started, and all of them are traversed when it ends. *)
Lemma analyze_pointer_cycles_rec_key_range (fuel : nat) (x : Z)
    (traversed traversed' : list Z) (res : gmap Z (list PointerCycle)) :
  PointerCyclesPass.analyze_pointer_cycles_rec db fuel x traversed = Ok (res, traversed') ->
  forall k, is_Some (res !! k) -> (k ∉ traversed) /\ k ∈ traversed'.
Proof.
  revert x traversed traversed' res. induction fuel as [|n IH];
    intros x traversed traversed' res H; simpl in H; [discriminate |].
  assert (Hempty : forall k, is_Some ((∅ : gmap Z (list PointerCycle)) !! k) ->
                             (k ∉ traversed) /\ k ∈ traversed)
    by (intros k Hk; rewrite lookup_empty in Hk; by destruct Hk).
  destruct (decide (x ∈ traversed)) as [| Hx]; [by injection H as <- <- |].
  apply bind_Ok in H as (t & _ & H).
  destruct (decide (t_class t ≠ "record")); [by injection H as <- <- |].
  apply bind_Ok in H as (own & Hown & H).
  pose proof (own_cycles_key _ _ _ _ _ Hown) as Hkey.
  refine (proj2 (for_each_invariant
            (fun st : gmap Z (list PointerCycle) * list Z =>
               set_add x traversed ⊆ st.2 /\
               forall k, is_Some (st.1 !! k) -> (k ∉ traversed) /\ k ∈ st.2) _ _ _ _ _ _ H)).
  - intros [c tr] ref [c' tr'] _ [Hsub Hc] Hstep. simpl in *.
    unfold PointerCyclesPass.merge_branch in Hstep.
    destruct (decide (ref ∈ tr)); [by injection Hstep as <- <- |].
    apply bind_Ok in Hstep as (d & _ & Hstep).
    apply bind_Ok in Hstep as ([sub tr1] & Hrec & Hstep). injection Hstep as <- <-.
    pose proof (IH _ _ _ _ Hrec) as Hrange.
    apply analyze_pointer_cycles_rec_keys in Hrec as [Hmono _].
    split; [by etrans |]. intros k Hk. rewrite dict_spread_lookup in Hk.
    destruct (sub !! k) as [l'|] eqn:Hs.
    + destruct (Hrange k) as [Hnin Hin]; [by rewrite Hs |]. split; [ | done].
      intros Hold. apply Hnin, Hsub, elem_of_set_add. by right.
    + destruct (Hc k Hk) as [Hnin Hin]. split; [done | by apply Hmono].
  - simpl. split; [done |]. intros k Hk. rewrite (Hkey k Hk).
    split; [done |]. apply elem_of_set_add. by left.
Qed.

(** Merging a branch into cycles whose types are all traversed leaves each
    of them as it was; what it adds is under types that were not traversed
    before the branch, and the types of the merged cycles are traversed. *)
Lemma merge_branch_keeps (n : nat) (cycles cycles' : gmap Z (list PointerCycle))
    (tr tr' : list Z) (ref : Z) :
  (forall k, is_Some (cycles !! k) -> k ∈ tr) ->
  PointerCyclesPass.merge_branch db n (PointerCyclesPass.analyze_pointer_cycles_rec db n)
    (cycles, tr) ref = Ok (cycles', tr') ->
  (forall k l, cycles !! k = Some l -> cycles' !! k = Some l) /\
  (forall k, is_Some (cycles' !! k) -> is_Some (cycles !! k) \/ (k ∉ tr) /\ k ∈ tr') /\
  (forall k, is_Some (cycles' !! k) -> k ∈ tr').
Proof.
  intros Hc Hstep. unfold PointerCyclesPass.merge_branch in Hstep.
  destruct (decide (ref ∈ tr)); [injection Hstep as <- <-; repeat split; auto |].
  apply bind_Ok in Hstep as (d & _ & Hstep).
  apply bind_Ok in Hstep as ([sub tr1] & Hrec & Hstep). injection Hstep as <- <-.
  pose proof (analyze_pointer_cycles_rec_key_range _ _ _ _ _ Hrec) as Hrange.
  apply analyze_pointer_cycles_rec_keys in Hrec as [Hmono _].
  split; [ | split]; intros k.
  - intros l Hk. rewrite dict_spread_lookup.
    destruct (sub !! k) as [l'|] eqn:Hs; [ | done].
    destruct (Hrange k) as [Hnin _]; [by rewrite Hs |].
    exfalso. apply Hnin, Hc. by rewrite Hk.
  - intros Hk. rewrite dict_spread_lookup in Hk.
    destruct (sub !! k) as [l'|] eqn:Hs; [ | by left].
    right. apply (Hrange k). by rewrite Hs.
  - intros Hk. rewrite dict_spread_lookup in Hk.
    destruct (sub !! k) as [l'|] eqn:Hs.
    + apply (Hrange k). by rewrite Hs.
    + by apply Hmono, Hc.
Qed.

(** In the loop over the references of the record [x], the types of the
    cycles collected so far are traversed. *)
Lemma merged_cycles_are_traversed (n : nat) (x : Z) (traversed : list Z)
    (own cycles : gmap Z (list PointerCycle)) (fields : list (nat * Z))
    (refs tr : list Z) :
  for_each (PointerCyclesPass.record_cycle db n x traversed) fields ∅ = Ok own ->
  for_each (PointerCyclesPass.merge_branch db n
              (PointerCyclesPass.analyze_pointer_cycles_rec db n))
           refs (own, set_add x traversed) = Ok (cycles, tr) ->
  forall k, is_Some (cycles !! k) -> k ∈ tr.
Proof.
  intros Hown.
  apply (for_each_invariant
           (fun st : gmap Z (list PointerCycle) * list Z =>
              forall k, is_Some (st.1 !! k) -> k ∈ st.2)).
  - intros [c tr0] ref [c' tr1] _ Hc Hstep. simpl in *.
    by destruct (merge_branch_keeps _ _ _ _ _ _ Hc Hstep) as (_ & _ & ?).
  - simpl. intros k Hk. rewrite (own_cycles_key _ _ _ _ _ Hown k Hk).
    apply elem_of_set_add. by left.
Qed.
End CyclesKeys.

(** C10, as the claim states it, fails on its remark on the branches of one
    analysis.  On [fork_db] the two branches of the root [a], through
    [first] and through [second], both lead to [c].  The branch through
    [first] returns cycles for [b] and for [c]; the one through [second]
    then finds [c] traversed and returns nothing, where it would have
    returned other cycles for [c] and for [b] had it come first.  The
    result of the root is what the first branch returned: nothing is
    replaced. *)
Lemma later_branch_replaces_nothing :
  PointerCyclesPass.analyze_pointer_cycles_rec fork_db 4 2 [1] = Ok (fork_first, [1; 2; 3]) /\
  PointerCyclesPass.analyze_pointer_cycles_rec fork_db 4 3 [1; 2; 3] = Ok (∅, [1; 2; 3]) /\
  PointerCyclesPass.analyze_pointer_cycles_rec fork_db 4 3 [1]
  = Ok (fork_second_alone, [1; 3; 2]) /\
  PointerCyclesPass.analyze_pointer_cycles fork_db 5 1 = Ok fork_first /\
  fork_second_alone !! 3 <> fork_first !! 3.
Proof. repeat split; try (vm_compute; reflexivity). discriminate. Qed.

(** C10, amended: when two roots of one handler both produce pointer-cycle
    entries for the type id [k], [PointerCyclesPass.process] leaves under
    [k] the list of the root that comes later in the iteration over
    [commands], and nothing of the earlier one.  Inside the analysis of one
    root nothing is replaced: in the loop over the references of a record
    [x], in whatever invocation, the entries collected before the branch
    through [ref] are under traversed types, the merge of the branch leaves
    each of them as it was, and what it adds is under types that were not
    traversed before the branch and are after it. *)
Theorem later_root_replaces_pointer_cycles (db : ftdb) (fuel : nat) (fops fops' : Fops)
    (b : bool) (pre mid post : list command) (c1 c2 : command)
    (m1 m2 : gmap Z (list PointerCycle)) (k : Z) (l1 l2 : list PointerCycle) :
  commands fops = Some (pre ++ c1 :: mid ++ c2 :: post) ->
  PointerCyclesPass.analyze_pointer_cycles db fuel c1.2 = Ok m1 -> m1 !! k = Some l1 ->
  PointerCyclesPass.analyze_pointer_cycles db fuel c2.2 = Ok m2 -> m2 !! k = Some l2 ->
  (forall c m, c ∈ post ->
     PointerCyclesPass.analyze_pointer_cycles db fuel c.2 = Ok m -> m !! k = None) ->
  PointerCyclesPass.process db fuel fops = Ok (fops', b) ->
  (exists res, pointer_cycles fops' = Some res /\ res !! k = Some l2) /\
  (forall n x traversed db_type own before ref after cycles tr cycles' tr',
     types_entry_by_id db x = Ok db_type ->
     for_each (PointerCyclesPass.record_cycle db n x traversed)
              (imap pair (t_refs db_type)) ∅ = Ok own ->
     t_refs db_type = before ++ ref :: after ->
     for_each (PointerCyclesPass.merge_branch db n
                 (PointerCyclesPass.analyze_pointer_cycles_rec db n))
              before (own, set_add x traversed) = Ok (cycles, tr) ->
     PointerCyclesPass.merge_branch db n (PointerCyclesPass.analyze_pointer_cycles_rec db n)
       (cycles, tr) ref = Ok (cycles', tr') ->
     (forall j, is_Some (cycles !! j) -> j ∈ tr) /\
     (forall j l, cycles !! j = Some l -> cycles' !! j = Some l) /\
     (forall j, is_Some (cycles' !! j) -> is_Some (cycles !! j) \/ (j ∉ tr) /\ j ∈ tr')).
Proof.
  intros Hcmds _ _ Hm2 Hl2 Hpost H. split.
  - unfold PointerCyclesPass.process in H. rewrite Hcmds in H.
    apply bind_Ok in H as (res & Hres & H). injection H as <- _.
    exists res. split; [done |].
    replace (pre ++ c1 :: mid ++ c2 :: post) with ((pre ++ c1 :: mid) ++ c2 :: post) in Hres
      by (by rewrite <- !app_assoc).
    rewrite for_each_app in Hres.
    apply bind_Ok in Hres as (acc1 & _ & Hres).
    apply for_each_cons_Ok in Hres as (acc2 & Hc2 & Hres).
    rewrite (merge_roots_silent db fuel post acc2 res k Hpost Hres).
    destruct (merge_root_lookup db fuel _ _ _ k Hc2) as (m & Hm & Hk).
    assert (m = m2) as -> by congruence. by rewrite Hl2 in Hk.
  - intros n x traversed db_type own before ref after cycles tr cycles' tr' _ Hown _
      Hbefore Hstep.
    pose proof (merged_cycles_are_traversed db _ _ _ _ _ _ _ _ Hown Hbefore) as Hkeys.
    destruct (merge_branch_keeps db _ _ _ _ _ _ Hkeys Hstep) as (Hkept & Hnew & _).
    by repeat split.
Qed.

Lemma later_root_replaces_pointer_cycles_witness :
  (exists res,
     pointer_cycles
       (set_pointer_cycles ring_fop
          (<[1 := [{| cycled_id := 2; member_position := 0 |}]]>
             (<[2 := [{| cycled_id := 3; member_position := 1 |}]]>
                (<[3 := [{| cycled_id := 2; member_position := 0 |}]]> ∅))))
     = Some res /\
     res !! 2 = Some [{| cycled_id := 3; member_position := 1 |}]) /\
  (forall j, is_Some (ring_b_own !! j) -> j ∈ [1; 2]) /\
  (forall j l, ring_b_own !! j = Some l -> ring_b_merged !! j = Some l) /\
  (forall j, is_Some (ring_b_merged !! j) ->
             is_Some (ring_b_own !! j) \/ (j ∉ [1; 2]) /\ j ∈ [1; 2; 3]).
Proof.
  destruct (later_root_replaces_pointer_cycles ring_db 8 ring_fop
              (set_pointer_cycles ring_fop
                 (<[1 := [{| cycled_id := 2; member_position := 0 |}]]>
                    (<[2 := [{| cycled_id := 3; member_position := 1 |}]]>
                       (<[3 := [{| cycled_id := 2; member_position := 0 |}]]> ∅))))
              true [] [] [] get_a get_c
              (<[3 := [{| cycled_id := 2; member_position := 0 |}]]>
                 (<[2 := [{| cycled_id := 1; member_position := 0 |}]]> ∅))
              (<[2 := [{| cycled_id := 3; member_position := 1 |}]]>
                 (<[1 := [{| cycled_id := 2; member_position := 0 |}]]> ∅))
              2
              [{| cycled_id := 1; member_position := 0 |}]
              [{| cycled_id := 3; member_position := 1 |}]) as [Hroots Hbranches].
  - reflexivity.
  - vm_compute. reflexivity.
  - vm_compute. reflexivity.
  - vm_compute. reflexivity.
  - vm_compute. reflexivity.
  - intros c m Hc. inversion Hc.
  - vm_compute. reflexivity.
  - split; [exact Hroots |].
    apply (Hbranches 3%nat 2 [1] (mk_type 2 "b" "record" 128 [12; 13] ["a"; "c"] false)
             ring_b_own [12] 13 [] ring_b_own [1; 2] ring_b_merged [1; 2; 3]).
    + vm_compute. reflexivity.
    + vm_compute. reflexivity.
    + reflexivity.
    + vm_compute. reflexivity.
    + vm_compute. reflexivity.
Defined.

(** ** The order of the type definitions in a description *)

Lemma string_app_cons (x : Ascii.ascii) (a b : string) :
  String x a +:+ b = String x (a +:+ b).
Proof. reflexivity. Qed.

Lemma string_app_assoc (a b c : string) : (a +:+ b) +:+ c = a +:+ (b +:+ c).
Proof. induction a as [|x a IH]; [done |]. by rewrite !string_app_cons, IH. Qed.

Lemma string_app_nil_r (a : string) : a +:+ "" = a.
Proof. induction a as [|x a IH]; [done |]. by rewrite string_app_cons, IH. Qed.

(** A loop that appends to a buffer the text of what it generates for each
    element appends the texts in the order of the list. *)
Lemma for_each_buffer {A B : Type} (gen : A -> result B) (str : B -> string)
    (l : list A) (buffer buffer' : string) :
  for_each (fun buffer x => d ← gen x; Ok (buffer +:+ str d)) l buffer = Ok buffer' ->
  exists ds, Forall2 (fun x d => gen x = Ok d) l ds /\
             buffer' = buffer +:+ String.concat "" (map str ds).
Proof.
  revert buffer. induction l as [|x l IH]; intros buffer H.
  - injection H as <-. exists []. split; [constructor | by rewrite string_app_nil_r].
  - apply for_each_cons_Ok in H as (b1 & Hx & H). apply bind_Ok in Hx as (d & Hd & Hx).
    injection Hx as <-. apply IH in H as (ds & Hds & ->).
    exists (d :: ds). split; [by constructor |].
    rewrite string_app_assoc. destruct ds; simpl; [ | done].
    by rewrite string_app_nil_r.
Qed.

(** C6, as the claim states it, fails: the local set of [(type id, name)]
    pairs is iterated as it comes, without a sort.  For a handler that
    depends on the records 1 ([a]) and 2 ([b]), an iteration that yields the
    pair of 2 first, which a set of tuples holding strings may do from one
    run to the next, puts the definition of [b] before that of [a]. *)
Lemma definitions_follow_the_set_not_the_ids :
  (forall l : list (Z * string), reverse l ≡ₚ l) /\
  fst <$> Generator.generate_description pair_db reverse 8 "2024-01-01" Generator.init pair_fop
  = Ok (pair_header +:+ pair_definition_b +:+ pair_definition_a) /\
  fst <$> Generator.generate_description pair_db id 8 "2024-01-01" Generator.init pair_fop
  = Ok (pair_header +:+ pair_definition_a +:+ pair_definition_b).
Proof.
  split; [intros l; apply reverse_Permutation |].
  split; vm_compute; reflexivity.
Qed.

(** C6, amended: after the header, the open declaration, the ioctl
    declarations and a blank line, the description holds the type
    definitions of the dependencies that were given a name, one after the
    other in the order in which the set of [(type id, name)] pairs yields
    them; no order on the type ids is imposed. *)
Theorem definitions_follow_set_order (db : ftdb)
    (set_order : list (Z * string) -> list (Z * string)) (fuel : nat) (today : string)
    (g g' : Generator.t) (fop : Fops) (text : string) :
  Generator.generate_description db set_order fuel today g fop = Ok (text, g') ->
  exists ds named g1 path cmds ioctls defs,
    let fd_name := "fd_" +:+ name fop in
    let g2 := Generator.set_generated_consts g1
                (<[path := StrValue ""]> (Generator.generated_consts g1)) in
    let g3 := Generator.set_analysis g2 (pointer_bounds fop) (pointer_cycles fop) in
    deps fop = Some ds /\
    Generator.assign_names db fuel g ds = Ok (named, g1) /\
    Generator.find_new_const_name g1 ("SYZDESCRIPTOR_PATH_" +:+ pretty (syscall_id fop))
    = Ok path /\
    commands fop = Some cmds /\
    Forall2 (fun (c : command) s =>
               Generator.generate_ioctl_declaration db fuel g2 fd_name c.1.1 c.2 = Ok s)
            cmds ioctls /\
    Forall2 (fun (p : Z * string) d =>
               Generator.generate_type_definition db fuel g3 p.1 p.2 = Ok d)
            (set_order (remove_dups named)) defs /\
    text = Generator.generate_header today fd_name path (syscall_id fop)
           +:+ OpenDeclaration_str (name fop) path fd_name
           +:+ String.concat "" ioctls
           +:+ nl
           +:+ String.concat "" (map definition_str defs).
Proof.
  unfold Generator.generate_description. intros H.
  apply bind_Ok in H as (ds & Hds & H). apply from_option_Ok in Hds.
  apply bind_Ok in H as ([named g1] & Hnamed & H).
  apply bind_Ok in H as (path & Hpath & H).
  apply bind_Ok in H as (cmds & Hcmds & H). apply from_option_Ok in Hcmds.
  apply bind_Ok in H as (buffer & Hioctls & H).
  apply bind_Ok in H as (bs & Hbs & H). apply from_option_Ok in Hbs.
  apply bind_Ok in H as (cs & Hcs & H). apply from_option_Ok in Hcs.
  apply bind_Ok in H as (buffer' & Hdefs & H). injection H as <- _.
  apply (for_each_buffer _ (fun s : string => s)) in Hioctls as (ioctls & Hioctls & ->).
  apply for_each_buffer in Hdefs as (defs & Hdefs & ->).
  exists ds, named, g1, path, cmds, ioctls, defs. simpl.
  rewrite Hbs, Hcs, map_id, !string_app_assoc.
  by repeat split.
Qed.

Lemma definitions_follow_set_order_witness :
  exists ds named g1 path cmds ioctls defs,
    let fd_name := "fd_" +:+ name pair_fop in
    let g2 := Generator.set_generated_consts g1
                (<[path := StrValue ""]> (Generator.generated_consts g1)) in
    let g3 := Generator.set_analysis g2 (pointer_bounds pair_fop) (pointer_cycles pair_fop) in
    deps pair_fop = Some ds /\
    Generator.assign_names pair_db 8 Generator.init ds = Ok (named, g1) /\
    Generator.find_new_const_name g1 ("SYZDESCRIPTOR_PATH_" +:+ pretty (syscall_id pair_fop))
    = Ok path /\
    commands pair_fop = Some cmds /\
    Forall2 (fun (c : command) s =>
               Generator.generate_ioctl_declaration pair_db 8 g2 fd_name c.1.1 c.2 = Ok s)
            cmds ioctls /\
    Forall2 (fun (p : Z * string) d =>
               Generator.generate_type_definition pair_db 8 g3 p.1 p.2 = Ok d)
            (reverse (remove_dups named)) defs /\
    pair_header +:+ pair_definition_b +:+ pair_definition_a
    = Generator.generate_header "2024-01-01" fd_name path (syscall_id pair_fop)
      +:+ OpenDeclaration_str (name pair_fop) path fd_name
      +:+ String.concat "" ioctls
      +:+ nl
      +:+ String.concat "" (map definition_str defs).
Proof.
  eapply (definitions_follow_set_order pair_db reverse 8 "2024-01-01" Generator.init).
  vm_compute. reflexivity.
Defined.

(** ** PointerBoundsPass: the recursion of [analyze_bounds] *)

Lemma py_index_elem {A : Type} (l : list A) (i : Z) (x : A) :
  py_index l i = Ok x -> x ∈ l.
Proof.
  unfold py_index. case_bool_decide; [ | discriminate].
  intros Hx. apply from_option_Ok in Hx. by eapply list_elem_of_lookup_2.
Qed.

Lemma py_index_head {A : Type} (l : list A) (x : A) :
  py_index l 0 = Ok x -> exists l', l = x :: l'.
Proof.
  unfold py_index. destruct l as [|y l].
  - repeat case_bool_decide; simpl in *; try lia; discriminate.
  - repeat case_bool_decide; simpl in *; try lia; try discriminate.
    intros [= ->]. eauto.
Qed.

Lemma funcs_entry_by_id_elem (db : ftdb) (fid : Z) (f : ftdb_func) :
  funcs_entry_by_id db fid = Ok f -> f ∈ db_funcs db.
Proof.
  unfold funcs_entry_by_id. intros H. apply from_option_Ok in H.
  apply find_some in H as [H _]. by apply list_elem_of_In.
Qed.

Lemma fold_spread_lookup {K V L : Type} `{Countable K} (subs : list (gmap K V * L))
    (local : gmap K V) (k : K) (v : V) :
  fold_left (fun acc s => dict_spread acc s.1) subs local !! k = Some v ->
  local !! k = Some v \/ exists s, s ∈ subs /\ s.1 !! k = Some v.
Proof.
  revert local. induction subs as [|s subs IH]; intros local Hk; simpl in Hk; [by left |].
  apply IH in Hk as [Hk | (s' & Hs' & Hk)].
  - rewrite dict_spread_lookup in Hk. destruct (s.1 !! k) as [v'|] eqn:Hs.
    + right. exists s. split; [by left | congruence].
    + by left.
  - right. exists s'. split; [by right | done].
Qed.

Section BoundsRecursion.
Context (db : ftdb) (id_to_name : list (Z * string)) (wfuel : nat).

(** The loop over the callees, taken apart: the result of each call, the
    merge of the results, the logs one after the other. *)
Lemma calls_loop (n : nat) (chain : list Z) (depth : Z) (calls : list Z)
    (res0 res : gmap Z (list MemberBounds)) (log0 log : list invocation) :
  for_each (fun (st : gmap Z (list MemberBounds) * list invocation) call =>
              let '(res, log) := st in
              '(sub, sublog) ←
                PointerBoundsPass.analyze_bounds_traced db id_to_name n wfuel
                  (chain ++ [call]) call (depth + 1) 4;
              Ok (dict_spread res sub, log ++ sublog))
           calls (res0, log0) = Ok (res, log) ->
  exists subs,
    Forall2 (fun call s =>
               PointerBoundsPass.analyze_bounds_traced db id_to_name n wfuel
                 (chain ++ [call]) call (depth + 1) 4 = Ok s) calls subs /\
    res = fold_left (fun acc s => dict_spread acc s.1) subs res0 /\
    log = log0 ++ concat (map snd subs).
Proof.
  revert res0 log0. induction calls as [|call calls IH]; intros res0 log0 H.
  - injection H as <- <-. exists []. split; [constructor | split; [done |]].
    by rewrite app_nil_r.
  - apply for_each_cons_Ok in H as ([res1 log1] & Hcall & H).
    apply bind_Ok in Hcall as ([sub sublog] & Hsub & Hcall). injection Hcall as <- <-.
    apply IH in H as (subs & Hsubs & -> & ->).
    exists ((sub, sublog) :: subs). split; [by constructor | split; [done |]].
    simpl. by rewrite <- app_assoc.
Qed.

(** Induction over the invocations of [analyze_bounds]: a property of the
    call, its result and its log holds of every call that returns, once it
    holds of the calls stopped by a guard and passes from the calls on the
    callees to the call on the caller. *)
Lemma analyze_bounds_traced_ind
    (P : list Z -> Z -> Z -> Z -> gmap Z (list MemberBounds) -> list invocation -> Prop) :
  (forall chain fid depth max_depth,
     (forall f, funcs_entry_by_id db fid = Ok f ->
                depth > max_depth \/ PointerBoundsPass.call_indexes id_to_name f = []) ->
     P chain fid depth max_depth ∅ [quiet chain depth]) ->
  (forall chain fid depth max_depth f local subs,
     funcs_entry_by_id db fid = Ok f ->
     depth <= max_depth ->
     PointerBoundsPass.call_indexes id_to_name f <> [] ->
     for_each (PointerBoundsPass.scan_call db id_to_name wfuel f)
              (PointerBoundsPass.call_indexes id_to_name f) ∅ = Ok local ->
     Forall2 (fun call (s : gmap Z (list MemberBounds) * list invocation) =>
                P (chain ++ [call]) call (depth + 1) 4 s.1 s.2) (f_calls f) subs ->
     P chain fid depth max_depth
       (fold_left (fun acc s => dict_spread acc s.1) subs local)
       (expanded chain depth :: concat (map snd subs))) ->
  forall fuel chain fid depth max_depth res log,
    PointerBoundsPass.analyze_bounds_traced db id_to_name fuel wfuel chain fid depth max_depth
    = Ok (res, log) ->
    P chain fid depth max_depth res log.
Proof.
  intros Hquiet Hexp. induction fuel as [|n IH];
    intros chain fid depth max_depth res log H; simpl in H; [discriminate |].
  destruct (funcs_entry_by_id db fid) as [f | e |] eqn:Hf.
  - destruct (bool_decide (depth > max_depth)) eqn:Hdepth.
    { simpl in H. injection H as <- <-. apply Hquiet. intros f' Hf'.
      left. by apply bool_decide_eq_true in Hdepth. }
    destruct (bool_decide (length (PointerBoundsPass.call_indexes id_to_name f) = 0%nat))
      eqn:Hlen.
    { simpl in H. injection H as <- <-. apply Hquiet. intros f' Hf'.
      rewrite Hf in Hf'. injection Hf' as <-.
      right. apply bool_decide_eq_true in Hlen. by apply nil_length_inv. }
    simpl in H. apply bind_Ok in H as (local & Hlocal & H).
    apply calls_loop in H as (subs & Hsubs & -> & ->).
    apply bool_decide_eq_false in Hdepth. apply bool_decide_eq_false in Hlen.
    apply (Hexp chain fid depth max_depth f local subs); [done | lia | | done |].
    + intros Hnil. apply Hlen. by rewrite Hnil.
    + eapply Forall2_impl; [exact Hsubs |]. intros call [sub sublog] Hs. by apply IH.
  - injection H as <- <-. apply Hquiet. intros f' Hf'. by rewrite Hf in Hf'.
  - injection H as <- <-. apply Hquiet. intros f' Hf'. by rewrite Hf in Hf'.
Qed.
End BoundsRecursion.

Lemma elem_of_sublogs {R : Type} (subs : list (R * list invocation)) (inv : invocation) :
  inv ∈ concat (map snd subs) -> exists s, s ∈ subs /\ inv ∈ s.2.
Proof.
  intros H. apply elem_of_concat in H as (l & Hl & Hinv).
  apply list_elem_of_In, in_map_iff in Hl as (s & <- & Hs).
  exists s. split; [by apply list_elem_of_In | done].
Qed.

Lemma Forall2_elem_r {A B : Type} (P : A -> B -> Prop) (l : list A) (k : list B) (y : B) :
  Forall2 P l k -> y ∈ k -> exists x, x ∈ l /\ P x y.
Proof.
  intros HF Hy. apply list_elem_of_lookup in Hy as (i & Hi).
  destruct (Forall2_lookup_r _ _ _ _ _ HF Hi) as (x & Hx & HP).
  exists x. split; [by eapply list_elem_of_lookup_2 | done].
Qed.

Section BoundsProperties.
Context (db : ftdb) (id_to_name : list (Z * string)) (wfuel : nat).

(** Every set of the result was recorded, as it is, by the scan of the call
    sites of a function whose invocation went past its guards. *)
Lemma analyze_bounds_sources (fuel : nat) (chain : list Z) (fid depth max_depth : Z)
    (res : gmap Z (list MemberBounds)) (log : list invocation) :
  PointerBoundsPass.analyze_bounds_traced db id_to_name fuel wfuel chain fid depth max_depth
  = Ok (res, log) ->
  last chain = Some fid ->
  forall k S, res !! k = Some S ->
    exists inv g, inv ∈ log /\ inv_expanded inv = true /\
                  last (inv_chain inv) = Some g /\
                  found_in db id_to_name wfuel g k S.
Proof.
  revert fuel chain fid depth max_depth res log.
  apply (analyze_bounds_traced_ind db id_to_name wfuel
           (fun chain fid depth max_depth res log =>
              last chain = Some fid ->
              forall k S, res !! k = Some S ->
                exists inv g, inv ∈ log /\ inv_expanded inv = true /\
                              last (inv_chain inv) = Some g /\
                              found_in db id_to_name wfuel g k S)).
  - intros chain fid depth max_depth _ _ k S Hk. by rewrite lookup_empty in Hk.
  - intros chain fid depth max_depth f local subs Hf _ _ Hlocal Hsubs Hlast k S Hk.
    apply fold_spread_lookup in Hk as [Hk | (s & Hs & Hk)].
    + exists (expanded chain depth), fid. split; [by left |].
      split; [done | split; [done |]]. by exists f, local.
    + destruct (Forall2_elem_r _ _ _ _ Hsubs Hs) as (call & _ & HP).
      destruct (HP (last_snoc _ _) k S Hk) as (inv & g & Hinv & Hrest).
      exists inv, g. split; [ | done]. right.
      apply elem_of_concat. exists s.2. split; [ | done].
      apply list_elem_of_In, in_map. by apply list_elem_of_In.
Qed.

(** Every invocation below the first was reached through functions that
    call a user-copy function themselves. *)
Lemma analyze_bounds_chains (fuel : nat) (chain : list Z) (fid depth max_depth : Z)
    (res : gmap Z (list MemberBounds)) (log : list invocation) :
  PointerBoundsPass.analyze_bounds_traced db id_to_name fuel wfuel chain fid depth max_depth
  = Ok (res, log) ->
  forall inv, inv ∈ log ->
    exists rest, inv_chain inv = chain ++ rest /\
                 (rest <> [] ->
                  directly_copies db id_to_name fid /\
                  Forall (directly_copies db id_to_name) (removelast rest)).
Proof.
  revert fuel chain fid depth max_depth res log.
  apply (analyze_bounds_traced_ind db id_to_name wfuel
           (fun chain fid depth max_depth res log =>
              forall inv, inv ∈ log ->
                exists rest, inv_chain inv = chain ++ rest /\
                             (rest <> [] ->
                              directly_copies db id_to_name fid /\
                              Forall (directly_copies db id_to_name) (removelast rest)))).
  - intros chain fid depth max_depth _ inv Hinv.
    apply list_elem_of_singleton in Hinv as ->. exists []. by rewrite app_nil_r.
  - intros chain fid depth max_depth f local subs Hf _ Hidx _ Hsubs inv Hinv.
    apply elem_of_cons in Hinv as [-> | Hinv]; [exists []; by rewrite app_nil_r |].
    apply elem_of_sublogs in Hinv as (s & Hs & Hinv).
    destruct (Forall2_elem_r _ _ _ _ Hsubs Hs) as (call & _ & HP).
    destruct (HP inv Hinv) as (rest & Hchain & Hrest).
    exists (call :: rest). split; [by rewrite Hchain, <- app_assoc |].
    intros _. split; [by exists f |].
    destruct rest as [|r rest]; [constructor |].
    destruct Hrest as [Hcall Hcallers]; [done |].
    change (removelast (call :: r :: rest)) with (call :: removelast (r :: rest)).
    by constructor.
Qed.

(** No invocation is deeper than 5, and none that goes past its guards is
    deeper than 4. *)
Lemma analyze_bounds_depths (fuel : nat) (chain : list Z) (fid depth : Z)
    (res : gmap Z (list MemberBounds)) (log : list invocation) :
  PointerBoundsPass.analyze_bounds_traced db id_to_name fuel wfuel chain fid depth 4
  = Ok (res, log) ->
  forall inv, inv ∈ log ->
    inv_depth inv <= Z.max depth 5 /\ (inv_expanded inv = true -> inv_depth inv <= 4).
Proof.
  intros H.
  refine (analyze_bounds_traced_ind db id_to_name wfuel
            (fun chain fid depth max_depth res log =>
               max_depth = 4 ->
               forall inv, inv ∈ log ->
                 inv_depth inv <= Z.max depth 5 /\
                 (inv_expanded inv = true -> inv_depth inv <= 4))
            _ _ fuel chain fid depth 4 res log H eq_refl).
  - intros chain' fid' depth' max_depth _ _ inv Hinv.
    apply list_elem_of_singleton in Hinv as ->. simpl. split; [lia | done].
  - intros chain' fid' depth' max_depth f local subs _ Hdepth _ _ Hsubs -> inv Hinv.
    apply elem_of_cons in Hinv as [-> | Hinv]; [simpl; split; [lia | done] |].
    apply elem_of_sublogs in Hinv as (s & Hs & Hinv).
    destruct (Forall2_elem_r _ _ _ _ Hsubs Hs) as (call & _ & HP).
    destruct (HP eq_refl inv Hinv) as [Hle Hexp]. split; [lia | done].
Qed.

(** *** The scan of the call sites *)

Lemma both_member (k1 k2 : string) :
  ~ (k1 ≠ "member" \/ k2 ≠ "member") -> k1 = "member" /\ k2 = "member".
Proof.
  intros H. split.
  - destruct (decide (k1 = "member")); [done | destruct H; by left].
  - destruct (decide (k2 = "member")); [done | destruct H; by right].
Qed.

Lemma walk_to_members_post (derefs : list ftdb_deref)
    (b d b' d' : ftdb_deref) (n : nat) :
  PointerBoundsPass.walk_to_members n derefs b d = Ok (b', d') ->
  b ∈ derefs -> d ∈ derefs ->
  b' ∈ derefs /\ d' ∈ derefs /\ d_kind b' = "member" /\ d_kind d' = "member".
Proof.
  revert b d. induction n as [|n IH]; intros b d H Hb Hd; simpl in H.
  - destruct (decide (d_kind b ≠ "member" ∨ d_kind d ≠ "member")) as [Hk | Hk];
      [discriminate |].
    injection H as <- <-. by destruct (both_member _ _ Hk).
  - destruct (decide (d_kind b ≠ "member" ∨ d_kind d ≠ "member")) as [Hk | Hk].
    + apply bind_Ok in H as (b1 & Hb1 & H). apply bind_Ok in H as (d1 & Hd1 & H).
      apply (IH _ _ H).
      * destruct (decide (d_kind b ≠ "member")); [ | by injection Hb1 as <-].
        apply bind_Ok in Hb1 as (o & _ & Hb1). by eapply py_index_elem.
      * destruct (decide (d_kind d ≠ "member")); [ | by injection Hd1 as <-].
        apply bind_Ok in Hd1 as (o & _ & Hd1). by eapply py_index_elem.
    + injection H as <- <-. by destruct (both_member _ _ Hk).
Qed.

Lemma scan_model_bounds_ok (f : ftdb_func) (call_index : nat)
    (res res' : gmap Z (list MemberBounds)) (model : Z * Z) :
  f ∈ db_funcs db ->
  bounds_ok db res ->
  PointerBoundsPass.scan_model db wfuel f call_index res model = Ok res' ->
  bounds_ok db res'.
Proof.
  intros Hf Hres H. unfold PointerBoundsPass.scan_model in H.
  apply bind_Ok in H as (info & _ & H). apply bind_Ok in H as (a & _ & H).
  apply bind_Ok in H as (b & Hb & H). apply py_index_elem in Hb.
  apply bind_Ok in H as (info' & _ & H). apply bind_Ok in H as (a' & _ & H).
  apply bind_Ok in H as (d & Hd & H). apply py_index_elem in Hd.
  apply bind_Ok in H as (ob & _ & H).
  destruct (decide (or_kind ob ≠ "member")); [by injection H as <- |].
  apply bind_Ok in H as (od & _ & H).
  destruct (decide (or_kind od ≠ "member")); [by injection H as <- |].
  apply bind_Ok in H as ([b' d'] & Hwalk & H).
  destruct (walk_to_members_post _ _ _ _ _ _ Hwalk Hb Hd) as (Hb' & Hd' & Hkb & Hkd).
  apply bind_Ok in H as (tb & Htb & H). apply bind_Ok in H as (td & Htd & H).
  destruct (decide (tb ≠ td)) as [Hne | Heq]; [by injection H as <- |].
  assert (tb = td) as -> by (by destruct (decide (tb = td))).
  apply bind_Ok in H as (anchor & Hanchor & H).
  destruct (decide (t_class anchor = "record" ∧ t_union anchor = true)) as [Hu | Hu];
    [by injection H as <- |].
  apply bind_Ok in H as (mb & Hmb & H). apply bind_Ok in H as (md & Hmd & H).
  set (new := {| type_id := td; binding_member := mb; bound_member := md |}) in H.
  assert (Hnew : bound_ok db td new).
  { split; [done |]. split; [by exists anchor |]. by exists f, b', d'. }
  intros k S x Hk Hx.
  assert (Hcases : (k = td /\ (x = new \/ exists S0, res !! td = Some S0 /\ x ∈ S0)) \/
                   res !! k = Some S).
  { destruct (res !! td) as [[|y S0]|] eqn:Htd_res; injection H as <-.
    - destruct (decide (k = td)) as [-> | Hne].
      + rewrite lookup_insert_eq in Hk. injection Hk as <-.
        apply list_elem_of_singleton in Hx. auto.
      + rewrite lookup_insert_ne in Hk by done. auto.
    - destruct (decide (k = td)) as [-> | Hne].
      + rewrite lookup_insert_eq in Hk. injection Hk as <-.
        apply elem_of_set_add in Hx as [-> | Hx]; [auto |]. left. split; [done |]. eauto.
      + rewrite lookup_insert_ne in Hk by done. auto.
    - destruct (decide (k = td)) as [-> | Hne].
      + rewrite lookup_insert_eq in Hk. injection Hk as <-.
        apply list_elem_of_singleton in Hx. auto.
      + rewrite lookup_insert_ne in Hk by done. auto. }
  destruct Hcases as [[-> [-> | (S0 & HS0 & Hx0)]] | Hold]; [done | by eapply Hres | by eapply Hres].
Qed.

Lemma scan_bounds_ok (f : ftdb_func) (local : gmap Z (list MemberBounds)) :
  f ∈ db_funcs db ->
  for_each (PointerBoundsPass.scan_call db id_to_name wfuel f)
           (PointerBoundsPass.call_indexes id_to_name f) ∅ = Ok local ->
  bounds_ok db local.
Proof.
  intros Hf. apply for_each_invariant.
  - intros res i res' _ Hres H. unfold PointerBoundsPass.scan_call in H.
    apply bind_Ok in H as (callee & _ & H). apply bind_Ok in H as (fname & _ & H).
    apply bind_Ok in H as (models & _ & H).
    revert H. apply for_each_invariant; [ | done].
    intros r model r' _ Hr. by apply scan_model_bounds_ok.
  - intros k S x Hk. by rewrite lookup_empty in Hk.
Qed.

Lemma analyze_bounds_ok (fuel : nat) (chain : list Z) (fid depth max_depth : Z)
    (res : gmap Z (list MemberBounds)) (log : list invocation) :
  PointerBoundsPass.analyze_bounds_traced db id_to_name fuel wfuel chain fid depth max_depth
  = Ok (res, log) ->
  bounds_ok db res.
Proof.
  revert fuel chain fid depth max_depth res log.
  apply (analyze_bounds_traced_ind db id_to_name wfuel
           (fun chain fid depth max_depth res log => bounds_ok db res)).
  - intros chain fid depth max_depth _ k S x Hk. by rewrite lookup_empty in Hk.
  - intros chain fid depth max_depth f local subs Hf _ _ Hlocal Hsubs k S x Hk Hx.
    apply fold_spread_lookup in Hk as [Hk | (s & Hs & Hk)].
    + eapply scan_bounds_ok; [ | exact Hlocal | exact Hk | exact Hx].
      by eapply funcs_entry_by_id_elem.
    + destruct (Forall2_elem_r _ _ _ _ Hsubs Hs) as (call & _ & HP). by eapply HP.
Qed.
End BoundsProperties.

(** ** The length rewrites of the generator *)

Lemma py_index_fmap {A B : Type} (g : A -> B) (l : list A) (i : Z) (x : A) :
  py_index l i = Ok x -> py_index (map g l) i = Ok (g x).
Proof.
  unfold py_index. rewrite length_map. case_bool_decide; [ | discriminate].
  intros Hx. apply from_option_Ok in Hx.
  change (map g l) with (g <$> l). by rewrite list_lookup_fmap, Hx.
Qed.

(** [py_update] changes the element at the position that [py_index] reads. *)
Lemma py_update_Ok {A : Type} (l l' : list A) (i : Z) (f : A -> A) :
  py_update l i f = Ok l' ->
  exists j, py_index (seq 0 (length l)) i = Ok j /\ l' = alter f j l.
Proof.
  unfold py_update, py_index. rewrite length_seq.
  set (j := if bool_decide (i < 0) then i + Z.of_nat (length l) else i).
  case_bool_decide as Hj; [ | discriminate]. intros [= <-].
  exists (Z.to_nat j). split; [ | done].
  rewrite lookup_seq_lt by lia. done.
Qed.

Section LengthRewrites.
Context (db : ftdb).

Lemma generate_type_declaration_not_a_length (fuel : nat) (g : Generator.t) (id : Z)
    (d : declaration) :
  Generator.generate_type_declaration db fuel g id = Ok d -> not_a_length d.
Proof.
  destruct fuel as [|n]; [discriminate |]. simpl. intros H.
  apply bind_Ok in H as (x & _ & H). apply bind_Ok in H as (t & _ & H).
  repeat match type of H with
         | context [decide ?P] => destruct (decide P)
         end;
    repeat (apply bind_Ok in H as (? & _ & H));
    try (injection H as <-); try discriminate;
    try (intros a T; unfold ArrayDeclaration_init, PointerDeclaration_init; discriminate).
  - destruct (Generator.assigned_name g (t_id t)); intros a T; discriminate.
  - destruct (Generator.assigned_name g (t_id t)); intros a T; discriminate.
Qed.

Lemma alter_field_names (f : RecordField -> RecordField) (j : nat)
    (fields : list RecordField) :
  (forall x, field_name (f x) = field_name x) ->
  map field_name (alter f j fields) = map field_name fields.
Proof.
  intros Hf. revert j. induction fields as [|x fields IH]; intros [|j]; simpl; [done.. | | ].
  - by rewrite Hf.
  - f_equal. apply IH.
Qed.

Lemma apply_bound_lengths (names : list string) (S : list MemberBounds)
    (fields fields' : list RecordField) (mb : MemberBounds) :
  mb ∈ S ->
  lengths_from names S fields ->
  Generator.apply_bound fields mb = Ok fields' ->
  lengths_from names S fields'.
Proof.
  intros Hmb [Hnames Hlen] H. unfold Generator.apply_bound in H.
  apply bind_Ok in H as (binding & _ & H). apply bind_Ok in H as (fb & Hfb & H).
  apply py_update_Ok in H as (j & Hj & ->).
  split; [by rewrite alter_field_names |].
  intros i fld a T Hi Hfld. destruct (decide (i = j)) as [-> | Hne].
  - rewrite list_lookup_alter_eq in Hi.
    destruct (fields !! j) as [old|] eqn:Hold; [ | discriminate].
    injection Hi as <-. simpl in Hfld. injection Hfld as <- _.
    exists mb. split; [done |]. rewrite <- Hnames, length_map.
    split; [done | by apply py_index_fmap].
  - rewrite list_lookup_alter_ne in Hi by done. eauto.
Qed.

Lemma apply_cycle_lengths (names : list string) (S : list MemberBounds)
    (fields fields' : list RecordField) (c : PointerCycle) :
  lengths_from names S fields ->
  Generator.apply_cycle fields c = Ok fields' ->
  lengths_from names S fields'.
Proof.
  intros [Hnames Hlen] H. unfold Generator.apply_cycle in H.
  apply py_update_Ok in H as (j & Hj & ->).
  split; [by rewrite alter_field_names |].
  intros i fld a T Hi Hfld. destruct (decide (i = j)) as [-> | Hne].
  - rewrite list_lookup_alter_eq in Hi.
    destruct (fields !! j) as [old|] eqn:Hold; [ | discriminate].
    injection Hi as <-. simpl in Hfld.
    apply (Hlen j old a T Hold). by destruct (type_decl old).
  - rewrite list_lookup_alter_ne in Hi by done. eauto.
Qed.

Lemma generate_record_definition_lengths (fuel : nat) (g : Generator.t) (id : Z)
    (name def_name : string) (union u : bool) (fields : list RecordField) :
  Generator.generate_record_definition db fuel g id name union
  = Ok (RecordDefinition def_name fields u) ->
  u = union /\
  exists B, Generator.bounds g = Some B /\
            lengths_from (map field_name fields) (default [] (B !! id)) fields.
Proof.
  unfold Generator.generate_record_definition. intros H.
  apply bind_Ok in H as (d & _ & H). apply bind_Ok in H as (t & _ & H).
  apply bind_Ok in H as ([fields0 cnt] & Hfields0 & H).
  apply bind_Ok in H as (B & HB & H). apply from_option_Ok in HB.
  apply bind_Ok in H as (fields1 & Hfields1 & H).
  apply bind_Ok in H as (C & _ & H).
  apply bind_Ok in H as (fields2 & Hfields2 & H). injection H as <- <- <-.
  split; [done |]. exists B. split; [done |].
  set (S := default [] (B !! id)).
  assert (H0 : lengths_from (map field_name fields0) S fields0).
  { split; [done |]. intros i fld a T Hi Hfld. exfalso.
    assert (Hall : Forall (fun f => not_a_length (type_decl f)) fields0).
    { revert Hfields0.
      apply (for_each_invariant
               (fun st : list RecordField * Z =>
                  Forall (fun f => not_a_length (type_decl f)) st.1)); [ | constructor].
      intros [fs c] nt [fs' c'] _ Hfs Hstep. simpl in *.
      destruct (Generator.filter_anonymous_type_names c nt.1) as [fname c''].
      apply bind_Ok in Hstep as (decl & Hdecl & Hstep). injection Hstep as <- <-.
      apply Forall_app. split; [done |]. constructor; [ | constructor]. simpl.
      by eapply generate_type_declaration_not_a_length. }
    rewrite Forall_forall in Hall. eapply Hall; [ | exact Hfld].
    by eapply list_elem_of_lookup_2. }
  assert (H1 : lengths_from (map field_name fields0) S fields1).
  { subst S. destruct (B !! id) as [[|b bs]|]; try (by injection Hfields1 as <-).
    simpl. revert Hfields1. apply for_each_invariant; [ | done].
    intros fs mb fs' Hmb Hfs. by apply apply_bound_lengths. }
  assert (H2 : lengths_from (map field_name fields0) S fields2).
  { destruct (C !! id) as [[|c cs]|]; try (by injection Hfields2 as <-).
    revert Hfields2. apply for_each_invariant; [ | done].
    intros fs c' fs' _ Hfs. by apply apply_cycle_lengths. }
  destruct H2 as [Hn H2]. by rewrite Hn.
Qed.

Lemma detypedef_of_non_typedef (fuel : nat) (id : Z) (t : ftdb_type) :
  types_entry_by_id db id = Ok t -> t_class t <> "typedef" ->
  Generator.detypedef db fuel id = Ok id.
Proof.
  intros Ht Hc. unfold Generator.detypedef. rewrite Ht. simpl.
  destruct fuel; simpl; destruct (decide (t_class t = "typedef")); try done;
    by rewrite (types_entry_by_id_id _ _ _ Ht).
Qed.

(** A length in a generated record definition comes from a pair that the
    bounds hold for the type, and when the pairs satisfy [bounds_ok] the
    definition is not that of a union. *)
Lemma generate_type_definition_lengths (fuel : nat) (g : Generator.t) (id : Z)
    (name def_name : string) (union : bool) (fields : list RecordField)
    (B : gmap Z (list MemberBounds)) (i : nat) (fld : RecordField) (a T : string) :
  Generator.bounds g = Some B ->
  bounds_ok db B ->
  non_typedef db id ->
  Generator.generate_type_definition db fuel g id name
  = Ok (RecordDefinition def_name fields union) ->
  fields !! i = Some fld ->
  type_decl fld = LengthDeclaration a T ->
  union = false /\
  exists S mb, B !! id = Some S /\ mb ∈ S /\
               py_index (seq 0 (length fields)) (binding_member mb) = Ok i /\
               py_index (map field_name fields) (bound_member mb) = Ok a.
Proof.
  intros HB Hok (t & Ht & Hnt) H Hi Hfld.
  unfold Generator.generate_type_definition in H.
  rewrite (detypedef_of_non_typedef fuel id t Ht Hnt) in H. simpl in H.
  rewrite Ht in H. simpl in H.
  assert (Hrec : forall u,
    Generator.generate_record_definition db fuel g id name u
    = Ok (RecordDefinition def_name fields union) ->
    union = u /\
    exists S mb, B !! id = Some S /\ mb ∈ S /\
                 py_index (seq 0 (length fields)) (binding_member mb) = Ok i /\
                 py_index (map field_name fields) (bound_member mb) = Ok a).
  { intros u Hu. apply generate_record_definition_lengths in Hu as (-> & B' & HB' & _ & Hlen).
    split; [done |]. assert (B' = B) as -> by congruence.
    destruct (Hlen i fld a T Hi Hfld) as (mb & Hmb & Hbinding & Hbound).
    destruct (B !! id) as [S|] eqn:HS; [ | inversion Hmb].
    exists S, mb. by rewrite length_map in Hbinding. }
  destruct (decide (t_class t = "record" ∧ t_union t = false)) as [_ | _];
    [by apply Hrec |].
  destruct (decide (t_class t = "record" ∧ t_union t = true)) as [Hu | _].
  - exfalso. destruct (Hrec true H) as (_ & S & mb & HS & Hmb & _).
    destruct (Hok id S mb HS Hmb) as (_ & (anchor & Ha & Hnu) & _).
    assert (anchor = t) as -> by congruence. done.
  - destruct (decide (t_class t = "enum")); [ | discriminate].
    unfold Generator.generate_enum_definition in H.
    apply bind_Ok in H as (? & _ & H). apply bind_Ok in H as (? & _ & H). discriminate.
Qed.
End LengthRewrites.

(** ** The pairs recorded by PointerBoundsPass *)

(** C4, as the claim states it, fails on the distinctness of the two indices:
    nothing in [analyze_bounds] compares them.  For a handler that calls
    [copy_from_user(dst, s.len, s.len)] both models of the call resolve the
    size and the source to the member [len], the pair [(1, 1)] is recorded,
    and the generator declares [len] as the length of itself. *)
Lemma a_pair_may_bind_a_field_to_itself :
  PointerBoundsPass.init_id_to_name len_len_db = copy_ids /\
  PointerBoundsPass.analyze_bounds len_len_db copy_ids 5 1 7 1 4 = Ok len_len_bounds /\
  definition_str <$> Generator.generate_type_definition len_len_db 8 len_len_generator 5 "req"
  = Ok len_len_definition.
Proof. split; [ | split]; vm_compute; reflexivity. Qed.

(** C4, amended: every pair that [analyze_bounds] records under a type id
    [k] is made of the member indices of two member derefs of one function
    whose parent type is [k], and the entry of [k] is not a union record;
    hence a field that the generator declares as [len[a, T]] in the
    definition of a (non-typedef) type sits at the binding index of a pair
    recorded for that type, [a] is the name of the field of the same record
    at the bound index of the pair, and the definition is not that of a
    union.  The two indices of a pair may be equal. *)
Theorem recorded_pairs_share_a_non_union_parent (db : ftdb) (id_to_name : list (Z * string))
    (fuel wfuel : nat) (fid depth max_depth : Z) (res : gmap Z (list MemberBounds)) :
  PointerBoundsPass.analyze_bounds db id_to_name fuel wfuel fid depth max_depth = Ok res ->
  bounds_ok db res /\
  forall efuel g id name def_name fields union i fld a T,
    Generator.bounds g = Some res ->
    non_typedef db id ->
    Generator.generate_type_definition db efuel g id name
    = Ok (RecordDefinition def_name fields union) ->
    fields !! i = Some fld ->
    type_decl fld = LengthDeclaration a T ->
    union = false /\
    exists S mb, res !! id = Some S /\ mb ∈ S /\
                 py_index (seq 0 (length fields)) (binding_member mb) = Ok i /\
                 py_index (map field_name fields) (bound_member mb) = Ok a.
Proof.
  unfold PointerBoundsPass.analyze_bounds. intros H.
  apply fmap_Ok in H as ([res' log] & H & ->). simpl.
  assert (Hok : bounds_ok db res') by (by eapply analyze_bounds_ok).
  split; [done |].
  intros efuel g id name def_name fields union i fld a T Hg Hid Hdef Hi Hfld.
  by eapply generate_type_definition_lengths.
Qed.

Lemma recorded_pairs_share_a_non_union_parent_witness :
  bounds_ok buf_len_db buf_len_bounds /\
  forall efuel g id name def_name fields union i fld a T,
    Generator.bounds g = Some buf_len_bounds ->
    non_typedef buf_len_db id ->
    Generator.generate_type_definition buf_len_db efuel g id name
    = Ok (RecordDefinition def_name fields union) ->
    fields !! i = Some fld ->
    type_decl fld = LengthDeclaration a T ->
    union = false /\
    exists S mb, buf_len_bounds !! id = Some S /\ mb ∈ S /\
                 py_index (seq 0 (length fields)) (binding_member mb) = Ok i /\
                 py_index (map field_name fields) (bound_member mb) = Ok a.
Proof.
  apply (recorded_pairs_share_a_non_union_parent buf_len_db copy_ids 5 1 7 1 4).
  vm_compute. reflexivity.
Defined.

(** ** Where [analyze_bounds] looks for pairs *)

(** C9: [analyze_bounds] returns the empty mapping, and invokes itself on no
    callee, when the entry function has no call site whose callee is
    [copy_from_user] or [copy_to_user]; and when it returns, every function
    it was invoked on was reached through callers that each call one of the
    user-copy functions themselves, every set of pairs in its result having
    been recorded at the call sites of such an invocation. *)
Theorem bounds_are_sought_below_direct_user_copies_only (db : ftdb)
    (id_to_name : list (Z * string)) (fuel wfuel : nat) (fid depth max_depth : Z) :
  (0 < fuel)%nat ->
  ((forall f, funcs_entry_by_id db fid = Ok f ->
              PointerBoundsPass.call_indexes id_to_name f = []) ->
   PointerBoundsPass.analyze_bounds_traced db id_to_name fuel wfuel [fid] fid depth max_depth
   = Ok (∅, [quiet [fid] depth])) /\
  (forall res log,
     PointerBoundsPass.analyze_bounds_traced db id_to_name fuel wfuel [fid] fid depth max_depth
     = Ok (res, log) ->
     (forall inv, inv ∈ log ->
        Forall (directly_copies db id_to_name) (removelast (inv_chain inv))) /\
     (forall k S, res !! k = Some S ->
        exists inv g, inv ∈ log /\ inv_expanded inv = true /\
                      last (inv_chain inv) = Some g /\
                      Forall (directly_copies db id_to_name) (inv_chain inv) /\
                      found_in db id_to_name wfuel g k S)).
Proof.
  intros Hfuel. split.
  - intros Hnone. destruct fuel as [|n]; [lia |]. simpl.
    destruct (funcs_entry_by_id db fid) as [f | e |] eqn:Hf; [ | done | done].
    rewrite (Hnone f eq_refl). simpl. by rewrite orb_true_r.
  - intros res log H.
    assert (Hchains : forall inv, inv ∈ log ->
              Forall (directly_copies db id_to_name) (removelast (inv_chain inv))).
    { intros inv Hinv.
      destruct (analyze_bounds_chains _ _ _ _ _ _ _ _ _ _ H inv Hinv) as (rest & -> & Hrest).
      destruct rest as [|r rest]; [constructor |].
      destruct Hrest as [Hfid Hcallers]; [done |].
      rewrite removelast_app by done. by constructor. }
    split; [done |].
    intros k S Hk.
    destruct (analyze_bounds_sources _ _ _ _ _ _ _ _ _ _ H eq_refl k S Hk)
      as (inv & g & Hinv & Hexp & Hlast & Hfound).
    exists inv, g. split; [done | split; [done | split; [done | split; [ | done]]]].
    specialize (Hchains inv Hinv).
    destruct (inv_chain inv) as [|c chain] using rev_ind; [constructor |].
    rewrite removelast_last in Hchains. rewrite last_snoc in Hlast. injection Hlast as ->.
    apply Forall_app. split; [done |]. constructor; [ | constructor].
    destruct Hfound as (f & local & Hf & Hlocal & HS). exists f. split; [done |].
    intros Hnil. rewrite Hnil in Hlocal. injection Hlocal as <-. by rewrite lookup_empty in HS.
Qed.

Lemma bounds_are_sought_below_direct_user_copies_only_witness :
  ((forall f, funcs_entry_by_id buf_len_db 1 = Ok f ->
              PointerBoundsPass.call_indexes copy_ids f = []) ->
   PointerBoundsPass.analyze_bounds_traced buf_len_db copy_ids 5 1 [1] 1 1 4
   = Ok (∅, [quiet [1] 1])) /\
  (forall res log,
     PointerBoundsPass.analyze_bounds_traced buf_len_db copy_ids 5 1 [1] 1 1 4
     = Ok (res, log) ->
     (forall inv, inv ∈ log ->
        Forall (directly_copies buf_len_db copy_ids) (removelast (inv_chain inv))) /\
     (forall k S, res !! k = Some S ->
        exists inv g, inv ∈ log /\ inv_expanded inv = true /\
                      last (inv_chain inv) = Some g /\
                      Forall (directly_copies buf_len_db copy_ids) (inv_chain inv) /\
                      found_in buf_len_db copy_ids 1 g k S)).
Proof.
  apply (bounds_are_sought_below_direct_user_copies_only buf_len_db copy_ids 5 1 1 1 4).
  lia.
Defined.

(** On [buf_len_db] the pair of [struct req] is found from function 7, which
    calls [copy_from_user], and not from its wrapper, function 1, which does
    not. *)
Example wrapper_hides_the_pair :
  PointerBoundsPass.analyze_bounds buf_len_db copy_ids 5 1 7 1 4 = Ok buf_len_bounds /\
  PointerBoundsPass.analyze_bounds buf_len_db copy_ids 5 1 1 1 4 = Ok ∅.
Proof. split; vm_compute; reflexivity. Qed.

(** ** Termination and the depth caps *)

Lemma returns_bind {A B : Type} (m : result A) (f : A -> result B) :
  returns m = true -> (forall a, m = Ok a -> returns (f a) = true) ->
  returns (m ≫= f) = true.
Proof. destruct m as [a | e |]; simpl; [auto | done | done]. Qed.

Lemma returns_fmap {A B : Type} (m : result A) (f : A -> B) :
  returns m = true -> returns (f <$> m) = true.
Proof. by destruct m. Qed.

Lemma from_option_returns {A : Type} (o : option A) (e : exn) :
  returns (from_option Ok (Raise e) o) = true.
Proof. by destruct o. Qed.

Lemma py_index_returns {A : Type} (l : list A) (i : Z) : returns (py_index l i) = true.
Proof. unfold py_index. case_bool_decide; [apply from_option_returns | done]. Qed.

Lemma dict_get_returns {K V : Type} `{EqDecision K} (k : K) (d : list (K * V)) :
  returns (dict_get k d) = true.
Proof. induction d as [|[k' v] d IH]; simpl; [done |]. by destruct (decide (k' = k)). Qed.

Lemma for_each_returns {A S : Type} (body : S -> A -> result S) (l : list A) (s : S) :
  (forall s x, x ∈ l -> returns (body s x) = true) ->
  returns (for_each body l s) = true.
Proof.
  revert s. induction l as [|x l IH]; intros s Hbody; simpl; [done |].
  apply returns_bind; [apply Hbody; by left |].
  intros s' _. apply IH. intros s'' y Hy. apply Hbody. by right.
Qed.

Section Termination.
Context (db : ftdb) (id_to_name : list (Z * string)) (wfuel : nat).

Lemma first_offset_member (d : ftdb_deref) (o : ftdb_offsetref) :
  py_index (d_offsetrefs d) 0 = Ok o -> ~ or_kind o ≠ "member" ->
  first_offset_is_member d = true.
Proof.
  intros Ho Hk. apply py_index_head in Ho as (l & Hl).
  unfold first_offset_is_member. rewrite Hl. apply bool_decide_eq_true.
  by destruct (decide (or_kind o = "member")).
Qed.

Lemma scan_model_returns (f : ftdb_func) (call_index : nat) (models : list (Z * Z))
    (res : gmap Z (list MemberBounds)) (model : Z * Z) :
  f ∈ db_funcs db ->
  call_index ∈ PointerBoundsPass.call_indexes id_to_name f ->
  models_at id_to_name f call_index = Ok models ->
  model ∈ models ->
  copy_walks_return db id_to_name wfuel = true ->
  returns (PointerBoundsPass.scan_model db wfuel f call_index res model) = true.
Proof.
  intros Hf Hi Hmodels Hmodel Hwalks. unfold PointerBoundsPass.scan_model.
  apply returns_bind; [apply py_index_returns | intros info Hinfo].
  apply returns_bind; [apply py_index_returns | intros a Ha].
  apply returns_bind; [apply py_index_returns | intros b Hb].
  rewrite Hinfo. simpl.
  apply returns_bind; [apply py_index_returns | intros a' Ha'].
  apply returns_bind; [apply py_index_returns | intros d Hd].
  apply returns_bind; [apply py_index_returns | intros ob Hob].
  destruct (decide (or_kind ob ≠ "member")) as [| Hkb]; [done |].
  apply returns_bind; [apply py_index_returns | intros od Hod].
  destruct (decide (or_kind od ≠ "member")) as [| Hkd]; [done |].
  apply returns_bind.
  { unfold copy_walks_return in Hwalks. rewrite forallb_forall in Hwalks.
    specialize (Hwalks f (proj1 (list_elem_of_In _ _) Hf)).
    rewrite forallb_forall in Hwalks.
    specialize (Hwalks call_index (proj1 (list_elem_of_In _ _) Hi)).
    rewrite Hmodels, forallb_forall in Hwalks.
    specialize (Hwalks model (proj1 (list_elem_of_In _ _) Hmodel)).
    unfold model_derefs in Hwalks.
    rewrite Hinfo in Hwalks. simpl in Hwalks. rewrite Ha in Hwalks. simpl in Hwalks.
    rewrite Hb in Hwalks. simpl in Hwalks. rewrite Ha' in Hwalks. simpl in Hwalks.
    rewrite Hd in Hwalks. simpl in Hwalks.
    by rewrite (first_offset_member b ob), (first_offset_member d od) in Hwalks. }
  intros [b' d'] _.
  apply returns_bind; [apply py_index_returns | intros tb _].
  apply returns_bind; [apply py_index_returns | intros td _].
  destruct (decide (tb ≠ td)); [done |].
  apply returns_bind; [apply from_option_returns | intros anchor _].
  destruct (decide (t_class anchor = "record" ∧ t_union anchor = true)); [done |].
  apply returns_bind; [apply py_index_returns | intros mb _].
  apply returns_bind; [apply py_index_returns | intros md _].
  by destruct (res !! td) as [[|x S]|].
Qed.

Lemma scan_returns (f : ftdb_func) :
  f ∈ db_funcs db ->
  copy_walks_return db id_to_name wfuel = true ->
  returns (for_each (PointerBoundsPass.scan_call db id_to_name wfuel f)
                    (PointerBoundsPass.call_indexes id_to_name f) ∅) = true.
Proof.
  intros Hf Hwalks. apply for_each_returns. intros res i Hi.
  unfold PointerBoundsPass.scan_call.
  apply returns_bind; [apply py_index_returns | intros callee Hcallee].
  apply returns_bind; [apply dict_get_returns | intros fname Hfname].
  apply returns_bind; [apply dict_get_returns | intros models Hmodels].
  apply for_each_returns. intros r model Hmodel.
  apply (scan_model_returns f i models); [done | done | | done | done].
  unfold models_at. rewrite Hcallee. simpl. rewrite Hfname. simpl. exact Hmodels.
Qed.

(** With the cap at 4, five nested invocations are enough whatever the
    call relation is. *)
Lemma analyze_bounds_returns (fuel : nat) (chain : list Z) (fid depth : Z) :
  copy_walks_return db id_to_name wfuel = true ->
  (1 <= fuel)%nat -> 6 <= Z.of_nat fuel + depth ->
  returns (PointerBoundsPass.analyze_bounds_traced db id_to_name fuel wfuel chain fid depth 4)
  = true.
Proof.
  intros Hwalks. revert chain fid depth.
  induction fuel as [|n IH]; intros chain fid depth Hfuel Hdepth; [lia |]. simpl.
  destruct (funcs_entry_by_id db fid) as [f | e |] eqn:Hf; [ | done | done].
  destruct (bool_decide (depth > 4)) eqn:Hcap; [done |].
  destruct (bool_decide (length (PointerBoundsPass.call_indexes id_to_name f) = 0%nat));
    [done |].
  simpl. apply bool_decide_eq_false in Hcap.
  apply returns_bind; [apply scan_returns; [by eapply funcs_entry_by_id_elem | done] |].
  intros local _. apply for_each_returns. intros [res log] call _.
  apply returns_bind; [apply IH; lia |]. by intros [sub sublog] _.
Qed.

Lemma get_forwarded_ioctls_returns (fid : Z) :
  returns (IoctlAnalysisPass.get_forwarded_ioctls db fid) = true.
Proof.
  unfold IoctlAnalysisPass.get_forwarded_ioctls.
  apply returns_bind; [apply from_option_returns | intros f _].
  apply for_each_returns. intros candidates [i callref] _.
  destruct (decide _); [ | done].
  apply returns_bind; [apply py_index_returns | intros callee _].
  apply returns_bind; [apply py_index_returns | by intros pos _].
Qed.

(** [max_depth + 1] nested invocations are enough whatever the callrefs
    are. *)
Lemma recursively_pick_returns (fuel : nat) (chain : list Z)
    (fid argument_id depth max_depth : Z) :
  (1 <= fuel)%nat -> max_depth + 2 <= Z.of_nat fuel + depth ->
  returns (IoctlAnalysisPass.recursively_pick_traced db fuel chain fid argument_id
             depth max_depth) = true.
Proof.
  revert chain fid argument_id depth.
  induction fuel as [|n IH]; intros chain fid argument_id depth Hfuel Hdepth; [lia |].
  simpl. destruct (bool_decide (depth > max_depth)) eqn:Hcap; [done |].
  apply bool_decide_eq_false in Hcap.
  destruct (IoctlAnalysisPass.lookup_argument_name db fid argument_id); [ | done | done].
  apply returns_bind.
  { unfold IoctlAnalysisPass.pick_switchcases_by_argument_name.
    apply returns_bind; [apply from_option_returns | by intros f _]. }
  intros targeted_switch _.
  apply returns_bind; [apply get_forwarded_ioctls_returns |].
  intros forwarded _. apply for_each_returns. intros [functions log] cand _.
  apply returns_bind; [apply IH; lia |]. by intros [sub sublog] _.
Qed.

(** No invocation is deeper than [max_depth + 1], and none that goes past
    its guard is deeper than [max_depth]. *)
Lemma recursively_pick_depths (fuel : nat) (chain : list Z)
    (fid argument_id depth max_depth : Z) (functions : list (Z * Z))
    (log : list invocation) :
  IoctlAnalysisPass.recursively_pick_traced db fuel chain fid argument_id depth max_depth
  = Ok (functions, log) ->
  forall inv, inv ∈ log ->
    inv_depth inv <= Z.max depth (max_depth + 1) /\
    (inv_expanded inv = true -> inv_depth inv <= max_depth).
Proof.
  revert chain fid argument_id depth functions log.
  induction fuel as [|n IH]; intros chain fid argument_id depth functions log H;
    simpl in H; [discriminate |].
  destruct (bool_decide (depth > max_depth)) eqn:Hcap.
  { injection H as <- <-. intros inv Hinv. apply list_elem_of_singleton in Hinv as ->.
    simpl. split; [lia | done]. }
  apply bool_decide_eq_false in Hcap.
  destruct (IoctlAnalysisPass.lookup_argument_name db fid argument_id) as [nm | e |].
  2, 3: injection H as <- <-; intros inv Hinv; apply list_elem_of_singleton in Hinv as ->;
        simpl; split; [lia | done].
  apply bind_Ok in H as (targeted_switch & _ & H).
  apply bind_Ok in H as (forwarded & _ & H).
  revert H.
  apply (for_each_invariant
           (fun st : list (Z * Z) * list invocation =>
              forall inv, inv ∈ st.2 ->
                inv_depth inv <= Z.max depth (max_depth + 1) /\
                (inv_expanded inv = true -> inv_depth inv <= max_depth))
           _ forwarded).
  - intros [fs lg] cand [fs' lg'] _ Hlg Hstep.
    apply bind_Ok in Hstep as ([sub sublog] & Hsub & Hstep). injection Hstep as <- <-.
    intros inv Hinv. simpl in *. apply elem_of_app in Hinv as [Hinv | Hinv]; [auto |].
    destruct (IH _ _ _ _ _ _ Hsub inv Hinv) as [Hle Hexp]. split; [lia | done].
  - intros inv Hinv. apply list_elem_of_singleton in Hinv as ->. simpl. split; [lia | done].
Qed.
End Termination.

Lemma walk_loops (n : nat) :
  PointerBoundsPass.walk_to_members n [mk_deref "array" "member" 0 [] []]
    (mk_deref "array" "member" 0 [] []) (mk_deref "array" "member" 0 [] []) = Diverges.
Proof. induction n as [|n IH]; [reflexivity | exact IH]. Qed.

(** C5, as the claim states it, fails on termination: the depth caps bound
    the recursion over the calls, but the walk from an argument of a
    user-copy call to a member deref is a [while] loop without a bound.  On
    a database where such a deref is not a member and has itself for first
    offset, [analyze_bounds] does not return, whatever the fuel. *)
Lemma analyze_bounds_loops_on_a_looping_deref :
  PointerBoundsPass.init_id_to_name looping_db = copy_ids /\
  forall fuel wfuel,
    PointerBoundsPass.analyze_bounds looping_db copy_ids fuel wfuel 7 1 4 = Diverges.
Proof.
  split; [reflexivity |]. intros fuel wfuel.
  destruct fuel as [|n]; [reflexivity |].
  pose proof (walk_loops wfuel) as Hw.
  unfold PointerBoundsPass.analyze_bounds.
  cbv -[PointerBoundsPass.walk_to_members PointerBoundsPass.analyze_bounds_traced] in Hw.
  cbv -[PointerBoundsPass.walk_to_members].
  rewrite Hw. reflexivity.
Qed.

(** C5, amended: [recursively_pick_ioctl_with_switchcase] goes past its
    guard at no depth above 3 and [analyze_bounds] at no depth above 4, the
    first call being at depth 1 (the calls made at depth 4, respectively 5,
    return at once); the first terminates on every database, four nested
    invocations being enough, and the second, five nested invocations being
    enough, on every database in which the walks from the derefs of the
    arguments of user-copy calls to member derefs end, whatever the call and
    callref relations are, cyclic ones included. *)
Theorem depth_caps_bound_both_recursions (db : ftdb) (id_to_name : list (Z * string))
    (wfuel : nat) (fid : Z) :
  (forall fuel, (4 <= fuel)%nat ->
     returns (IoctlAnalysisPass.recursively_pick_traced db fuel [fid] fid 1 1 3) = true) /\
  (forall fuel functions log,
     IoctlAnalysisPass.recursively_pick_traced db fuel [fid] fid 1 1 3 = Ok (functions, log) ->
     depth_capped 3 log) /\
  (copy_walks_return db id_to_name wfuel = true ->
   forall fuel, (5 <= fuel)%nat ->
     returns (PointerBoundsPass.analyze_bounds_traced db id_to_name fuel wfuel [fid] fid 1 4)
     = true) /\
  (forall fuel res log,
     PointerBoundsPass.analyze_bounds_traced db id_to_name fuel wfuel [fid] fid 1 4
     = Ok (res, log) ->
     depth_capped 4 log).
Proof.
  split; [ | split; [ | split]].
  - intros fuel Hfuel. apply recursively_pick_returns; lia.
  - intros fuel functions log H. apply Forall_forall. intros inv Hinv.
    destruct (recursively_pick_depths db _ _ _ _ _ _ _ _ H inv Hinv) as [Hle Hexp].
    split; [lia | done].
  - intros Hwalks fuel Hfuel. apply analyze_bounds_returns; [done | lia | lia].
  - intros fuel res log H. apply Forall_forall. intros inv Hinv.
    destruct (analyze_bounds_depths db _ _ _ _ _ _ _ _ H inv Hinv) as [Hle Hexp].
    split; [lia | done].
Qed.

Lemma depth_caps_bound_both_recursions_witness :
  (forall fuel, (4 <= fuel)%nat ->
     returns (IoctlAnalysisPass.recursively_pick_traced buf_len_db fuel [7] 7 1 1 3) = true) /\
  (forall fuel functions log,
     IoctlAnalysisPass.recursively_pick_traced buf_len_db fuel [7] 7 1 1 3
     = Ok (functions, log) ->
     depth_capped 3 log) /\
  (forall fuel, (5 <= fuel)%nat ->
     returns (PointerBoundsPass.analyze_bounds_traced buf_len_db copy_ids fuel 1 [7] 7 1 4)
     = true) /\
  (forall fuel res log,
     PointerBoundsPass.analyze_bounds_traced buf_len_db copy_ids fuel 1 [7] 7 1 4
     = Ok (res, log) ->
     depth_capped 4 log).
Proof.
  destruct (depth_caps_bound_both_recursions buf_len_db copy_ids 1 7)
    as (Hpick & Hpick_cap & Hbounds & Hbounds_cap).
  split; [exact Hpick | split; [exact Hpick_cap | split; [ | exact Hbounds_cap]]].
  apply Hbounds. reflexivity.
Defined.

(** On [looping_db] the first recursion returns all the same, and the
    condition on the walks fails for every number of rounds. *)
Example picks_return_where_walks_do_not :
  (forall fuel, (4 <= fuel)%nat ->
     returns (IoctlAnalysisPass.recursively_pick_traced looping_db fuel [7] 7 1 1 3) = true) /\
  forall wfuel, copy_walks_return looping_db copy_ids wfuel = false.
Proof.
  split.
  - intros fuel Hfuel. apply recursively_pick_returns; lia.
  - intros wfuel. pose proof (walk_loops wfuel) as Hw.
    cbv -[PointerBoundsPass.walk_to_members] in Hw.
    cbv -[PointerBoundsPass.walk_to_members]. by rewrite Hw.
Qed.

(** On [buf_len_db], whose handler calls itself, the two recursions go as
    deep as the caps allow and no deeper. *)
Example recursive_handler_is_cut_at_the_caps :
  (map inv_depth ∘ snd) <$> IoctlAnalysisPass.recursively_pick_traced buf_len_db 4 [7] 7 1 1 3
  = Ok [1; 2; 3; 4] /\
  (map inv_depth ∘ snd) <$>
    PointerBoundsPass.analyze_bounds_traced buf_len_db copy_ids 5 1 [7] 7 1 4
  = Ok [1; 2; 2; 3; 3; 4; 4; 5; 5].
Proof. split; vm_compute; reflexivity. Qed.

(** ** The loop of [__find_new_const_name] *)

Lemma string_app_length (a b : string) :
  String.length (a +:+ b) = (String.length a + String.length b)%nat.
Proof. induction a as [|x a IH]; [done |]. rewrite string_app_cons. simpl. by rewrite IH. Qed.

Lemma find_new_const_name_loop_delete (n : nat) (consts : gmap string const_value)
    (k name : string) :
  (String.length k < String.length name)%nat ->
  Generator.find_new_const_name_loop n (delete k consts) name
  = Generator.find_new_const_name_loop n consts name.
Proof.
  revert name. induction n as [|n IH]; intros name Hlen; simpl.
  - rewrite lookup_delete_ne; [done |]. intros ->. lia.
  - rewrite lookup_delete_ne by (intros ->; lia).
    destruct (decide (is_Some (consts !! name))); [ | done].
    apply IH. rewrite string_app_length. simpl. lia.
Qed.

Lemma find_new_const_name_loop_returns (n : nat) (consts : gmap string const_value)
    (name : string) :
  (size consts <= n)%nat ->
  exists r, Generator.find_new_const_name_loop n consts name = Ok r /\
            consts !! r = None /\
            (String.length name <= String.length r)%nat.
Proof.
  revert consts name. induction n as [|n IH]; intros consts name Hsize; simpl.
  - destruct (decide (is_Some (consts !! name))) as [[v Hv] | Hnone].
    + assert (consts = ∅) as -> by (apply map_size_empty_inv; lia).
      by rewrite lookup_empty in Hv.
    + exists name. split; [done | split; [ | done]].
      by apply eq_None_not_Some.
  - destruct (decide (is_Some (consts !! name))) as [[v Hv] | Hnone].
    + rewrite <- (find_new_const_name_loop_delete n consts name)
        by (rewrite string_app_length; simpl; lia).
      destruct (IH (delete name consts) (name +:+ "_")) as (r & Hr & Hfree & Hlen).
      { assert (Hdel : size consts = S (size (delete name consts))).
        { rewrite <- (insert_delete_id consts name v Hv) at 1.
          apply map_size_insert_None, lookup_delete_eq. }
        lia. }
      rewrite string_app_length in Hlen. simpl in Hlen.
      exists r. split; [done | split; [ | lia]].
      rewrite lookup_delete_ne in Hfree; [done |]. intros ->. lia.
    + exists name. split; [done | split; [ | done]].
      by apply eq_None_not_Some.
Qed.

(** [__find_new_const_name] always returns, and returns a name that is not a
    key of [generated_consts]. *)
Lemma find_new_const_name_returns (g : Generator.t) (name : string) :
  exists r, Generator.find_new_const_name g name = Ok r /\
            Generator.generated_consts g !! r = None.
Proof.
  destruct (find_new_const_name_loop_returns (size (Generator.generated_consts g))
              (Generator.generated_consts g) name) as (r & Hr & Hfree & _); [done |].
  by exists r.
Qed.

(** ** IoctlAnalysisPass.process returns *)

Lemma harvest_functions_returns (db : ftdb) (functions : list (Z * Z)) (cases : list command) :
  returns (IoctlAnalysisPass.harvest_functions db functions cases) = true.
Proof.
  revert cases. induction functions as [|[function_id argument_id] rest IH]; intros cases;
    simpl; [done |].
  apply returns_bind; [apply from_option_returns | intros function _].
  apply returns_bind; [apply returns_fmap, py_index_returns | intros argument_name _].
  apply returns_bind.
  { unfold IoctlAnalysisPass.pick_switchcases_by_argument_name.
    apply returns_bind; [apply from_option_returns | by intros f _]. }
  intros [|switch switches] _; [done | apply IH].
Qed.

(** Whatever the database, four nested invocations are enough for
    [IoctlAnalysisPass.process] to return or raise. *)
Lemma ioctl_process_returns (db : ftdb) (fuel : nat) (fops : Fops) :
  (4 <= fuel)%nat -> returns (IoctlAnalysisPass.process db fuel fops) = true.
Proof.
  intros Hfuel. unfold IoctlAnalysisPass.process, IoctlAnalysisPass.analyze_ioctl_commands,
    IoctlAnalysisPass.analyze_switch_cases,
    IoctlAnalysisPass.recursively_pick_ioctl_with_switchcase.
  apply returns_bind; [ | by intros cmds _].
  apply returns_bind; [ | by intros a _].
  apply returns_bind.
  - apply returns_fmap, recursively_pick_returns; lia.
  - intros [|f functions] _; [done | apply harvest_functions_returns].
Qed.

(** ** The call sites that [analyze_bounds] scans *)

Lemma find_indexes_of_element_nil (lst : list Z) (element : Z) :
  PointerBoundsPass.find_indexes_of_element lst element = [] <-> element ∉ lst.
Proof.
  unfold PointerBoundsPass.find_indexes_of_element. split.
  - intros Hnil Hin. apply list_elem_of_lookup in Hin as (i & Hi).
    assert (Hmem : i ∈ filter (fun i => lst !! i = Some element) (seq 0 (length lst))).
    { apply list_elem_of_filter. split; [done |]. apply elem_of_seq.
      apply lookup_lt_Some in Hi. lia. }
    rewrite Hnil in Hmem. inversion Hmem.
  - intros Hnin.
    destruct (filter (fun i => lst !! i = Some element) (seq 0 (length lst)))
      as [|i rest] eqn:Hfilter; [done |].
    assert (Hmem : i ∈ filter (fun i => lst !! i = Some element) (seq 0 (length lst)))
      by (rewrite Hfilter; by left).
    apply list_elem_of_filter in Hmem as [Hi _].
    destruct Hnin. by eapply list_elem_of_lookup_2.
Qed.

Lemma concat_nil {A : Type} (ls : list (list A)) :
  concat ls = [] <-> forall l, l ∈ ls -> l = [].
Proof.
  induction ls as [|l ls IH]; simpl.
  - split; [intros _ l Hl; inversion Hl | done].
  - split.
    + intros H. apply app_eq_nil in H as [-> H]. intros l' Hl'.
      apply elem_of_cons in Hl' as [-> | Hl']; [done | by apply IH].
    + intros H. rewrite (H l) by (by left). apply IH. intros l' Hl'. apply H. by right.
Qed.

(** A function has no call site to scan exactly when none of its callees is
    a key of [id_to_name]. *)
Lemma call_indexes_nil (id_to_name : list (Z * string)) (f : ftdb_func) :
  PointerBoundsPass.call_indexes id_to_name f = [] <->
  forall c, c ∈ f_calls f -> c ∉ map fst id_to_name.
Proof.
  unfold PointerBoundsPass.call_indexes. rewrite concat_nil. split.
  - intros H c Hc Hkey. apply (find_indexes_of_element_nil (f_calls f) c); [ | done].
    apply H. apply list_elem_of_In, in_map_iff. exists c. split; [done |].
    by apply list_elem_of_In.
  - intros H l Hl. apply list_elem_of_In, in_map_iff in Hl as (c & <- & Hc).
    apply find_indexes_of_element_nil. intros Hin. apply (H c Hin). by apply list_elem_of_In.
Qed.

Lemma dict_set_keys {K V : Type} `{EqDecision K} (k k' : K) (v : V) (d : list (K * V)) :
  k' ∈ map fst (dict_set k v d) <-> k' = k \/ k' ∈ map fst d.
Proof.
  induction d as [|[k0 v0] d IH]; simpl.
  - rewrite list_elem_of_singleton. split; [auto | intros [-> | H]; [done | inversion H]].
  - destruct (decide (k0 = k)) as [-> | Hne]; simpl.
    + rewrite !elem_of_cons. tauto.
    + rewrite !elem_of_cons, IH. tauto.
Qed.

(** The keys of the table that the constructor of [PointerBoundsPass] builds
    are the ids of the functions called [copy_from_user] or [copy_to_user]. *)
Lemma init_id_to_name_keys (db : ftdb) (k : Z) :
  k ∈ map fst (PointerBoundsPass.init_id_to_name db) <->
  exists g, g ∈ db_funcs db /\ f_id g = k /\
            f_name g ∈ ["copy_from_user"; "copy_to_user"].
Proof.
  unfold PointerBoundsPass.init_id_to_name. simpl.
  assert (Hinner : forall nm d,
    k ∈ map fst (fold_left (fun d function_object => dict_set (f_id function_object) nm d)
                           (funcs_entry_by_name db nm) d) <->
    k ∈ map fst d \/ exists g, g ∈ db_funcs db /\ f_id g = k /\ f_name g = nm).
  { intros nm. unfold funcs_entry_by_name.
    induction (db_funcs db) as [|g gs IH]; intros d; simpl.
    - split; [auto | intros [H | (g & Hg & _)]; [done | inversion Hg]].
    - destruct (bool_decide (f_name g = nm)) eqn:Hnm; simpl.
      + apply bool_decide_eq_true in Hnm. rewrite IH, dict_set_keys. split.
        * intros [[-> | H] | (g' & Hg' & Hk & Hn)]; [ | auto | ].
          -- right. exists g. split; [by left | done].
          -- right. exists g'. split; [by right | done].
        * intros [H | (g' & Hg' & Hk & Hn)]; [auto |].
          apply elem_of_cons in Hg' as [-> | Hg']; [auto |].
          right. by exists g'.
      + apply bool_decide_eq_false in Hnm. rewrite IH. split.
        * intros [H | (g' & Hg' & Hk & Hn)]; [auto |]. right. exists g'. split; [by right | done].
        * intros [H | (g' & Hg' & Hk & Hn)]; [auto |].
          apply elem_of_cons in Hg' as [-> | Hg']; [done |]. right. by exists g'. }
  rewrite !Hinner. split.
  - intros [[H | (g & Hg & Hk & Hn)] | (g & Hg & Hk & Hn)]; [inversion H | | ];
      exists g; rewrite Hn; repeat split; try done; [by left | by right; left].
  - intros (g & Hg & Hk & Hn). apply elem_of_cons in Hn as [Hn | Hn].
    + left. right. by exists g.
    + apply list_elem_of_singleton in Hn. right. by exists g.
Qed.

(** For the pass as the driver builds it, a function "calls a user-copy
    function itself" when one of its callees is the id of a function called
    [copy_from_user] or [copy_to_user]. *)
Lemma directly_copies_init (db : ftdb) (fid : Z) :
  directly_copies db (PointerBoundsPass.init_id_to_name db) fid <->
  exists f c g,
    funcs_entry_by_id db fid = Ok f /\ c ∈ f_calls f /\
    g ∈ db_funcs db /\ f_id g = c /\ f_name g ∈ ["copy_from_user"; "copy_to_user"].
Proof.
  unfold directly_copies. split.
  - intros (f & Hf & Hidx).
    destruct (decide (Exists (fun c => c ∈ map fst (PointerBoundsPass.init_id_to_name db))
                             (f_calls f))) as [Hex | Hnex].
    + apply Exists_exists in Hex as (c & Hc & Hkey).
      apply init_id_to_name_keys in Hkey as (g & Hg & Hk & Hn). by exists f, c, g.
    + destruct Hidx. apply call_indexes_nil. intros c Hc Hkey. apply Hnex.
      apply Exists_exists. eauto.
  - intros (f & c & g & Hf & Hc & Hg & Hk & Hn). exists f. split; [done |].
    intros Hnil. apply (proj1 (call_indexes_nil _ _) Hnil c Hc).
    apply init_id_to_name_keys. by exists g.
Qed.

(** * Further properties of the passes, the generator and the driver *)

(** ** [detypedef] and [dereference] *)

Section Indirections.
Context (db : ftdb).

Lemma detypedef_loop_chain (fuel : nat) (t : ftdb_type) (u : Z) :
  types_entry_by_id db (t_id t) = Ok t ->
  TypeAnalysisPass.detypedef_loop db fuel t = Ok u -> rtc (typedef_hop db) (t_id t) u.
Proof.
  revert t. induction fuel as [|n IH]; intros t Ht H; simpl in H;
    destruct (decide (t_class t = "typedef")) as [Hc | Hc]; try discriminate;
    try (injection H as <-; constructor).
  apply bind_Ok in H as (r & Hr & H). apply bind_Ok in H as (t' & Ht' & H).
  apply rtc_l with r; [by apply (typedef_hop_ref db _ _ t) |].
  rewrite <- (types_entry_by_id_id db _ _ Ht').
  apply IH; [by eapply types_entry_by_id_self | done].
Qed.

Lemma detypedef_fixed (fuel : nat) (u : Z) :
  non_typedef db u -> TypeAnalysisPass.detypedef db fuel u = Ok u.
Proof. intros (t & Ht & Hc). by apply (detypedef_of_non_typedef db fuel u t). Qed.

Lemma dereference_loop_direct (fuel : nat) (t : ftdb_type) (v : Z) :
  types_entry_by_id db (t_id t) = Ok t ->
  TypeAnalysisPass.dereference_loop db fuel t = Ok v ->
  direct db v /\ rtc (indirection_hop db) (t_id t) v.
Proof.
  revert t. induction fuel as [|n IH]; intros t Ht H; simpl in H;
    destruct (decide (t_class t ∈ ["pointer"; "typedef"])) as [Hc | Hc]; try discriminate;
    try (injection H as <-; split; [by exists t | constructor]).
  apply bind_Ok in H as (r & Hr & H). apply bind_Ok in H as (t' & Ht' & H).
  destruct (IH t' (types_entry_by_id_self db _ _ Ht') H) as [Hd Hrtc].
  split; [done |]. apply rtc_l with r; [by apply (indirection_hop_ref db _ _ t) |].
  by rewrite <- (types_entry_by_id_id db _ _ Ht').
Qed.

Lemma dereference_fixed (fuel : nat) (v : Z) :
  direct db v -> TypeAnalysisPass.dereference db fuel v = Ok v.
Proof.
  intros (t & Ht & Hc). unfold TypeAnalysisPass.dereference. rewrite Ht. simpl.
  destruct fuel; simpl; destruct (decide (t_class t ∈ ["pointer"; "typedef"])); try done;
    by rewrite (types_entry_by_id_id db _ _ Ht).
Qed.

(** The same fuel is enough for [dereference] from further down a typedef
    chain. *)
Lemma dereference_loop_after_detypedef (f1 f2 : nat) (t : ftdb_type) (u v : Z) :
  types_entry_by_id db (t_id t) = Ok t ->
  TypeAnalysisPass.detypedef_loop db f1 t = Ok u ->
  TypeAnalysisPass.dereference_loop db f2 t = Ok v ->
  TypeAnalysisPass.dereference db f2 u = Ok v.
Proof.
  revert f2 t. induction f1 as [|n IH]; intros f2 t Ht H1 H2; simpl in H1;
    destruct (decide (t_class t = "typedef")) as [Hc | Hc]; try discriminate.
  - injection H1 as <-. unfold TypeAnalysisPass.dereference. by rewrite Ht.
  - apply bind_Ok in H1 as (r & Hr & H1). apply bind_Ok in H1 as (t' & Ht' & H1).
    destruct f2 as [|m]; simpl in H2;
      destruct (decide (t_class t ∈ ["pointer"; "typedef"])) as [Hp | Hp]; try discriminate.
    1, 3: destruct Hp; rewrite Hc; set_solver.
    apply bind_Ok in H2 as (r2 & Hr2 & H2). apply bind_Ok in H2 as (t2 & Ht2 & H2).
    assert (r2 = r) as -> by congruence. assert (t2 = t') as -> by congruence.
    pose proof (IH m t' (types_entry_by_id_self db _ _ Ht') H1 H2) as Hd.
    unfold TypeAnalysisPass.dereference in *.
    apply bind_Ok in Hd as (tu & Htu & Hd). rewrite Htu. simpl.
    clear -Hd. revert tu Hd. induction m as [|m IHm]; intros tu Hd; simpl in *;
      destruct (decide (t_class tu ∈ ["pointer"; "typedef"])); try done.
    apply bind_Ok in Hd as (r & Hr & Hd). apply bind_Ok in Hd as (t' & Ht' & Hd).
    rewrite Hr. simpl. rewrite Ht'. simpl. by apply IHm.
  - injection H1 as <-. unfold TypeAnalysisPass.dereference. by rewrite Ht.
Qed.
End Indirections.

(** X1: when [detypedef] returns, it returns the id of an entry that is not a
    typedef, reached from its argument along first references of typedefs
    only; and it returns such an id unchanged, with any fuel: [detypedef] is
    idempotent. *)
Theorem detypedef_ends_a_typedef_chain (db : ftdb) (fuel : nat) (i u : Z) :
  TypeAnalysisPass.detypedef db fuel i = Ok u ->
  rtc (typedef_hop db) i u /\ non_typedef db u /\
  forall fuel', TypeAnalysisPass.detypedef db fuel' u = Ok u.
Proof.
  intros H. pose proof (detypedef_non_typedef db _ _ _ H) as Hu.
  split; [ | split; [done | intros fuel'; by apply detypedef_fixed]].
  unfold TypeAnalysisPass.detypedef in H. apply bind_Ok in H as (t & Ht & H).
  rewrite <- (types_entry_by_id_id db _ _ Ht).
  apply detypedef_loop_chain with fuel; [by eapply types_entry_by_id_self | done].
Qed.

Lemma detypedef_ends_a_typedef_chain_witness :
  rtc (typedef_hop alias_db) 4 1 /\ non_typedef alias_db 1 /\
  forall fuel', TypeAnalysisPass.detypedef alias_db fuel' 1 = Ok 1.
Proof. apply (detypedef_ends_a_typedef_chain alias_db 2 4 1). reflexivity. Defined.

(** X2: when [dereference] returns, it returns the id of an entry that is
    neither a pointer nor a typedef, reached along first references of
    pointers and typedefs; it gives the same result from what [detypedef]
    makes of its argument, and returns such an id unchanged. *)
Theorem dereference_ends_all_indirections (db : ftdb) (fuel : nat) (i v : Z) :
  TypeAnalysisPass.dereference db fuel i = Ok v ->
  direct db v /\ rtc (indirection_hop db) i v /\
  (forall f u, TypeAnalysisPass.detypedef db f i = Ok u ->
               TypeAnalysisPass.dereference db fuel u = Ok v) /\
  forall fuel', TypeAnalysisPass.dereference db fuel' v = Ok v.
Proof.
  intros H. unfold TypeAnalysisPass.dereference in H. apply bind_Ok in H as (t & Ht & H).
  pose proof (types_entry_by_id_self db _ _ Ht) as Hself.
  destruct (dereference_loop_direct db _ _ _ Hself H) as [Hd Hrtc].
  rewrite (types_entry_by_id_id db _ _ Ht) in Hrtc.
  split; [done | split; [done | split]].
  - intros f u Hu. unfold TypeAnalysisPass.detypedef in Hu. rewrite Ht in Hu.
    by apply (dereference_loop_after_detypedef db f fuel t).
  - intros fuel'. by apply dereference_fixed.
Qed.

Lemma dereference_ends_all_indirections_witness :
  direct alias_db 1 /\ rtc (indirection_hop alias_db) 5 1 /\
  (forall f u, TypeAnalysisPass.detypedef alias_db f 5 = Ok u ->
               TypeAnalysisPass.dereference alias_db 3 u = Ok 1) /\
  forall fuel', TypeAnalysisPass.dereference alias_db fuel' 1 = Ok 1.
Proof. apply (dereference_ends_all_indirections alias_db 3 5 1). reflexivity. Defined.

(** ** The entries of [pointer_cycles] *)

Section CyclesEntries.
Context (db : ftdb).

Lemma record_cycle_entry_ok (n : nat) (x : Z) (t : ftdb_type) (traversed : list Z)
    (cycles cycles' : gmap Z (list PointerCycle)) (field : nat * Z) :
  types_entry_by_id db x = Ok t -> t_class t = "record" ->
  t_refs t !! field.1 = Some field.2 ->
  (forall k l pc, cycles !! k = Some l -> pc ∈ l -> cycle_entry_ok db k pc) ->
  PointerCyclesPass.record_cycle db n x traversed cycles field = Ok cycles' ->
  forall k l pc, cycles' !! k = Some l -> pc ∈ l -> cycle_entry_ok db k pc.
Proof.
  intros Ht Hrec Hfield Hold H. unfold PointerCyclesPass.record_cycle in H.
  destruct field as [i ref]. simpl in Hfield.
  apply bind_Ok in H as (ref_type & Hrt & H).
  destruct (decide (t_class ref_type ≠ "pointer")) as [| Hp]; [by injection H as <- |].
  apply dec_stable in Hp.
  apply bind_Ok in H as (derefed & Hd & H).
  destruct (decide (derefed ∈ traversed)) as [Hin |]; [ | by injection H as <-].
  assert (Hnew : cycle_entry_ok db x
                   {| cycled_id := derefed; member_position := Z.of_nat i |})
    by (exists t, i, ref, ref_type, n; done).
  intros k l pc Hk Hpc.
  destruct (cycles !! x) as [[|f fs]|] eqn:Hx; injection H as <-.
  - destruct (decide (k = x)) as [-> | Hne]; [ | rewrite lookup_insert_ne in Hk by done; eauto].
    rewrite lookup_insert_eq in Hk. injection Hk as <-.
    apply list_elem_of_singleton in Hpc. by subst pc.
  - destruct (decide (k = x)) as [-> | Hne]; [ | rewrite lookup_insert_ne in Hk by done; eauto].
    rewrite lookup_insert_eq in Hk. injection Hk as <-.
    change (pc ∈ (f :: fs) ++ [{| cycled_id := derefed; member_position := Z.of_nat i |}])
      in Hpc.
    apply elem_of_app in Hpc as [Hpc | Hpc]; [by eapply Hold |].
    apply list_elem_of_singleton in Hpc. by subst pc.
  - destruct (decide (k = x)) as [-> | Hne]; [ | rewrite lookup_insert_ne in Hk by done; eauto].
    rewrite lookup_insert_eq in Hk. injection Hk as <-.
    apply list_elem_of_singleton in Hpc. by subst pc.
Qed.

Lemma analyze_pointer_cycles_rec_entries (fuel : nat) (x : Z) (traversed traversed' : list Z)
    (res : gmap Z (list PointerCycle)) :
  PointerCyclesPass.analyze_pointer_cycles_rec db fuel x traversed = Ok (res, traversed') ->
  forall k l pc, res !! k = Some l -> pc ∈ l -> cycle_entry_ok db k pc.
Proof.
  revert x traversed traversed' res. induction fuel as [|n IH];
    intros x traversed traversed' res H; simpl in H; [discriminate |].
  destruct (decide (x ∈ traversed)) as [| Hx].
  { injection H as <- <-. intros k l pc Hk. by rewrite lookup_empty in Hk. }
  apply bind_Ok in H as (t & Ht & H).
  destruct (decide (t_class t ≠ "record")) as [| Hrec].
  { injection H as <- <-. intros k l pc Hk. by rewrite lookup_empty in Hk. }
  apply dec_stable in Hrec.
  apply bind_Ok in H as (own & Hown & H).
  assert (Hown' : forall k l pc, own !! k = Some l -> pc ∈ l -> cycle_entry_ok db k pc).
  { revert Hown.
    apply (for_each_invariant
             (fun c : gmap Z (list PointerCycle) =>
                forall k l pc, c !! k = Some l -> pc ∈ l -> cycle_entry_ok db k pc)).
    - intros c fld c' Hfld Hc. apply record_cycle_entry_ok with (t := t); try done.
      apply elem_of_lookup_imap_1 in Hfld as (i & r & -> & Hir). done.
    - intros k l pc Hk. by rewrite lookup_empty in Hk. }
  refine (for_each_invariant
            (fun st : gmap Z (list PointerCycle) * list Z =>
               forall k l pc, st.1 !! k = Some l -> pc ∈ l -> cycle_entry_ok db k pc)
            _ _ _ _ _ _ H).
  - intros [c tr] ref [c' tr'] _ Hc Hstep. simpl in *.
    unfold PointerCyclesPass.merge_branch in Hstep.
    destruct (decide (ref ∈ tr)); [by injection Hstep as <- <- |].
    apply bind_Ok in Hstep as (d & _ & Hstep).
    apply bind_Ok in Hstep as ([sub tr1] & Hsub & Hstep). injection Hstep as <- <-.
    intros k l pc Hk Hpc. rewrite dict_spread_lookup in Hk.
    destruct (sub !! k) as [l'|] eqn:Hs; [ | by eapply Hc].
    injection Hk as <-. by eapply IH.
  - done.
Qed.

Lemma analyze_pointer_cycles_entries (fuel : nat) (root k : Z)
    (res : gmap Z (list PointerCycle)) (l : list PointerCycle) (pc : PointerCycle) :
  PointerCyclesPass.analyze_pointer_cycles db fuel root = Ok res ->
  res !! k = Some l -> pc ∈ l -> cycle_entry_ok db k pc.
Proof.
  unfold PointerCyclesPass.analyze_pointer_cycles. intros H Hk Hpc.
  apply bind_Ok in H as (d & _ & H). apply fmap_Ok in H as ([res' tr] & H & ->).
  by eapply analyze_pointer_cycles_rec_entries.
Qed.
End CyclesEntries.

(** X3: every entry that [PointerCyclesPass.process] leaves in
    [pointer_cycles] under a type id [k] names a pointer field of the record
    [k]: [k] is a record entry, [member_position] is the index of one of its
    references, that reference is a pointer entry, and [cycled_id] is the
    type the pointer leads to once pointers and typedefs are followed.  The
    target is never [k] itself. *)
Theorem pointer_cycles_name_pointer_fields (db : ftdb) (fuel : nat) (fops fops' : Fops)
    (status : bool) (res : gmap Z (list PointerCycle)) (k : Z) (l : list PointerCycle) :
  PointerCyclesPass.process db fuel fops = Ok (fops', status) ->
  pointer_cycles fops' = Some res ->
  res !! k = Some l ->
  forall pc, pc ∈ l -> cycle_entry_ok db k pc /\ cycled_id pc <> k.
Proof.
  unfold PointerCyclesPass.process. intros H Hres Hk.
  destruct (commands fops) as [cmds|]; [ | discriminate].
  apply bind_Ok in H as (cycles & Hc & H). injection H as <- <-.
  simpl in Hres. injection Hres as ->.
  revert k l Hk. revert Hc.
  apply (for_each_invariant
           (fun c : gmap Z (list PointerCycle) =>
              forall k l, c !! k = Some l ->
                forall pc, pc ∈ l -> cycle_entry_ok db k pc /\ cycled_id pc <> k)).
  - intros acc c acc' _ Hacc Hstep k l Hk.
    destruct (merge_root_lookup _ _ _ _ _ k Hstep) as (m & Hm & Hl).
    rewrite Hk in Hl. destruct (m !! k) as [l'|] eqn:Hmk; [ | by apply Hacc].
    injection Hl as ->. intros pc Hpc. split.
    + by eapply analyze_pointer_cycles_entries.
    + by eapply analyze_pointer_cycles_never_self.
  - intros k l Hk. by rewrite lookup_empty in Hk.
Qed.

Lemma pointer_cycles_name_pointer_fields_witness :
  cycle_entry_ok ring_db 2 {| cycled_id := 3; member_position := 1 |} /\
  cycled_id {| cycled_id := 3; member_position := 1 |} <> 2.
Proof.
  apply (pointer_cycles_name_pointer_fields ring_db 8 ring_fop
           (set_pointer_cycles ring_fop
              (<[1 := [{| cycled_id := 2; member_position := 0 |}]]>
                 (<[2 := [{| cycled_id := 3; member_position := 1 |}]]>
                    (<[3 := [{| cycled_id := 2; member_position := 0 |}]]> ∅))))
           true
           (<[1 := [{| cycled_id := 2; member_position := 0 |}]]>
              (<[2 := [{| cycled_id := 3; member_position := 1 |}]]>
                 (<[3 := [{| cycled_id := 2; member_position := 0 |}]]> ∅)))
           2 [{| cycled_id := 3; member_position := 1 |}]).
  - vm_compute. reflexivity.
  - reflexivity.
  - vm_compute. reflexivity.
  - by left.
Defined.

(** ** The names of the constants *)

Lemma underscores_snoc (name : string) (k : nat) :
  (name +:+ "_") +:+ underscores k = name +:+ underscores (S k).
Proof. by rewrite string_app_assoc. Qed.

Lemma find_new_const_name_loop_first_free (n : nat) (consts : gmap string const_value)
    (name r : string) :
  Generator.find_new_const_name_loop n consts name = Ok r ->
  exists k, r = name +:+ underscores k /\ consts !! r = None /\
            forall j, (j < k)%nat -> is_Some (consts !! (name +:+ underscores j)).
Proof.
  revert name. induction n as [|n IH]; intros name H; simpl in H.
  - destruct (decide (is_Some (consts !! name))) as [| Hnone]; [discriminate |].
    injection H as <-. exists 0%nat. simpl. rewrite string_app_nil_r.
    split; [done | split; [by apply eq_None_not_Some | lia]].
  - destruct (decide (is_Some (consts !! name))) as [Hsome | Hnone].
    + apply IH in H as (k & -> & Hfree & Hused). exists (S k).
      rewrite underscores_snoc in Hfree. rewrite underscores_snoc.
      split; [done | split; [done |]].
      intros [|j] Hj; [simpl; by rewrite string_app_nil_r |].
      rewrite <- underscores_snoc. apply Hused. lia.
    + injection H as <-. exists 0%nat. simpl. rewrite string_app_nil_r.
      split; [done | split; [by apply eq_None_not_Some | lia]].
Qed.

(** X4: [__find_new_const_name] always returns, and what it returns is the
    first of [name], [name_], [name__], ... that is not a key of
    [generated_consts]: the name with [k] underscores appended is free, and
    with fewer underscores it is taken. *)
Theorem find_new_const_name_is_the_first_free_name (g : Generator.t) (name : string) :
  exists k,
    Generator.find_new_const_name g name = Ok (name +:+ underscores k) /\
    Generator.generated_consts g !! (name +:+ underscores k) = None /\
    forall j, (j < k)%nat ->
      is_Some (Generator.generated_consts g !! (name +:+ underscores j)).
Proof.
  destruct (find_new_const_name_returns g name) as (r & Hr & _).
  destruct (find_new_const_name_loop_first_free _ _ _ _ Hr) as (k & -> & Hfree & Hused).
  by exists k.
Qed.

(** *** The rename pass and the constants file *)

Section ConstFile.
Context (g : Generator.t).

Lemma elem_of_set_remove (x y : command) (s : list command) :
  y ∈ set_remove x s <-> y <> x /\ y ∈ s.
Proof. unfold set_remove. apply (list_elem_of_filter (fun y => y <> x)). Qed.

(** The commands whose label is taken are the ones picked for a rename. *)
Lemma to_remove_spec (cmds acc : list command) (c : command) :
  c ∈ fold_left (fun to_remove (c : command) =>
                   if decide (is_Some (Generator.generated_consts g !! c.1.1))
                   then set_add c to_remove else to_remove) cmds acc
  <-> c ∈ acc \/ (c ∈ cmds /\ is_Some (Generator.generated_consts g !! c.1.1)).
Proof.
  revert acc. induction cmds as [|x cmds IH]; intros acc; simpl.
  - split; [auto | intros [? | [Hc _]]; [done | inversion Hc]].
  - rewrite IH. destruct (decide (is_Some (Generator.generated_consts g !! x.1.1))) as [Hx | Hx].
    + rewrite elem_of_set_add, elem_of_cons. split.
      * intros [[-> | ?] | [? ?]]; auto.
      * intros [? | [[-> | ?] ?]]; auto.
    + rewrite elem_of_cons. split.
      * intros [? | [? ?]]; auto.
      * intros [? | [[-> | ?] ?]]; [auto | done | auto].
Qed.

Lemma rename_loop_spec (l cmds cmds' : list command) :
  (forall el, el ∈ l -> is_Some (Generator.generated_consts g !! el.1.1)) ->
  for_each (rename_step g) l cmds = Ok cmds' ->
  (forall c', c' ∈ cmds' ->
     (c' ∈ cmds /\ c' ∉ l) \/
     exists el k, el ∈ l /\ renamed_by (S k) el c' /\
                  Generator.generated_consts g !! c'.1.1 = None) /\
  (forall c, c ∈ cmds -> c ∉ l -> c ∈ cmds') /\
  (forall el, el ∈ l -> exists c' k, c' ∈ cmds' /\ renamed_by (S k) el c').
Proof.
  revert cmds. induction l as [|el l IH]; intros cmds Hl H; simpl in H.
  - injection H as <-. split; [ | split].
    + intros c' Hc'. left. split; [done | by intros Hin; inversion Hin].
    + done.
    + intros el Hel. inversion Hel.
  - apply bind_Ok in H as (cmds1 & Hstep & H). unfold rename_step in Hstep.
    apply bind_Ok in Hstep as (r & Hr & Hstep). injection Hstep as <-.
    destruct (find_new_const_name_loop_first_free _ _ _ _ Hr) as (k & -> & Hfree & Hused).
    assert (Hk : exists k', k = S k').
    { destruct k as [|k']; [ | by exists k'].
      simpl in Hfree. rewrite string_app_nil_r in Hfree.
      destruct (Hl el) as [v Hv]; [by left |]. by rewrite Hv in Hfree. }
    destruct Hk as (k' & ->).
    set (c1 := (el.1.1 +:+ underscores (S k'), el.1.2, el.2) : command) in *.
    assert (Hc1 : c1 ∉ l).
    { intros Hin. destruct (Hl c1) as [v Hv]; [by right |].
      change (c1.1.1) with (el.1.1 +:+ underscores (S k')) in Hv. by rewrite Hv in Hfree. }
    apply IH in H as (Hfrom & Hkept & Hall); [ | intros e He; apply Hl; by right].
    split; [ | split].
    + intros c' Hc'. destruct (Hfrom c' Hc') as [[Hin Hnl] | (e & j & He & Hren & Hnone)].
      * apply elem_of_set_add in Hin as [-> | Hin].
        -- right. exists el, k'. split; [by left | done].
        -- apply elem_of_set_remove in Hin as [Hne Hin]. left. split; [done |].
           intros Hcl. apply elem_of_cons in Hcl as [-> | ?]; done.
      * right. exists e, j. split; [by right | done].
    + intros c Hc Hn. apply Hkept.
      * apply elem_of_set_add. right. apply elem_of_set_remove. split; [ | done].
        intros ->. apply Hn. by left.
      * intros Hin. apply Hn. by right.
    + intros e He. apply elem_of_cons in He as [-> | He].
      * exists c1, k'. split; [ | done]. apply Hkept; [ | done].
        apply elem_of_set_add. by left.
      * by apply Hall.
Qed.

Lemma rename_already_used_consts_spec (cmds cmds' : list command) :
  Generator.rename_already_used_consts g cmds = Ok cmds' ->
  (forall c', c' ∈ cmds' ->
     Generator.generated_consts g !! c'.1.1 = None /\
     exists c k, c ∈ cmds /\ renamed_by k c c' /\
       (k = 0%nat <-> Generator.generated_consts g !! c.1.1 = None)) /\
  (forall c, c ∈ cmds -> exists c' k, c' ∈ cmds' /\ renamed_by k c c' /\
       (k = 0%nat <-> Generator.generated_consts g !! c.1.1 = None)).
Proof.
  unfold Generator.rename_already_used_consts. intros H.
  change (for_each (rename_step g)
            (fold_left (fun to_remove (c : command) =>
                          if decide (is_Some (Generator.generated_consts g !! c.1.1))
                          then set_add c to_remove else to_remove) cmds []) cmds = Ok cmds')
    in H.
  apply rename_loop_spec in H as (Hfrom & Hkept & Hall).
  2: { intros el Hel. apply to_remove_spec in Hel as [Hel | [_ ?]]; [inversion Hel | done]. }
  split.
  - intros c' Hc'. destruct (Hfrom c' Hc') as [[Hin Hnl] | (el & k & Hel & Hren & Hnone)].
    + assert (Hnone : Generator.generated_consts g !! c'.1.1 = None).
      { apply eq_None_not_Some. intros Hs. apply Hnl, to_remove_spec. by right. }
      split; [done |]. exists c', 0%nat. split; [done | split; [ | done]].
      unfold renamed_by. simpl. by rewrite string_app_nil_r.
    + split; [done |]. apply to_remove_spec in Hel as [Hel | [Hel [v Hv]]]; [inversion Hel |].
      exists el, (S k). split; [done | split; [done |]]. split; [discriminate | congruence].
  - intros c Hc.
    destruct (decide (is_Some (Generator.generated_consts g !! c.1.1))) as [Hs | Hn].
    + destruct (Hall c) as (c' & k & Hc' & Hren); [apply to_remove_spec; by right |].
      exists c', (S k). split; [done | split; [done |]].
      destruct Hs as [v Hv]. split; [discriminate | by rewrite Hv].
    + exists c, 0%nat. split; [ | split].
      * apply Hkept; [done |]. intros Hin. apply to_remove_spec in Hin as [Hin | [_ ?]];
          [inversion Hin | done].
      * unfold renamed_by. simpl. by rewrite string_app_nil_r.
      * split; [intros _; by apply eq_None_not_Some | done].
Qed.

(** The loop that writes the lines and registers the labels. *)
Lemma write_consts_spec (cmds : list command) (buffer : string)
    (consts : gmap string const_value) :
  fold_left (fun (st : string * gmap string const_value) (c : command) =>
               let '(buffer, consts) := st in
               (buffer +:+ ConstantDefinition_str c.1.1 (IntValue c.1.2),
                <[c.1.1 := IntValue c.1.2]> consts))
            cmds (buffer, consts)
  = (buffer +:+ const_lines cmds,
     foldl (fun consts (c : command) => <[c.1.1 := IntValue c.1.2]> consts) consts cmds).
Proof.
  revert buffer consts. induction cmds as [|c cmds IH]; intros buffer consts; simpl.
  - by rewrite string_app_nil_r.
  - rewrite IH. by rewrite string_app_assoc.
Qed.

Lemma registered_lookup (cmds : list command) (consts : gmap string const_value)
    (k : string) :
  (forall c, c ∈ cmds -> c.1.1 <> k) ->
  foldl (fun consts (c : command) => <[c.1.1 := IntValue c.1.2]> consts) consts cmds !! k
  = consts !! k.
Proof.
  revert consts. induction cmds as [|c cmds IH]; intros consts Hk; simpl; [done |].
  rewrite IH by (intros c' Hc'; apply Hk; by right).
  apply lookup_insert_ne, Hk. by left.
Qed.

Lemma registered_is_Some (cmds : list command) (consts : gmap string const_value)
    (k : string) :
  Exists (fun c : command => c.1.1 = k) cmds ->
  exists c', c' ∈ cmds /\ c'.1.1 = k /\
    foldl (fun consts (c : command) => <[c.1.1 := IntValue c.1.2]> consts) consts cmds
      !! k = Some (IntValue c'.1.2).
Proof.
  revert consts. induction cmds as [|x cmds IH]; intros consts Hc; [inversion Hc |].
  simpl. destruct (decide (Exists (fun c' : command => c'.1.1 = k) cmds)) as [Hex | Hno].
  - destruct (IH (<[x.1.1 := IntValue x.1.2]> consts) Hex) as (c2 & Hc2 & Heq2 & Hl).
    exists c2. split; [by right | done].
  - apply Exists_cons in Hc as [Hx | Hc]; [ | done].
    exists x. split; [by left | split; [done |]].
    rewrite registered_lookup; [subst k; apply lookup_insert_eq |].
    intros c' Hc' Heq. apply Hno, Exists_exists. by exists c'.
Qed.
End ConstFile.

(** X5: the constants file of a handler never reuses a name registered by an
    earlier call.  When [generate_const_file] returns, its text is the lines
    of the commands the handler record holds afterwards, in their order;
    the label of each of them was not a key of [generated_consts] before the
    call and is one after it; and every constant registered before the call
    is still registered with the value it had. *)
Theorem const_file_never_reuses_a_registered_name (g g' : Generator.t) (fop fop' : Fops)
    (text : string) (cmds' : list command) :
  Generator.generate_const_file g fop = Ok (text, g', fop') ->
  commands fop' = Some cmds' ->
  text = const_lines cmds' /\
  (forall c', c' ∈ cmds' ->
     Generator.generated_consts g !! c'.1.1 = None /\
     is_Some (Generator.generated_consts g' !! c'.1.1)) /\
  (forall k v, Generator.generated_consts g !! k = Some v ->
               Generator.generated_consts g' !! k = Some v).
Proof.
  unfold Generator.generate_const_file. intros H Hcmds.
  destruct (commands fop) as [cmds|]; [ | discriminate].
  apply bind_Ok in H as (cmds1 & Hren & H). rewrite write_consts_spec in H.
  injection H as <- <- <-. simpl in Hcmds. injection Hcmds as <-.
  apply rename_already_used_consts_spec in Hren as [Hfresh _]. simpl.
  split; [done | split].
  - intros c' Hc'. split; [by apply Hfresh |].
    destruct (registered_is_Some cmds1 (Generator.generated_consts g) c'.1.1)
      as (c2 & _ & _ & ->); [ | done].
    apply Exists_exists. by exists c'.
  - intros k v Hk. rewrite registered_lookup; [done |].
    intros c Hc <-. destruct (Hfresh c Hc) as [Hnone _]. by rewrite Hk in Hnone.
Qed.

Lemma const_file_never_reuses_a_registered_name_witness :
  "BAR_syzdescriptor = 3" +:+ nl +:+ "FOO__syzdescriptor = 2" +:+ nl
  = const_lines bar_foo_written /\
  (forall c', c' ∈ bar_foo_written ->
     Generator.generated_consts foo_taken !! c'.1.1 = None /\
     is_Some (Generator.generated_consts foo_taken_after !! c'.1.1)) /\
  (forall k v, Generator.generated_consts foo_taken !! k = Some v ->
               Generator.generated_consts foo_taken_after !! k = Some v).
Proof.
  apply (const_file_never_reuses_a_registered_name foo_taken foo_taken_after
           (foo_fop [("FOO", 2, 11); ("BAR", 3, 12)]) (foo_fop bar_foo_written)
           ("BAR_syzdescriptor = 3" +:+ nl +:+ "FOO__syzdescriptor = 2" +:+ nl)).
  - vm_compute. reflexivity.
  - reflexivity.
Defined.

(** X6: the rename pass of [generate_const_file] changes labels only.  Each
    command the handler record holds after the call is a command it held
    before, with the same value and the same type id, under its label
    followed by underscores; there is at least one underscore exactly when
    the label was already a key of [generated_consts].  Each command held
    before has such a successor among the commands held after; two of them
    may have the same one, so that the set can shrink.  The statement is
    about membership only and holds whatever the iteration order of the sets
    is. *)
Theorem const_file_rename_keeps_values_and_types (g g' : Generator.t) (fop fop' : Fops)
    (text : string) (cmds cmds' : list command) :
  Generator.generate_const_file g fop = Ok (text, g', fop') ->
  commands fop = Some cmds ->
  commands fop' = Some cmds' ->
  (forall c', c' ∈ cmds' ->
     exists c k, c ∈ cmds /\ renamed_by k c c' /\
                 (k = 0%nat <-> Generator.generated_consts g !! c.1.1 = None)) /\
  (forall c, c ∈ cmds ->
     exists c' k, c' ∈ cmds' /\ renamed_by k c c' /\
                  (k = 0%nat <-> Generator.generated_consts g !! c.1.1 = None)).
Proof.
  unfold Generator.generate_const_file. intros H Hcmds Hcmds'. rewrite Hcmds in H.
  apply bind_Ok in H as (cmds1 & Hren & H). rewrite write_consts_spec in H.
  injection H as <- <- <-. simpl in Hcmds'. injection Hcmds' as <-.
  apply rename_already_used_consts_spec in Hren as [Hfrom Hall].
  split; [ | done]. intros c' Hc'. by destruct (Hfrom c' Hc').
Qed.

Lemma const_file_rename_keeps_values_and_types_witness :
  (forall c', c' ∈ bar_foo_written ->
     exists c k, c ∈ [("FOO", 2, 11); ("BAR", 3, 12)] /\ renamed_by k c c' /\
                 (k = 0%nat <-> Generator.generated_consts foo_taken !! c.1.1 = None)) /\
  (forall c, c ∈ [("FOO", 2, 11); ("BAR", 3, 12)] ->
     exists c' k, c' ∈ bar_foo_written /\ renamed_by k c c' /\
                  (k = 0%nat <-> Generator.generated_consts foo_taken !! c.1.1 = None)).
Proof.
  apply (const_file_rename_keeps_values_and_types foo_taken foo_taken_after
           (foo_fop [("FOO", 2, 11); ("BAR", 3, 12)]) (foo_fop bar_foo_written)
           (const_lines bar_foo_written)).
  - vm_compute. reflexivity.
  - reflexivity.
  - reflexivity.
Defined.

(** With [FOO] registered, the commands [FOO] and [FOO_] of one value and
    one type become the single command [FOO_]. *)
Example renamed_command_meets_another :
  Generator.generate_const_file foo_taken (foo_fop [("FOO", 1, 10); ("FOO_", 1, 10)])
  = Ok ("FOO__syzdescriptor = 1" +:+ nl,
        Generator.set_generated_consts Generator.init
          (<["FOO_" := IntValue 1]> {[ "FOO" := IntValue 1 ]}),
        foo_fop [("FOO_", 1, 10)]).
Proof. vm_compute. reflexivity. Qed.

(** ** The declarations of the generator *)

Lemma ArrayDeclaration_init_plain (inside : declaration) (size : Z) :
  plain inside -> plain (ArrayDeclaration_init inside size).
Proof.
  intros H. unfold ArrayDeclaration_init. simpl.
  case_bool_decide; split; try done; lia.
Qed.

Lemma generate_type_declaration_plain (db : ftdb) (fuel : nat) (g : Generator.t)
    (type_id : Z) (d : declaration) :
  Generator.generate_type_declaration db fuel g type_id = Ok d -> plain d.
Proof.
  revert type_id d. induction fuel as [|n IH]; intros type_id d H; [discriminate |].
  simpl in H.
  apply bind_Ok in H as (x & _ & H). apply bind_Ok in H as (t & _ & H).
  destruct (decide (t_class t = "record")).
  { injection H as <-. by destruct (Generator.assigned_name g (t_id t)). }
  destruct (decide (t_class t = "const_array" ∨ t_class t = "incomplete_array")).
  { apply bind_Ok in H as (r & _ & H). apply bind_Ok in H as (u & _ & H).
    apply bind_Ok in H as (r' & _ & H). apply bind_Ok in H as (inside & Hin & H).
    apply bind_Ok in H as (count & _ & H). injection H as <-.
    apply ArrayDeclaration_init_plain. by eapply IH. }
  destruct (decide (t_class t = "enum")).
  { injection H as <-. by destruct (Generator.assigned_name g (t_id t)). }
  destruct (decide (t_class t = "pointer")).
  { apply bind_Ok in H as (r & _ & H). apply bind_Ok in H as (r' & _ & H).
    apply bind_Ok in H as (inside & Hin & H). injection H as <-.
    split; [done | by eapply IH]. }
  destruct (decide (t_class t = "builtin" ∧ t_str t = "void")); [by injection H as <- |].
  destruct (decide (t_class t = "builtin" ∧ t_size t > 64)).
  { destruct (decide (t_size t `mod` 8 ≠ 0)); [discriminate |].
    injection H as <-. by apply ArrayDeclaration_init_plain. }
  destruct (decide (t_class t = "builtin")); by injection H as <-.
Qed.

(** X7: a declaration that [__generate_type_declaration] returns has no
    array of fewer than one element, whatever the sizes in the database are
    (zero, smaller than the element, negative), no optional pointer, and no
    length; the flags of an enum are laid out as [int32]. *)
Theorem type_declarations_are_plain (db : ftdb) (fuel : nat) (g : Generator.t)
    (type_id : Z) (d : declaration) :
  Generator.generate_type_declaration db fuel g type_id = Ok d -> plain d.
Proof. apply generate_type_declaration_plain. Qed.

Lemma type_declarations_are_plain_witness :
  plain (PointerDeclaration (ArrayDeclaration (IntegerDeclaration 32) 1) false).
Proof.
  apply (type_declarations_are_plain flex_db 4 Generator.init 4).
  vm_compute. reflexivity.
Defined.

(** X8: the argument of a generated ioctl is always a pointer.
    [__generate_ioctl_declaration] gives either nothing (the empty text of a
    [BaseDeclaration], when the type of the argument has no declaration) or
    an ioctl whose [arg] is a non-optional pointer declaration: the
    declaration of the type itself when the type is a pointer once its
    typedefs are resolved, a pointer to it otherwise. *)
Theorem ioctl_argument_is_a_pointer (db : ftdb) (fuel : nat) (g : Generator.t)
    (fd_name label : string) (type_id : Z) (s : string) :
  Generator.generate_ioctl_declaration db fuel g fd_name label type_id = Ok s ->
  s = "" \/
  exists inside d t,
    s = IoctlDeclaration_str fd_name label (PointerDeclaration inside false) /\
    plain inside /\
    TypeAnalysisPass.detypedef db fuel type_id = Ok d /\
    types_entry_by_id db d = Ok t /\
    (t_class t = "pointer" ->
     Generator.generate_type_declaration db fuel g type_id
     = Ok (PointerDeclaration inside false)) /\
    (t_class t <> "pointer" ->
     Generator.generate_type_declaration db fuel g type_id = Ok inside /\
     inside <> BaseDeclaration).
Proof.
  unfold Generator.generate_ioctl_declaration. intros H.
  apply bind_Ok in H as (d & Hd & H). apply bind_Ok in H as (t & Ht & H).
  apply bind_Ok in H as (a & Ha & H).
  pose proof (generate_type_declaration_plain db fuel g type_id a Ha) as Hplain.
  assert (Hcase : a = BaseDeclaration \/ a <> BaseDeclaration)
    by (destruct a; (by left) || (by right)).
  destruct Hcase as [-> | Hbase]; [left; by injection H as <- |].
  right.
  destruct (decide (t_class t = "pointer")) as [Hp | Hp].
  - assert (Hptr : exists inside, a = PointerDeclaration inside false).
    { destruct fuel as [|n]; [discriminate |]. simpl in Ha.
      apply bind_Ok in Ha as (d' & Hd' & Ha). apply bind_Ok in Ha as (t' & Ht' & Ha).
      assert (d' = d) as -> by (eapply detypedef_fuel; [exact Hd' | exact Hd]).
      assert (t' = t) as -> by congruence.
      destruct (decide (t_class t = "record")) as [Hc |]; [by rewrite Hp in Hc |].
      destruct (decide (t_class t = "const_array" ∨ t_class t = "incomplete_array"))
        as [[Hc | Hc] |]; [by rewrite Hp in Hc | by rewrite Hp in Hc |].
      destruct (decide (t_class t = "enum")) as [Hc |]; [by rewrite Hp in Hc |].
      destruct (decide (t_class t = "pointer")); [ | done].
      apply bind_Ok in Ha as (r & _ & Ha). apply bind_Ok in Ha as (r' & _ & Ha).
      apply bind_Ok in Ha as (inside & _ & Ha). injection Ha as <-. by exists inside. }
    destruct Hptr as (inside & ->). destruct Hplain as [_ Hplain].
    exists inside, d, t. cbv beta iota in H. injection H as <-.
    repeat split; done.
  - exists a, d, t.
    assert (Hs : s = IoctlDeclaration_str fd_name label (PointerDeclaration a false)).
    { destruct a; [done | ..]; by injection H as <-. }
    repeat split; done.
Qed.

Lemma ioctl_argument_is_a_pointer_witness :
  IoctlDeclaration_str "fd_x" "GET"
    (PointerDeclaration (ArrayDeclaration (IntegerDeclaration 32) 1) false) = "" \/
  exists inside d t,
    IoctlDeclaration_str "fd_x" "GET"
      (PointerDeclaration (ArrayDeclaration (IntegerDeclaration 32) 1) false)
    = IoctlDeclaration_str "fd_x" "GET" (PointerDeclaration inside false) /\
    plain inside /\
    TypeAnalysisPass.detypedef flex_db 4 3 = Ok d /\
    types_entry_by_id flex_db d = Ok t /\
    (t_class t = "pointer" ->
     Generator.generate_type_declaration flex_db 4 Generator.init 3
     = Ok (PointerDeclaration inside false)) /\
    (t_class t <> "pointer" ->
     Generator.generate_type_declaration flex_db 4 Generator.init 3 = Ok inside /\
     inside <> BaseDeclaration).
Proof.
  apply (ioctl_argument_is_a_pointer flex_db 4 Generator.init "fd_x" "GET" 3).
  vm_compute. reflexivity.
Defined.

(** ** The names of the types *)

Lemma underscores_length (k : nat) : String.length (underscores k) = k.
Proof. induction k as [|k IH]; simpl; [done | by rewrite IH]. Qed.

Lemma underscores_S_r (k : nat) : underscores k +:+ "_" = underscores (S k).
Proof.
  induction k as [|k IH]; [done |].
  change (underscores (S k)) with (String (Ascii.ascii_of_nat 95) (underscores k)) at 1.
  rewrite string_app_cons, IH. done.
Qed.

Lemma List_last_lookup {A : Type} (l : list A) (x d : A) :
  (x :: l) !! length l = Some (List.last (x :: l) d).
Proof.
  revert x. induction l as [|y l IH]; intros x; [done |].
  change ((y :: l) !! length l = Some (List.last (y :: l) d)). apply IH.
Qed.

Lemma name_chain_snoc (x : string) (names : list string) :
  name_chain (x :: names) ->
  name_chain ((x :: names) ++ [List.last (x :: names) x +:+ "_"]) /\
  List.last (x :: names) x +:+ "_" ∉ x :: names.
Proof.
  intros (n & Hn).
  assert (Hlast : List.last (x :: names) x = n +:+ underscores (length names))
    by (apply Hn, List_last_lookup).
  rewrite Hlast, string_app_assoc, underscores_S_r. split.
  - exists n. intros i nm Hi. apply lookup_app_Some in Hi as [Hi | [Hle Hi]]; [by apply Hn |].
    apply list_lookup_singleton_Some in Hi as [Hi <-].
    simpl in Hle, Hi. by replace i with (S (length names)) by lia.
  - intros Hin. apply list_elem_of_lookup in Hin as (i & Hi).
    pose proof (lookup_lt_Some _ _ _ Hi) as Hlt. simpl in Hlt.
    apply Hn in Hi. apply (f_equal String.length) in Hi.
    rewrite !string_app_length, !underscores_length in Hi. lia.
Qed.

Lemma assign_name_to_type_chain (db : ftdb) (fuel : nat) (g g' : Generator.t) (typeid : Z)
    (r : option (Z * string)) :
  names_chained g ->
  Generator.assign_name_to_type db fuel g typeid = Ok (r, g') ->
  names_chained g' /\
  match r with
  | None => g' = g
  | Some (id, nm) =>
      id = typeid /\
      Generator.assigned_name g' typeid = Some nm /\
      (forall names, Generator.generated_types g !! typeid = Some names -> nm ∉ names) /\
      forall j, j <> typeid ->
        Generator.generated_types g' !! j = Generator.generated_types g !! j
  end.
Proof.
  intros Hg H. unfold Generator.assign_name_to_type in H.
  assert (Hfirst : forall nm,
            (Generator.generated_types g !! typeid = None \/
             Generator.generated_types g !! typeid = Some []) ->
            names_chained
              (Generator.set_generated_types g
                 (<[typeid := [nm]]> (Generator.generated_types g))) /\
            typeid = typeid /\
            Generator.assigned_name
              (Generator.set_generated_types g
                 (<[typeid := [nm]]> (Generator.generated_types g))) typeid = Some nm /\
            (forall names, Generator.generated_types g !! typeid = Some names -> nm ∉ names) /\
            forall j, j <> typeid ->
              Generator.generated_types
                (Generator.set_generated_types g
                   (<[typeid := [nm]]> (Generator.generated_types g))) !! j
              = Generator.generated_types g !! j).
  { intros nm Hnone. split; [ | split; [done | split; [ | split]]].
    - intros id names. simpl. destruct (decide (id = typeid)) as [-> | Hne].
      + rewrite lookup_insert_eq. intros [= <-]. exists nm.
        intros [|i] x Hx; [ | done]. injection Hx as <-. simpl.
        by rewrite string_app_nil_r.
      + rewrite lookup_insert_ne by done. apply Hg.
    - unfold Generator.assigned_name. simpl. by rewrite lookup_insert_eq.
    - intros names Hn. destruct Hnone as [Hnone | Hnone]; rewrite Hnone in Hn;
        [discriminate |]. injection Hn as <-. by intros Hin; inversion Hin.
    - intros j Hj. simpl. by rewrite lookup_insert_ne. }
  destruct (Generator.generated_types g !! typeid) as [[|x names]|] eqn:Hty.
  - apply bind_Ok in H as (d & _ & H). apply bind_Ok in H as (t & _ & H).
    destruct (decide (t_class t ∉ ["record"; "enum"])); [by injection H as <- <- |].
    injection H as <- <-. apply Hfirst. by right.
  - injection H as <- <-. destruct (name_chain_snoc x names) as [Hchain Hfresh];
      [by eapply Hg |].
    split; [ | split; [done | split; [ | split]]].
    + intros id l. simpl. destruct (decide (id = typeid)) as [-> | Hne].
      * rewrite lookup_insert_eq. by intros [= <-].
      * rewrite lookup_insert_ne by done. apply Hg.
    + unfold Generator.assigned_name.
      cbn [Generator.generated_types Generator.set_generated_types].
      rewrite lookup_insert_eq.
      set (new := List.last (x :: names) x +:+ "_").
      change (Some (List.last ((x :: names) ++ [new]) x) = Some new).
      by rewrite List.last_last.
    + by intros l [= <-].
    + intros j Hj. simpl. by rewrite lookup_insert_ne.
  - apply bind_Ok in H as (d & _ & H). apply bind_Ok in H as (t & _ & H).
    destruct (decide (t_class t ∉ ["record"; "enum"])); [by injection H as <- <- |].
    injection H as <- <-. apply Hfirst. by left.
Qed.

(** X9: the names that [__assign_name_to_type] gives to one type id never
    repeat.  If the names recorded for every type id form a chain (a name,
    then the same name with one more underscore each time), they still do
    after a call; a call that returns a pair returns it for the type id
    asked, with a name that was not recorded for that id before and that is
    the last one recorded for it afterwards, and leaves the names of the
    other ids as they were; a call that returns nothing changes nothing. *)
Theorem assigned_type_names_never_repeat (db : ftdb) (fuel : nat) (g g' : Generator.t)
    (typeid : Z) (r : option (Z * string)) :
  names_chained g ->
  Generator.assign_name_to_type db fuel g typeid = Ok (r, g') ->
  names_chained g' /\
  match r with
  | None => g' = g
  | Some (id, nm) =>
      id = typeid /\
      Generator.assigned_name g' typeid = Some nm /\
      (forall names, Generator.generated_types g !! typeid = Some names -> nm ∉ names) /\
      forall j, j <> typeid ->
        Generator.generated_types g' !! j = Generator.generated_types g !! j
  end.
Proof. apply assign_name_to_type_chain. Qed.

Lemma assigned_type_names_never_repeat_witness :
  names_chained
    (Generator.set_generated_types len_len_generator {[ 5 := ["req"; "req_"] ]}) /\
  5 = 5 /\
  Generator.assigned_name
    (Generator.set_generated_types len_len_generator {[ 5 := ["req"; "req_"] ]}) 5
  = Some "req_" /\
  (forall names, Generator.generated_types len_len_generator !! 5 = Some names ->
                 "req_" ∉ names) /\
  forall j, j <> 5 ->
    Generator.generated_types
      (Generator.set_generated_types len_len_generator {[ 5 := ["req"; "req_"] ]}) !! j
    = Generator.generated_types len_len_generator !! j.
Proof.
  apply (assigned_type_names_never_repeat len_len_db 4 len_len_generator
           (Generator.set_generated_types len_len_generator {[ 5 := ["req"; "req_"] ]})
           5 (Some (5, "req_"))).
  - intros id names H. unfold len_len_generator in H. simpl in H.
    apply lookup_singleton_Some in H as [<- <-].
    exists "req". intros [|i] nm; [intros [= <-]; reflexivity | done].
  - vm_compute. reflexivity.
Defined.

(** *** The generator after a description *)

Lemma assign_name_to_type_frame (db : ftdb) (fuel : nat) (g g' : Generator.t) (typeid : Z)
    (r : option (Z * string)) :
  Generator.assign_name_to_type db fuel g typeid = Ok (r, g') ->
  Generator.generated_consts g' = Generator.generated_consts g /\
  Generator.bounds g' = Generator.bounds g /\
  Generator.cycles g' = Generator.cycles g.
Proof.
  unfold Generator.assign_name_to_type. intros H.
  destruct (Generator.generated_types g !! typeid) as [[|y names]|];
    try (apply bind_Ok in H as (d & _ & H); apply bind_Ok in H as (t & _ & H);
         destruct (decide (t_class t ∉ ["record"; "enum"])));
    by injection H as <- <-.
Qed.

Lemma assign_names_frame (db : ftdb) (fuel : nat) (g g' : Generator.t) (ds : list Z)
    (named : list (Z * string)) :
  Generator.assign_names db fuel g ds = Ok (named, g') ->
  Generator.generated_consts g' = Generator.generated_consts g /\
  Generator.bounds g' = Generator.bounds g /\
  Generator.cycles g' = Generator.cycles g /\
  (names_chained g -> names_chained g').
Proof.
  unfold Generator.assign_names. intros H.
  refine (for_each_invariant
            (fun st : list (Z * string) * Generator.t =>
               Generator.generated_consts st.2 = Generator.generated_consts g /\
               Generator.bounds st.2 = Generator.bounds g /\
               Generator.cycles st.2 = Generator.cycles g /\
               (names_chained g -> names_chained st.2))
            _ _ _ _ _ _ H).
  - intros [nmd g1] x [nmd' g2] Hx (Hc & Hb & Hy & Hch) Hstep. simpl in *.
    apply bind_Ok in Hstep as ([r g3] & Hr & Hstep). injection Hstep as <- <-.
    destruct (assign_name_to_type_frame _ _ _ _ _ _ Hr) as (Hc' & Hb' & Hy').
    repeat split; [congruence | congruence | congruence |].
    intros Hg. by destruct (assign_name_to_type_chain _ _ _ _ _ _ (Hch Hg) Hr).
  - done.
Qed.

(** X10: what a description leaves in the generator.  The path constant of
    the description is [SYZDESCRIPTOR_PATH_<syscall id>] followed by as many
    underscores as it takes to be new: it was not registered before the
    call, so it differs from the path constant of every earlier description,
    also of one for the same syscall id.  After the call it is registered
    with the empty value, the other constants are as they were, [bounds] and
    [cycles] are unset again, and the names of the types still form
    chains. *)
Theorem description_registers_a_new_path_constant (db : ftdb)
    (set_order : list (Z * string) -> list (Z * string)) (fuel : nat) (today : string)
    (g g' : Generator.t) (fop : Fops) (text : string) :
  Generator.generate_description db set_order fuel today g fop = Ok (text, g') ->
  exists k,
    let path := "SYZDESCRIPTOR_PATH_" +:+ pretty (syscall_id fop) +:+ underscores k in
    Generator.generated_consts g !! path = None /\
    (forall j, (j < k)%nat ->
       is_Some (Generator.generated_consts g
                  !! ("SYZDESCRIPTOR_PATH_" +:+ pretty (syscall_id fop) +:+ underscores j))) /\
    Generator.generated_consts g' = <[path := StrValue ""]> (Generator.generated_consts g) /\
    Generator.bounds g' = None /\ Generator.cycles g' = None /\
    (names_chained g -> names_chained g').
Proof.
  unfold Generator.generate_description. intros H.
  apply bind_Ok in H as (ds & _ & H).
  apply bind_Ok in H as ([named g1] & Hnames & H).
  apply bind_Ok in H as (path & Hpath & H).
  apply bind_Ok in H as (cmds & _ & H).
  apply bind_Ok in H as (b1 & _ & H).
  apply bind_Ok in H as (b & _ & H). apply bind_Ok in H as (c & _ & H).
  apply bind_Ok in H as (b2 & _ & H). injection H as <- <-.
  apply assign_names_frame in Hnames as (Hc & _ & _ & Hch).
  apply find_new_const_name_loop_first_free in Hpath as (k & -> & Hfree & Hused).
  rewrite Hc in Hfree, Hused. exists k. simpl. rewrite Hc.
  rewrite <- string_app_assoc. repeat split; try done.
Qed.

Lemma description_registers_a_new_path_constant_witness :
  exists k,
    let path := "SYZDESCRIPTOR_PATH_" +:+ pretty (syscall_id pair_fop) +:+ underscores k in
    Generator.generated_consts pair_second !! path = None /\
    (forall j, (j < k)%nat ->
       is_Some (Generator.generated_consts pair_second
                  !! ("SYZDESCRIPTOR_PATH_" +:+ pretty (syscall_id pair_fop)
                      +:+ underscores j))) /\
    Generator.generated_consts pair_second_after
    = <[path := StrValue ""]> (Generator.generated_consts pair_second) /\
    Generator.bounds pair_second_after = None /\
    Generator.cycles pair_second_after = None /\
    (names_chained pair_second -> names_chained pair_second_after).
Proof.
  apply (description_registers_a_new_path_constant pair_db id 8 "2024-01-01"
           pair_second pair_second_after pair_fop
           (Generator.generate_header "2024-01-01" "fd_pair_fops" "SYZDESCRIPTOR_PATH_9_" 9
            +:+ OpenDeclaration_str "pair_fops" "SYZDESCRIPTOR_PATH_9_" "fd_pair_fops" +:+ nl
            +:+ pair_definition_a +:+ pair_definition_b)).
  vm_compute. reflexivity.
Defined.

(** ** The files of the driver *)

Lemma process_name (db : ftdb) (fuel wfuel : nat) (p : GenerationDriver.pass)
    (fop fop' : Fops) (b : bool) :
  GenerationDriver.process db fuel wfuel p fop = Ok (fop', b) ->
  name fop' = name fop /\ syscall_id fop' = syscall_id fop.
Proof.
  destruct p; simpl; intros H.
  - unfold IoctlAnalysisPass.process in H. apply bind_Ok in H as (c & _ & H).
    by injection H as <- <-.
  - unfold TypeAnalysisPass.process in H. destruct (commands fop); [ | discriminate].
    apply bind_Ok in H as (a & _ & H). apply bind_Ok in H as (k & _ & H).
    by injection H as <- <-.
  - unfold PointerCyclesPass.process in H. destruct (commands fop); [ | discriminate].
    apply bind_Ok in H as (c & _ & H). by injection H as <- <-.
  - unfold PointerBoundsPass.process in H. apply bind_Ok in H as (r & _ & H).
    by injection H as <- <-.
Qed.

Lemma run_passes_name (db : ftdb) (fuel wfuel : nat) (ps : list (GenerationDriver.pass * bool))
    (fop fop' : Fops) :
  GenerationDriver.run_passes db fuel wfuel ps fop = Ok (Some fop') ->
  name fop' = name fop /\ syscall_id fop' = syscall_id fop.
Proof.
  revert fop. induction ps as [|[p skip] ps IH]; intros fop H; simpl in H.
  - by injection H as <-.
  - destruct (GenerationDriver.process db fuel wfuel p fop) as [[fop1 ok]| |] eqn:Hp;
      [ | discriminate | discriminate].
    apply process_name in Hp as [Hn Hs].
    destruct (skip && negb ok); [discriminate |].
    apply IH in H as [Hn' Hs']. split; congruence.
Qed.

(** X11: the driver never overwrites a file.  When [__generate_description]
    returns for a handler, the collector, the passes, the output path and
    the architecture of the driver are as before, and either the driver is
    unchanged altogether (a pass discarded the handler) or its files are the
    files it had and two more, [<output>/<name>_<architecture>.const] and
    [<output>/<name>.txt] for the name of the handler, neither of which
    existed; every file that existed keeps its content. *)
Theorem driver_adds_two_new_files_or_none (db : ftdb)
    (set_order : list (Z * string) -> list (Z * string)) (fuel wfuel : nat) (today : string)
    (drv drv' : GenerationDriver.t) (fop : Fops) :
  GenerationDriver.generate_description db set_order fuel wfuel today drv fop = Ok drv' ->
  same_setup drv drv' /\
  (drv' = drv \/ adds_two_files drv drv' (name fop)) /\
  forall path text,
    GenerationDriver.files drv !! path = Some text ->
    GenerationDriver.files drv' !! path = Some text.
Proof.
  unfold GenerationDriver.generate_description. intros H.
  apply bind_Ok in H as ([fop1|] & Hpasses & H).
  2: { injection H as <-. split; [by repeat split | split; [by left | done]]. }
  apply run_passes_name in Hpasses as [Hname _].
  unfold GenerationDriver.dump_file in H. rewrite Hname in H.
  fold (const_path drv (name fop)) in H. fold (desc_path drv (name fop)) in H.
  destruct (GenerationDriver.files drv !! const_path drv (name fop)) eqn:Hconst;
    [discriminate |].
  apply bind_Ok in H as ([[text1 g1] fop2] & _ & H).
  destruct (<[const_path drv (name fop) := text1]> (GenerationDriver.files drv)
              !! desc_path drv (name fop)) eqn:Hdesc; [discriminate |].
  apply bind_Ok in H as ([text2 g2] & _ & H). injection H as <-.
  assert (Hne : const_path drv (name fop) <> desc_path drv (name fop)).
  { intros Heq. rewrite Heq in Hdesc. by rewrite lookup_insert_eq in Hdesc. }
  rewrite lookup_insert_ne in Hdesc by done.
  split; [by repeat split | split].
  - right. split; [done | split; [done | split; [done |]]]. by exists text1, text2.
  - intros path text Hp. simpl.
    rewrite !lookup_insert_ne; [done | congruence | congruence].
Qed.

Lemma driver_adds_two_new_files_or_none_witness :
  same_setup node_driver node_driver_after /\
  (node_driver_after = node_driver \/
   adds_two_files node_driver node_driver_after (name node_handler)) /\
  forall path text,
    GenerationDriver.files node_driver !! path = Some text ->
    GenerationDriver.files node_driver_after !! path = Some text.
Proof.
  apply (driver_adds_two_new_files_or_none node_db id 8 8 "2024-01-01"
           node_driver node_driver_after node_handler).
  vm_compute. reflexivity.
Defined.

(** ** The table of the user-copy functions *)

Lemma dict_set_elem {K V : Type} `{EqDecision K} (k : K) (v : V) (d : list (K * V))
    (p : K * V) :
  p ∈ dict_set k v d -> p = (k, v) \/ p ∈ d.
Proof.
  induction d as [|[k0 v0] d IH]; simpl.
  - intros H. apply list_elem_of_singleton in H. by left.
  - destruct (decide (k0 = k)) as [-> | Hne]; rewrite !elem_of_cons; [tauto |].
    intros [-> | H]; [auto |]. destruct (IH H); auto.
Qed.

Lemma dict_get_key {K V : Type} `{EqDecision K} (k : K) (d : list (K * V)) :
  k ∈ map fst d -> exists v, dict_get k d = Ok v /\ (k, v) ∈ d.
Proof.
  induction d as [|[k0 v0] d IH]; simpl; [intros H; inversion H |].
  rewrite elem_of_cons. intros Hk.
  destruct (decide (k0 = k)) as [-> | Hne]; [exists v0; split; [done | by left] |].
  destruct Hk as [-> | Hk]; [done |].
  destruct (IH Hk) as (v & Hv & Hin). exists v. split; [done | by right].
Qed.

Lemma init_id_to_name_values (db : ftdb) (p : Z * string) :
  p ∈ PointerBoundsPass.init_id_to_name db -> p.2 ∈ ["copy_from_user"; "copy_to_user"].
Proof.
  unfold PointerBoundsPass.init_id_to_name. simpl.
  assert (Hinner : forall nm fs d,
    p ∈ fold_left (fun d function_object => dict_set (f_id function_object) nm d) fs d ->
    p ∈ d \/ p.2 = nm).
  { intros nm fs. induction fs as [|g gs IH]; intros d; simpl; [auto |].
    intros H. apply IH in H as [H | H]; [ | auto].
    apply dict_set_elem in H as [-> | H]; auto. }
  intros H. apply Hinner in H as [H | ->]; [ | set_solver].
  apply Hinner in H as [H | ->]; [inversion H | set_solver].
Qed.

Lemma call_indexes_elem (id_to_name : list (Z * string)) (f : ftdb_func) (i : nat) :
  i ∈ PointerBoundsPass.call_indexes id_to_name f ->
  exists fid, fid ∈ map fst id_to_name /\ f_calls f !! i = Some fid.
Proof.
  unfold PointerBoundsPass.call_indexes. intros H.
  apply elem_of_concat in H as (l & Hl & Hi).
  apply list_elem_of_In, in_map_iff in Hl as (fid & <- & Hfid).
  unfold PointerBoundsPass.find_indexes_of_element in Hi.
  apply list_elem_of_filter in Hi as [Hi _].
  exists fid. split; [by apply list_elem_of_In | done].
Qed.

Lemma py_index_lookup {A : Type} (l : list A) (i : nat) (x : A) :
  l !! i = Some x -> py_index l (Z.of_nat i) = Ok x.
Proof.
  intros H. pose proof (lookup_lt_Some _ _ _ H) as Hlt. unfold py_index.
  repeat case_bool_decide; try lia. by rewrite Nat2Z.id, H.
Qed.

(** X12: for the pass as the driver builds it, every call site that
    [analyze_bounds] selects in a function is a call of a function of the
    database named [copy_from_user] or [copy_to_user], and it is scanned
    with the two models of that function, the size argument 2 with the
    pointer arguments 0 and 1: neither the lookup of the callee in
    [id_to_name] nor that of the name in [BINDING_CALLS] fails. *)
Theorem selected_call_sites_are_scanned_with_both_models (db : ftdb) (wfuel : nat)
    (f : ftdb_func) (res : gmap Z (list MemberBounds)) (i : nat) :
  i ∈ PointerBoundsPass.call_indexes (PointerBoundsPass.init_id_to_name db) f ->
  (exists g, f_calls f !! i = Some (f_id g) /\ g ∈ db_funcs db /\
             f_name g ∈ ["copy_from_user"; "copy_to_user"]) /\
  PointerBoundsPass.scan_call db (PointerBoundsPass.init_id_to_name db) wfuel f res i
  = for_each (PointerBoundsPass.scan_model db wfuel f i) [(2, 0); (2, 1)] res.
Proof.
  intros Hi. apply call_indexes_elem in Hi as (fid & Hkey & Hcall). split.
  - apply init_id_to_name_keys in Hkey as (g & Hg & <- & Hn). by exists g.
  - unfold PointerBoundsPass.scan_call. rewrite (py_index_lookup _ _ _ Hcall). simpl.
    apply dict_get_key in Hkey as (nm & -> & Hin). simpl.
    apply init_id_to_name_values in Hin. simpl in Hin.
    apply elem_of_cons in Hin as [-> | Hin]; [done |].
    apply list_elem_of_singleton in Hin as ->. done.
Qed.

Lemma selected_call_sites_are_scanned_with_both_models_witness :
  (exists g, f_calls req_ioctl !! 0%nat = Some (f_id g) /\ g ∈ db_funcs buf_len_db /\
             f_name g ∈ ["copy_from_user"; "copy_to_user"]) /\
  PointerBoundsPass.scan_call buf_len_db (PointerBoundsPass.init_id_to_name buf_len_db) 4
    req_ioctl ∅ 0
  = for_each (PointerBoundsPass.scan_model buf_len_db 4 req_ioctl 0) [(2, 0); (2, 1)] ∅.
Proof.
  apply (selected_call_sites_are_scanned_with_both_models buf_len_db 4 req_ioctl ∅ 0).
  vm_compute. left.
Defined.

(** ** The commands that IoctlAnalysisPass harvests *)

Section Harvest.
Context (db : ftdb).

Lemma funcs_entry_by_id_id (fid : Z) (f : ftdb_func) :
  funcs_entry_by_id db fid = Ok f -> f_id f = fid.
Proof.
  unfold funcs_entry_by_id. intros H. apply from_option_Ok in H.
  apply find_some in H as [_ H]. by apply bool_decide_eq_true in H.
Qed.

(** Every function that the search returns has a switch on the local that
    the search followed to it. *)
Lemma recursively_pick_switched (fuel : nat) (chain : list Z)
    (fid argument_id depth max_depth : Z) (functions : list (Z * Z))
    (log : list invocation) :
  IoctlAnalysisPass.recursively_pick_traced db fuel chain fid argument_id depth max_depth
  = Ok (functions, log) ->
  forall fa, fa ∈ functions -> switched_on db fa.
Proof.
  revert chain fid argument_id depth functions log.
  induction fuel as [|n IH]; intros chain fid argument_id depth functions log H;
    simpl in H; [discriminate |].
  destruct (bool_decide (depth > max_depth)).
  { injection H as <- <-. intros fa Hfa. inversion Hfa. }
  destruct (IoctlAnalysisPass.lookup_argument_name db fid argument_id) as [nm | e |] eqn:Hnm.
  2, 3: injection H as <- <-; intros fa Hfa; inversion Hfa.
  apply bind_Ok in H as (targeted_switch & Hsw & H).
  apply bind_Ok in H as (forwarded & _ & H).
  revert H.
  apply (for_each_invariant
           (fun st : list (Z * Z) * list invocation =>
              forall fa, fa ∈ st.1 -> switched_on db fa)).
  - intros [fs lg] cand [fs' lg'] _ Hinv Hstep. simpl in *.
    apply bind_Ok in Hstep as ([sub sublog] & Hsub & Hstep). injection Hstep as <- <-.
    intros fa Hfa. apply elem_of_app in Hfa as [Hfa | Hfa]; [by apply Hinv |].
    by eapply IH.
  - simpl. intros fa Hfa. destruct targeted_switch as [|s ss] eqn:Hts; [inversion Hfa |].
    apply list_elem_of_singleton in Hfa as ->.
    unfold IoctlAnalysisPass.lookup_argument_name in Hnm.
    apply bind_Ok in Hnm as (f & Hf & Hnm). apply fmap_Ok in Hnm as (l & Hl & ->).
    unfold IoctlAnalysisPass.pick_switchcases_by_argument_name in Hsw.
    rewrite Hf in Hsw. simpl in Hsw. injection Hsw as Hsw.
    exists f, l. split; [done | split; [done |]]. simpl. by rewrite Hsw.
Qed.

(** On functions that all have their switch, the harvest goes through all
    of them. *)
Lemma harvest_functions_all (functions : list (Z * Z)) (cases : list command) :
  (forall fa, fa ∈ functions -> switched_on db fa) ->
  IoctlAnalysisPass.harvest_functions db functions cases
  = Ok (fold_left (IoctlAnalysisPass.harvest_case db)
                  (concat (map (cases_on db) functions)) cases).
Proof.
  revert cases. induction functions as [|[function_id argument_id] rest IH];
    intros cases Hsw; simpl; [done |].
  destruct (Hsw (function_id, argument_id)) as (f & l & Hf & Hl & Hne); [by left |].
  simpl in Hf, Hl. rewrite Hf. simpl. rewrite Hl. simpl.
  unfold IoctlAnalysisPass.pick_switchcases_by_argument_name.
  rewrite (funcs_entry_by_id_id _ _ Hf), Hf. simpl.
  unfold cases_on at 1. simpl. rewrite Hf, Hl.
  destruct (filter (fun switch => sw_condition switch = l_name l) (f_switches f))
    as [|s ss] eqn:Hfilter; [done |].
  rewrite fold_left_app. apply IH. intros fa Hfa. apply Hsw. by right.
Qed.

Lemma get_ftdb_type_id_from_string_Some (type_name : string) (i : Z) :
  IoctlAnalysisPass.get_ftdb_type_id_from_string db type_name = Some i ->
  exists t, t ∈ db_types db /\ t_id t = i /\
            t_str t = (IoctlAnalysisPass.strip_type type_name).1 /\
            t_class t ∉ IoctlAnalysisPass.FORWARD_DECLARED_TYPES.
Proof.
  unfold IoctlAnalysisPass.get_ftdb_type_id_from_string. intros H.
  destruct (filter (fun x => t_class x ∉ IoctlAnalysisPass.FORWARD_DECLARED_TYPES)
              (filter (fun x => t_str x = (IoctlAnalysisPass.strip_type type_name).1)
                      (db_types db))) as [|t ts] eqn:Hfilter; [discriminate |].
  injection H as <-.
  assert (Ht : t ∈ t :: ts) by by left. rewrite <- Hfilter in Ht.
  apply list_elem_of_filter in Ht as [Hclass Ht].
  apply list_elem_of_filter in Ht as [Hstr Ht]. by exists t.
Qed.

Lemma harvest_case_harvested (case : ftdb_case) (cases : list command) :
  (exists f l switch,
     f ∈ db_funcs db /\ l ∈ f_locals f /\ switch ∈ f_switches f /\
     sw_condition switch = l_name l /\ case ∈ sw_cases switch) ->
  (forall c, c ∈ cases -> harvested db c) ->
  forall c, c ∈ IoctlAnalysisPass.harvest_case db cases case -> harvested db c.
Proof.
  intros (f & l & switch & Hf & Hl & Hsw & Hcond & Hcase) Hold c.
  unfold IoctlAnalysisPass.harvest_case.
  destruct (search_sizeof (case_3 case)) as [type_name|] eqn:Hsearch; [ | apply Hold].
  destruct (IoctlAnalysisPass.get_ftdb_type_id_from_string db type_name) as [i|] eqn:Hid;
    [ | apply Hold].
  destruct (decide (i = 0)) as [| Hnz]; [apply Hold |].
  intros Hc. apply elem_of_set_add in Hc as [-> | Hc]; [ | by apply Hold].
  apply get_ftdb_type_id_from_string_Some in Hid as (t & Ht & <- & Hstr & Hclass).
  exists f, l, switch, case, type_name, t. repeat split; done.
Qed.

Lemma cases_on_elem (fa : Z * Z) (case : ftdb_case) :
  case ∈ cases_on db fa ->
  exists f l switch,
    f ∈ db_funcs db /\ l ∈ f_locals f /\ switch ∈ f_switches f /\
    sw_condition switch = l_name l /\ case ∈ sw_cases switch.
Proof.
  unfold cases_on. intros H.
  destruct (funcs_entry_by_id db fa.1) as [f| |] eqn:Hf; [ | inversion H | inversion H].
  destruct (py_index (f_locals f) fa.2) as [l| |] eqn:Hl; [ | inversion H | inversion H].
  apply elem_of_concat in H as (cs & Hcs & Hcase).
  apply list_elem_of_In, in_map_iff in Hcs as (switch & <- & Hsw).
  apply list_elem_of_In, list_elem_of_filter in Hsw as [Hcond Hsw].
  exists f, l, switch. repeat split; try done.
  - by eapply funcs_entry_by_id_elem.
  - by eapply py_index_elem.
Qed.

Lemma fold_harvest_case_harvested (cs : list ftdb_case) (cases : list command) :
  (forall case, case ∈ cs ->
     exists f l switch,
       f ∈ db_funcs db /\ l ∈ f_locals f /\ switch ∈ f_switches f /\
       sw_condition switch = l_name l /\ case ∈ sw_cases switch) ->
  (forall c, c ∈ cases -> harvested db c) ->
  forall c, c ∈ fold_left (IoctlAnalysisPass.harvest_case db) cs cases -> harvested db c.
Proof.
  revert cases. induction cs as [|case cs IH]; intros cases Hcs Hold; simpl; [done |].
  apply IH.
  - intros case' Hcase'. apply Hcs. by right.
  - apply harvest_case_harvested; [apply Hcs; by left | done].
Qed.

Lemma analyze_switch_cases_all (fuel : nat) (fid : Z) (cmds : list command) :
  IoctlAnalysisPass.analyze_switch_cases db fuel fid = Ok cmds ->
  exists functions,
    IoctlAnalysisPass.recursively_pick_ioctl_with_switchcase db fuel fid 1 1 3 = Ok functions /\
    (forall fa, fa ∈ functions -> switched_on db fa) /\
    cmds = fold_left (IoctlAnalysisPass.harvest_case db)
                     (concat (map (cases_on db) functions)) [].
Proof.
  unfold IoctlAnalysisPass.analyze_switch_cases. intros H.
  apply bind_Ok in H as (functions & Hpick & H). exists functions.
  assert (Hsw : forall fa, fa ∈ functions -> switched_on db fa).
  { unfold IoctlAnalysisPass.recursively_pick_ioctl_with_switchcase in Hpick.
    apply fmap_Ok in Hpick as ([fs log] & Hpick & ->).
    by eapply recursively_pick_switched. }
  split; [done | split; [done |]].
  destruct functions as [|fa functions]; [by injection H as <- |].
  rewrite harvest_functions_all in H by done. by injection H as <-.
Qed.
End Harvest.

(** X13: [analyze_switch_cases] harvests every function that the search
    returns.  Each of them has a switch on the local the search followed to
    it, so its lookups in the loop succeed and the [return cases] of the
    loop is never taken: the result is what the cases of all these
    functions, in the order of the search, add to the empty set. *)
Theorem every_function_found_is_harvested (db : ftdb) (fuel : nat) (fid : Z)
    (cmds : list command) :
  IoctlAnalysisPass.analyze_switch_cases db fuel fid = Ok cmds ->
  exists functions,
    IoctlAnalysisPass.recursively_pick_ioctl_with_switchcase db fuel fid 1 1 3 = Ok functions /\
    (forall fa, fa ∈ functions -> switched_on db fa) /\
    cmds = fold_left (IoctlAnalysisPass.harvest_case db)
                     (concat (map (cases_on db) functions)) [].
Proof. apply analyze_switch_cases_all. Qed.

Lemma every_function_found_is_harvested_witness :
  exists functions,
    IoctlAnalysisPass.recursively_pick_ioctl_with_switchcase node_db 8 42 1 1 3
    = Ok functions /\
    (forall fa, fa ∈ functions -> switched_on node_db fa) /\
    [("NODE_CMD", 1, 1)]
    = fold_left (IoctlAnalysisPass.harvest_case node_db)
                (concat (map (cases_on node_db) functions)) [].
Proof.
  apply (every_function_found_is_harvested node_db 8 42 [("NODE_CMD", 1, 1)]).
  vm_compute. reflexivity.
Defined.

(** X14: every command that [IoctlAnalysisPass.process] stores in a handler
    record is read off a case of a switch of a function of the database, on
    one of the locals of that function: the label and the value are those
    of the case, and the type id is the non-zero id of a type entry that is
    not a forward declaration and whose name is the stripped operand of the
    first [sizeof(...)] in the expanded text of the case. *)
Theorem commands_come_from_switch_cases (db : ftdb) (fuel : nat) (fops fops' : Fops)
    (status : bool) (cmds : list command) :
  IoctlAnalysisPass.process db fuel fops = Ok (fops', status) ->
  commands fops' = Some cmds ->
  forall c, c ∈ cmds -> harvested db c.
Proof.
  unfold IoctlAnalysisPass.process, IoctlAnalysisPass.analyze_ioctl_commands.
  intros H Hcmds. apply bind_Ok in H as (cs & H & Hret). injection Hret as <- <-.
  simpl in Hcmds. injection Hcmds as <-.
  apply bind_Ok in H as (a & Ha & H). injection H as <-. simpl.
  apply analyze_switch_cases_all in Ha as (functions & _ & _ & ->).
  apply fold_harvest_case_harvested; [ | intros c Hc; inversion Hc].
  intros case Hcase. apply elem_of_concat in Hcase as (cs & Hcs & Hcase).
  apply list_elem_of_In, in_map_iff in Hcs as (fa & <- & _).
  by eapply cases_on_elem.
Qed.

Lemma commands_come_from_switch_cases_witness :
  harvested node_db ("NODE_CMD", 1, 1).
Proof.
  apply (commands_come_from_switch_cases node_db 8 node_handler node_fop true
           [("NODE_CMD", 1, 1)]).
  - vm_compute. reflexivity.
  - reflexivity.
  - by left.
Defined.

(** ** The [sizeof] pattern *)

Lemma substring_full (s : string) : String.substring 0 (String.length s) s = s.
Proof. induction s as [|c s IH]; simpl; [done | by rewrite IH]. Qed.

Lemma prefix_app (p s : string) :
  String.prefix p s = true ->
  s = p +:+ String.substring (String.length p) (String.length s - String.length p) s.
Proof.
  revert s. induction p as [|a p IH]; intros s H.
  - simpl. rewrite Nat.sub_0_r. by rewrite substring_full.
  - destruct s as [|b s]; simpl in H; [discriminate |].
    destruct (Ascii.ascii_dec a b) as [-> |]; [ | discriminate].
    rewrite string_app_cons. f_equal. simpl. by apply IH.
Qed.

Lemma prefix_app_r (p r : string) : String.prefix p (p +:+ r) = true.
Proof.
  induction p as [|a p IH]; [by destruct r |].
  rewrite string_app_cons. simpl. by destruct (Ascii.ascii_dec a a).
Qed.

Lemma substring_app_drop (p r : string) :
  String.substring (String.length p) (String.length (p +:+ r) - String.length p) (p +:+ r) = r.
Proof.
  induction p as [|a p IH].
  - simpl. rewrite Nat.sub_0_r. apply substring_full.
  - rewrite string_app_cons. simpl. apply IH.
Qed.

Lemma span_class_spec (s g rest : string) :
  span_class s = (g, rest) ->
  s = g +:+ rest /\ all_class g = true /\
  forall c rest', rest = String c rest' -> sizeof_class c = false.
Proof.
  revert g rest. induction s as [|c s IH]; intros g rest H; simpl in H.
  - injection H as <- <-. by repeat split.
  - destruct (sizeof_class c) eqn:Hc.
    + destruct (span_class s) as [g' rest'] eqn:Hs. injection H as <- <-.
      destruct (IH g' rest' eq_refl) as (-> & Hall & Hrest).
      split; [done | split; [ | done]]. simpl. by rewrite Hc, Hall.
    + injection H as <- <-. split; [done | split; [done |]].
      intros c' rest' [= <- <-]. done.
Qed.

Lemma span_class_closed (g post : string) :
  all_class g = true -> span_class (g +:+ ")" +:+ post) = (g, ")" +:+ post).
Proof.
  induction g as [|c g IH]; intros H; [done |].
  simpl in H. apply andb_true_iff in H as [Hc Hg].
  rewrite string_app_cons. simpl. by rewrite Hc, (IH Hg).
Qed.

Lemma match_sizeof_here_spec (s g : string) :
  match_sizeof_here s = Some g <-> exists post, sizeof_match s "" g post.
Proof.
  unfold match_sizeof_here, sizeof_match. split.
  - destruct (String.prefix "sizeof(" s) eqn:Hp; [ | discriminate].
    apply prefix_app in Hp.
    change (String.length "sizeof(") with 7%nat in Hp.
    destruct (span_class (String.substring 7 (String.length s - 7) s)) as [grp rest] eqn:Hs.
    destruct (negb (bool_decide (grp = "")) && String.prefix ")" rest) eqn:Hc; [ | discriminate].
    intros [= <-]. apply andb_true_iff in Hc as [Hne Hclose].
    apply negb_true_iff, bool_decide_eq_false in Hne.
    apply prefix_app in Hclose. apply span_class_spec in Hs as (Hr & Hall & _).
    exists (String.substring (String.length ")") (String.length rest - String.length ")") rest).
    split; [ | done]. rewrite <- Hclose, <- Hr. exact Hp.
  - intros (post & Hs & Hne & Hall).
    change (s = "sizeof(" +:+ g +:+ ")" +:+ post) in Hs. subst s.
    rewrite prefix_app_r.
    change 7%nat with (String.length "sizeof("). rewrite substring_app_drop.
    rewrite span_class_closed by done.
    rewrite bool_decide_eq_false_2 by done. simpl. by rewrite prefix_app_r.
Qed.

Lemma search_sizeof_spec (s : string) :
  match search_sizeof s with
  | Some g =>
      exists pre post,
        sizeof_match s pre g post /\
        forall pre' g' post',
          sizeof_match s pre' g' post' ->
          (String.length pre <= String.length pre')%nat /\ (pre' = pre -> g' = g)
  | None => forall pre g post, ~ sizeof_match s pre g post
  end.
Proof.
  induction s as [|c s IH].
  - simpl. intros pre g post (Hs & _). destruct pre; discriminate.
  - change (search_sizeof (String c s))
      with (match match_sizeof_here (String c s) with
            | Some grp => Some grp
            | None => search_sizeof s
            end).
    destruct (match_sizeof_here (String c s)) as [g|] eqn:Hhere.
    + apply match_sizeof_here_spec in Hhere as (post & Hm).
      exists "", post. split; [done |]. intros pre' g' post' Hm'. split; [simpl; lia |].
      intros ->. assert (Hg' : match_sizeof_here (String c s) = Some g')
        by (apply match_sizeof_here_spec; by exists post').
      assert (Hg : match_sizeof_here (String c s) = Some g)
        by (apply match_sizeof_here_spec; by exists post).
      congruence.
    + assert (Hshift : forall pre' g' post',
                sizeof_match (String c s) pre' g' post' ->
                exists pre'', pre' = String c pre'' /\ sizeof_match s pre'' g' post').
      { intros pre' g' post' Hm'. destruct pre' as [|c' pre''].
        - assert (match_sizeof_here (String c s) = Some g')
            by (apply match_sizeof_here_spec; by exists post').
          congruence.
        - destruct Hm' as (Hs & Hne & Hall). rewrite string_app_cons in Hs.
          injection Hs as <- Hs. by exists pre''. }
      destruct (search_sizeof s) as [g|].
      * destruct IH as (pre & post & (Hs & Hne & Hall) & Hmin).
        exists (String c pre), post. split.
        { split; [by rewrite string_app_cons, <- Hs | done]. }
        intros pre' g' post' Hm'.
        destruct (Hshift _ _ _ Hm') as (pre'' & -> & Hm'').
        destruct (Hmin _ _ _ Hm'') as [Hlen Heq]. split; [simpl; lia |].
        intros [= ->]. by apply Heq.
      * intros pre' g' post' Hm'.
        destruct (Hshift _ _ _ Hm') as (pre'' & -> & Hm''). by eapply IH.
Qed.

(** X15: a case of a switch gives [analyze_switch_cases] at most one
    command, and the leftmost [sizeof(...)] of its expanded text alone
    decides which.  Either the text is [pre sizeof( g ) post] for a
    non-empty [g] of characters of the class, no match of the pattern starts
    before [pre] ends and none there has another group, and the case adds
    the command of the type that [g] names, or nothing when [g] names none;
    or the text has no match and the case adds nothing. *)
Theorem case_type_is_read_off_the_leftmost_sizeof (db : ftdb) (cases : list command)
    (case : ftdb_case) :
  (exists pre g post,
     sizeof_match (case_3 case) pre g post /\
     (forall pre' g' post',
        sizeof_match (case_3 case) pre' g' post' ->
        (String.length pre <= String.length pre')%nat /\ (pre' = pre -> g' = g)) /\
     IoctlAnalysisPass.harvest_case db cases case
     = match IoctlAnalysisPass.get_ftdb_type_id_from_string db g with
       | Some type_id =>
           if decide (type_id = 0) then cases
           else set_add (case_2 case, case_0 case, type_id) cases
       | None => cases
       end) \/
  ((forall pre g post, ~ sizeof_match (case_3 case) pre g post) /\
   IoctlAnalysisPass.harvest_case db cases case = cases).
Proof.
  pose proof (search_sizeof_spec (case_3 case)) as Hspec.
  unfold IoctlAnalysisPass.harvest_case.
  destruct (search_sizeof (case_3 case)) as [g|].
  - left. destruct Hspec as (pre & post & Hm & Hleft). by exists pre, g, post.
  - by right.
Qed.

(** Of two [sizeof] in one case the first names the type; a no-break space
    (U+00A0) is white space of the class. *)
Example first_sizeof_names_the_type :
  IoctlAnalysisPass.harvest_case node_db []
    {| case_0 := 1; case_1 := 1; case_2 := "NODE_CMD";
       case_3 := "_IOC(3, 'n', 1, sizeof(struct node) + sizeof(int))" |}
  = [("NODE_CMD", 1, 1)] /\
  search_sizeof ("sizeof(unsigned" +:+ String (Ascii.ascii_of_nat 160) "int)")
  = Some ("unsigned" +:+ String (Ascii.ascii_of_nat 160) "int").
Proof. split; vm_compute; reflexivity. Qed.

(** ** The nesting of TypeAnalysisPass on types that refer to each other *)

Lemma succeeds_Ok {A : Type} (r : result A) : succeeds r = true -> exists a, r = Ok a.
Proof. destruct r as [a| |]; [by exists a | discriminate | discriminate]. Qed.

Lemma map_each_succeeds {A B : Type} (f : A -> result B) (l : list A) :
  (forall x, x ∈ l -> exists y, f x = Ok y) -> exists ys, map_each f l = Ok ys.
Proof.
  induction l as [|x l IH]; intros H; simpl; [by exists [] |].
  destruct (H x) as (y & ->); [by left |].
  destruct IH as (ys & ->); [intros x' Hx'; apply H; by right |].
  by exists (y :: ys).
Qed.

Lemma filter_each_succeeds {A : Type} (p : A -> result bool) (l : list A) :
  (forall x, x ∈ l -> exists b, p x = Ok b) -> exists ys, filter_each p l = Ok ys.
Proof.
  induction l as [|x l IH]; intros H; simpl; [by exists [] |].
  destruct (H x) as (b & ->); [by left |].
  destruct IH as (ys & ->); [intros x' Hx'; apply H; by right |].
  simpl. by eexists.
Qed.

Section DfsTermination.
Context (db : ftdb) (T : nat).
Hypothesis Hwf : refs_resolve db T = true.

Lemma detypedef_loop_mono (f f' : nat) (t : ftdb_type) (u : Z) :
  (f <= f')%nat ->
  TypeAnalysisPass.detypedef_loop db f t = Ok u ->
  TypeAnalysisPass.detypedef_loop db f' t = Ok u.
Proof.
  revert f' t. induction f as [|n IH]; intros f' t Hle H.
  - simpl in H. destruct (decide (t_class t = "typedef")) as [| Hc]; [discriminate |].
    destruct f'; simpl; by rewrite decide_False.
  - destruct f' as [|n']; [lia |]. simpl in H |- *.
    destruct (decide (t_class t = "typedef")); [ | done].
    apply bind_Ok in H as (r & Hr & H). apply bind_Ok in H as (t' & Ht' & H).
    rewrite Hr. simpl. rewrite Ht'. simpl. apply IH; [lia | done].
Qed.

Lemma detypedef_mono (f f' : nat) (i u : Z) :
  (f <= f')%nat ->
  TypeAnalysisPass.detypedef db f i = Ok u -> TypeAnalysisPass.detypedef db f' i = Ok u.
Proof.
  unfold TypeAnalysisPass.detypedef. intros Hle H.
  apply bind_Ok in H as (t & Ht & H). rewrite Ht. simpl. by eapply detypedef_loop_mono.
Qed.

Lemma types_entry_by_id_elem (i : Z) (t : ftdb_type) :
  types_entry_by_id db i = Ok t -> t ∈ db_types db.
Proof.
  unfold types_entry_by_id. intros H. apply from_option_Ok in H.
  apply find_some in H as [H _]. by apply list_elem_of_In.
Qed.

Lemma refs_detypedef (x r : Z) (t : ftdb_type) (n : nat) :
  types_entry_by_id db x = Ok t -> r ∈ t_refs t -> (T <= n)%nat ->
  exists d t', TypeAnalysisPass.detypedef db n r = Ok d /\ types_entry_by_id db d = Ok t'.
Proof.
  intros Ht Hr Hn. apply types_entry_by_id_elem in Ht.
  unfold refs_resolve in Hwf. rewrite forallb_forall in Hwf.
  apply list_elem_of_In, Hwf in Ht. rewrite forallb_forall in Ht.
  apply list_elem_of_In, Ht, succeeds_Ok in Hr as (d & Hd).
  exists d. destruct (detypedef_non_typedef db _ _ _ Hd) as (t' & Ht' & _).
  exists t'. split; [by eapply detypedef_mono | done].
Qed.

Lemma unvisited_mono (found found' : list Z) :
  found ⊆ found' -> (unvisited db found' <= unvisited db found)%nat.
Proof.
  intros Hsub. unfold unvisited.
  induction (map t_id (db_types db)) as [|i l IH]; simpl; [done |].
  rewrite !filter_cons. destruct (decide (i ∉ found')) as [Hn' | Hn'].
  - rewrite decide_True by (intros Hi; by apply Hn', Hsub). simpl. lia.
  - destruct (decide (i ∉ found)); simpl; lia.
Qed.

Lemma unvisited_add (found : list Z) (x : Z) (t : ftdb_type) :
  types_entry_by_id db x = Ok t -> x ∉ found ->
  (unvisited db (set_add x found) < unvisited db found)%nat.
Proof.
  intros Ht Hx.
  assert (Hin : x ∈ map t_id (db_types db)).
  { apply list_elem_of_In, in_map_iff. exists t. split.
    - by eapply types_entry_by_id_id.
    - by apply list_elem_of_In, types_entry_by_id_elem with (i := x). }
  unfold unvisited. induction (map t_id (db_types db)) as [|i l IH]; [inversion Hin |].
  rewrite !filter_cons.
  assert (Hle : (length (filter (fun i => i ∉ set_add x found) l)
                 <= length (filter (fun i => i ∉ found) l))%nat).
  { clear. induction l as [|j l IHl]; simpl; [done |]. rewrite !filter_cons.
    destruct (decide (j ∉ set_add x found)) as [Hj | Hj].
    - rewrite decide_True; [simpl; lia |]. intros Hin. apply Hj, elem_of_set_add. by right.
    - destruct (decide (j ∉ found)); simpl; lia. }
  destruct (decide (i = x)) as [-> | Hne].
  - rewrite decide_False by (intros Hn; apply Hn, elem_of_set_add; by left).
    rewrite decide_True by done. simpl. lia.
  - apply elem_of_cons in Hin as [-> | Hin]; [done |]. specialize (IH Hin).
    destruct (decide (i ∉ set_add x found)) as [Hi | Hi].
    + rewrite decide_True; [simpl; lia |]. intros Hn. apply Hi, elem_of_set_add. by right.
    + destruct (decide (i ∉ found)); simpl; lia.
Qed.

Lemma find_unique_type_dependencies_rec_succeeds (m fuel : nat) (found : list Z) (x : Z)
    (t : ftdb_type) :
  (unvisited db found <= m)%nat -> (m + T + 1 <= fuel)%nat ->
  types_entry_by_id db x = Ok t ->
  exists found', TypeAnalysisPass.find_unique_type_dependencies_rec db fuel x found = Ok found'.
Proof.
  revert fuel found x t. induction m as [|m IH]; intros fuel found x t Hm Hfuel Ht;
    (destruct fuel as [|n]; [lia |]); simpl;
    (destruct (decide (x ∈ found)) as [| Hx]; [by eexists |]);
    pose proof (unvisited_add found x t Ht Hx) as Hlt; [lia |].
  rewrite Ht. simpl.
  destruct (decide (t_class t = "enum")); [by eexists |].
  assert (Hloop : forall l S,
            l ⊆ t_refs t -> set_add x found ⊆ S ->
            exists S', for_each (fun found ref =>
                                   d ← TypeAnalysisPass.detypedef db n ref;
                                   TypeAnalysisPass.find_unique_type_dependencies_rec db n d found)
                                l S = Ok S').
  { induction l as [|r l IHl]; intros S Hl HS; simpl; [by eexists |].
    destruct (refs_detypedef x r t n Ht) as (d & t' & -> & Ht'); [apply Hl; by left | lia |].
    simpl. destruct (IH n S d t') as (S1 & HS1); [ | lia | done |].
    { pose proof (unvisited_mono _ _ HS). lia. }
    rewrite HS1. simpl. apply IHl; [intros r' Hr'; apply Hl; by right |].
    apply find_unique_type_dependencies_rec_post in HS1 as (_ & Hsub & _). by etrans. }
  by apply Hloop.
Qed.

Lemma find_unique_type_dependencies_succeeds (fuel : nat) (root : Z) :
  succeeds (TypeAnalysisPass.detypedef db T root) = true ->
  (length (db_types db) + T + 1 <= fuel)%nat ->
  exists S, TypeAnalysisPass.find_unique_type_dependencies db fuel root = Ok S.
Proof.
  intros Hroot Hfuel. apply succeeds_Ok in Hroot as (d & Hd).
  unfold TypeAnalysisPass.find_unique_type_dependencies.
  rewrite (detypedef_mono T fuel root d) by (lia || done). simpl.
  destruct (detypedef_non_typedef db _ _ _ Hd) as (t & Ht & _).
  apply (find_unique_type_dependencies_rec_succeeds (length (db_types db)) fuel [] d t);
    [ | lia | done].
  unfold unvisited. etrans; [apply length_filter |]. by rewrite length_map.
Qed.
End DfsTermination.

(** X16: [TypeAnalysisPass.process] does not loop on types that refer to
    each other, and its recursion nests no deeper than the database is
    large.  On every database in which each reference leads through at most
    [T] typedefs to an entry, for a handler whose command roots do, however
    the records refer to each other, the pass returns without an exception
    whenever the interpreter allows [limit] nested invocations, [limit]
    being at least the number of type entries plus [T + 1]: the set [found]
    stops the search on types that contain themselves through pointers.
    Where the interpreter allows less, a deeper search ends in
    [RecursionError], the exhausted fuel of the model; nothing is said of
    such a run. *)
Theorem type_analysis_nests_no_deeper_than_the_types (db : ftdb) (T limit : nat)
    (fops : Fops) (cmds : list command) :
  refs_resolve db T = true ->
  commands fops = Some cmds ->
  forallb (fun c : command => succeeds (TypeAnalysisPass.detypedef db T c.2)) cmds = true ->
  (length (db_types db) + T + 1 <= limit)%nat ->
  exists fops' status, TypeAnalysisPass.process db limit fops = Ok (fops', status).
Proof.
  intros Hwf Hcmds Hroots Hfuel. unfold TypeAnalysisPass.process. rewrite Hcmds.
  rewrite forallb_forall in Hroots.
  destruct (map_each_succeeds
              (fun c : command => TypeAnalysisPass.find_unique_type_dependencies db limit c.2)
              cmds) as (all & Hall).
  { intros c Hc. apply find_unique_type_dependencies_succeeds with (T := T); [done | | done].
    by apply Hroots, list_elem_of_In. }
  rewrite Hall. simpl.
  destruct (filter_each_succeeds (TypeAnalysisPass.contains_fields db limit) (concat all))
    as (kept & Hkept).
  { intros y Hy. apply elem_of_concat in Hy as (S & HS & Hy).
    apply map_each_Ok in Hall.
    assert (Hfrom : exists c : command,
              TypeAnalysisPass.find_unique_type_dependencies db limit c.2 = Ok S).
    { clear -Hall HS. induction Hall as [|c S' cs Ss Hc _ IH]; [inversion HS |].
      apply elem_of_cons in HS as [-> | HS]; [by exists c | by apply IH]. }
    destruct Hfrom as (c & Hc).
    destruct (find_unique_type_dependencies_post db _ _ _ Hc y Hy) as [Hnt _].
    unfold TypeAnalysisPass.contains_fields. rewrite (detypedef_fixed db limit y Hnt). simpl.
    destruct Hnt as (t & -> & _). simpl. by eexists. }
  rewrite Hkept. simpl. by eexists _, _.
Qed.

Lemma type_analysis_nests_no_deeper_than_the_types_witness :
  exists fops' status, TypeAnalysisPass.process node_db 6 node_fop = Ok (fops', status).
Proof.
  apply (type_analysis_nests_no_deeper_than_the_types node_db 1 6 node_fop
           [("NODE_CMD", 1, 1)]).
  - vm_compute. reflexivity.
  - reflexivity.
  - vm_compute. reflexivity.
  - simpl. lia.
Defined.

(** ** The nesting of PointerCyclesPass on types that refer to each other *)

Lemma for_each_succeeds {A S : Type} (body : S -> A -> result S) (l : list A) (s : S) :
  (forall s x, x ∈ l -> exists s', body s x = Ok s') -> exists s', for_each body l s = Ok s'.
Proof.
  revert s. induction l as [|x l IH]; intros s H; simpl; [by eexists |].
  destruct (H s x) as (s1 & ->); [by left |]. simpl.
  apply IH. intros s' x' Hx'. apply H. by right.
Qed.

Section CyclesTermination.
Context (db : ftdb) (T : nat).
Hypothesis Hwf : refs_dereference db T = true.

Lemma dereference_loop_mono (f f' : nat) (t : ftdb_type) (u : Z) :
  (f <= f')%nat ->
  TypeAnalysisPass.dereference_loop db f t = Ok u ->
  TypeAnalysisPass.dereference_loop db f' t = Ok u.
Proof.
  revert f' t. induction f as [|n IH]; intros f' t Hle H.
  - simpl in H. destruct (decide (t_class t ∈ ["pointer"; "typedef"])) as [| Hc];
      [discriminate |].
    destruct f'; simpl; by rewrite decide_False.
  - destruct f' as [|n']; [lia |]. simpl in H |- *.
    destruct (decide (t_class t ∈ ["pointer"; "typedef"])); [ | done].
    apply bind_Ok in H as (r & Hr & H). apply bind_Ok in H as (t' & Ht' & H).
    rewrite Hr. simpl. rewrite Ht'. simpl. apply IH; [lia | done].
Qed.

Lemma refs_dereference_spec (x r : Z) (t : ftdb_type) (n : nat) :
  types_entry_by_id db x = Ok t -> r ∈ t_refs t -> (T <= n)%nat ->
  exists rt d t',
    types_entry_by_id db r = Ok rt /\
    TypeAnalysisPass.dereference db n r = Ok d /\ types_entry_by_id db d = Ok t'.
Proof.
  intros Ht Hr Hn. apply types_entry_by_id_elem in Ht.
  unfold refs_dereference in Hwf. rewrite forallb_forall in Hwf.
  apply list_elem_of_In, Hwf in Ht. rewrite forallb_forall in Ht.
  apply list_elem_of_In, Ht, succeeds_Ok in Hr as (d & Hd).
  unfold TypeAnalysisPass.dereference in Hd |- *.
  apply bind_Ok in Hd as (rt & Hrt & Hd). exists rt, d.
  destruct (dereference_loop_direct db _ _ _ (types_entry_by_id_self db _ _ Hrt) Hd)
    as [(t' & Ht' & _) _].
  exists t'. rewrite Hrt. simpl. split; [done | split; [ | done]].
  by eapply dereference_loop_mono.
Qed.

Lemma analyze_pointer_cycles_rec_succeeds (m fuel : nat) (traversed : list Z) (x : Z)
    (t : ftdb_type) :
  (unvisited db traversed <= m)%nat -> (m + T + 1 <= fuel)%nat ->
  types_entry_by_id db x = Ok t ->
  exists r, PointerCyclesPass.analyze_pointer_cycles_rec db fuel x traversed = Ok r.
Proof.
  revert fuel traversed x t. induction m as [|m IH]; intros fuel traversed x t Hm Hfuel Ht;
    (destruct fuel as [|n]; [lia |]); simpl;
    (destruct (decide (x ∈ traversed)) as [| Hx]; [by eexists |]);
    pose proof (unvisited_add db traversed x t Ht Hx) as Hlt; [lia |].
  rewrite Ht. simpl.
  destruct (decide (t_class t ≠ "record")); [by eexists |].
  destruct (for_each_succeeds (PointerCyclesPass.record_cycle db n x traversed)
              (imap pair (t_refs t)) ∅) as (own & ->).
  { intros cycles fld Hfld. apply elem_of_lookup_imap_1 in Hfld as (i & r & -> & Hir).
    destruct (refs_dereference_spec x r t n Ht) as (rt & d & t' & Hrt & Hd & _);
      [by eapply list_elem_of_lookup_2 | lia |].
    unfold PointerCyclesPass.record_cycle. rewrite Hrt. simpl.
    destruct (decide (t_class rt ≠ "pointer")); [by eexists |].
    rewrite Hd. simpl. destruct (decide (d ∈ traversed)); [ | by eexists].
    destruct (cycles !! x) as [[|? ?]|]; by eexists. }
  simpl.
  assert (Hloop : forall l st,
            l ⊆ t_refs t -> set_add x traversed ⊆ st.2 ->
            exists st',
              for_each (PointerCyclesPass.merge_branch db n
                          (PointerCyclesPass.analyze_pointer_cycles_rec db n)) l st = Ok st').
  { induction l as [|r l IHl]; intros [cycles tr] Hl Htr; simpl in Htr; [by eexists |].
    assert (Hstep : exists st1,
              PointerCyclesPass.merge_branch db n
                (PointerCyclesPass.analyze_pointer_cycles_rec db n) (cycles, tr) r = Ok st1 /\
              set_add x traversed ⊆ st1.2).
    { unfold PointerCyclesPass.merge_branch.
      destruct (decide (r ∈ tr)); [by eexists |].
      destruct (refs_dereference_spec x r t n Ht) as (rt & d & t' & _ & Hd & Ht');
        [apply Hl; by left | lia |].
      rewrite Hd. simpl. destruct (IH n tr d t') as ([sub tr1] & Hsub); [ | lia | done |].
      { pose proof (unvisited_mono db _ _ Htr). lia. }
      rewrite Hsub. simpl. eexists. split; [done |]. simpl.
      apply analyze_pointer_cycles_rec_keys in Hsub as [Hsub _]. by etrans. }
    destruct Hstep as (st1 & Hst1 & Htr1). cbn [for_each]. rewrite Hst1. simpl.
    apply IHl; [intros r' Hr'; apply Hl; by right | done]. }
  by apply Hloop.
Qed.
End CyclesTermination.

(** X17: [PointerCyclesPass.process] does not loop on records that point at
    each other, and its recursion nests no deeper than the database is
    large.  On every database in which each reference leads through at most
    [T] pointers and typedefs to an entry, for a handler whose command roots
    resolve their typedefs, however the records point at each other, the
    pass returns [True] without an exception whenever the interpreter allows
    [limit] nested invocations, [limit] being at least the number of type
    entries plus [T + 1]: the set [traversed] stops the analysis on rings of
    records.  Where the interpreter allows less, a deeper analysis ends in
    [RecursionError], the exhausted fuel of the model; nothing is said of
    such a run. *)
Theorem pointer_cycles_nest_no_deeper_than_the_types (db : ftdb) (T limit : nat)
    (fops : Fops) (cmds : list command) :
  refs_dereference db T = true ->
  commands fops = Some cmds ->
  forallb (fun c : command => succeeds (TypeAnalysisPass.detypedef db T c.2)) cmds = true ->
  (length (db_types db) + T + 1 <= limit)%nat ->
  exists fops', PointerCyclesPass.process db limit fops = Ok (fops', true).
Proof.
  intros Hwf Hcmds Hroots Hfuel. unfold PointerCyclesPass.process. rewrite Hcmds.
  rewrite forallb_forall in Hroots.
  destruct (for_each_succeeds (PointerCyclesPass.merge_root db limit) cmds ∅) as (res & ->);
    [ | by eexists].
  intros acc c Hc. unfold PointerCyclesPass.merge_root, PointerCyclesPass.analyze_pointer_cycles.
  apply list_elem_of_In, Hroots, succeeds_Ok in Hc as (d & Hd).
  rewrite (detypedef_mono db T limit c.2 d) by (lia || done). simpl.
  destruct (detypedef_non_typedef db _ _ _ Hd) as (t & Ht & _).
  destruct (analyze_pointer_cycles_rec_succeeds db T Hwf (length (db_types db)) limit [] d t)
    as ([sub tr] & ->); [ | lia | done | by eexists].
  unfold unvisited. etrans; [apply length_filter |]. by rewrite length_map.
Qed.

Lemma pointer_cycles_nest_no_deeper_than_the_types_witness :
  exists fops', PointerCyclesPass.process ring_db 8 ring_fop = Ok (fops', true).
Proof.
  apply (pointer_cycles_nest_no_deeper_than_the_types ring_db 1 8 ring_fop [get_a; get_c]).
  - vm_compute. reflexivity.
  - reflexivity.
  - vm_compute. reflexivity.
  - simpl. lia.
Defined.

(** On the ring of three records the passes need the nesting they are
    given: with a smaller one the search and the analysis run out of it. *)
Example a_ring_needs_its_nesting :
  TypeAnalysisPass.process ring_db 5 ring_fop = Diverges /\
  succeeds (TypeAnalysisPass.process ring_db 6 ring_fop) = true /\
  PointerCyclesPass.process ring_db 3 ring_fop = Diverges /\
  succeeds (PointerCyclesPass.process ring_db 4 ring_fop) = true.
Proof. repeat split; vm_compute; reflexivity. Qed.

(** ** The optional pointers of a record definition *)

Lemma py_index_seq {A : Type} (l : list A) (i : Z) (x : A) :
  py_index l i = Ok x <->
  exists j, py_index (seq 0 (length l)) i = Ok j /\ l !! j = Some x.
Proof.
  unfold py_index. rewrite length_seq.
  set (k := if bool_decide (i < 0) then i + Z.of_nat (length l) else i).
  case_bool_decide as Hk.
  - rewrite lookup_seq_lt by lia. simpl. split.
    + intros H. apply from_option_Ok in H. by exists (Z.to_nat k).
    + intros (j & [= <-] & ->). done.
  - split; [discriminate | intros (j & Hj & _); discriminate].
Qed.

Section OptionalPointers.
Context (db : ftdb).

Lemma apply_cycle_spec (fields fields' : list RecordField) (c : PointerCycle) :
  Generator.apply_cycle fields c = Ok fields' ->
  exists j,
    py_index (seq 0 (length fields)) (member_position c) = Ok j /\
    fields' = alter (fun f => {| field_name := field_name f;
                                 type_decl := set_optional (type_decl f) |}) j fields.
Proof. unfold Generator.apply_cycle. apply py_update_Ok. Qed.

Lemma apply_cycle_marked (fields fields' : list RecordField) (c : PointerCycle) (pos : Z) :
  marked fields pos ->
  Generator.apply_cycle fields c = Ok fields' -> marked fields' pos.
Proof.
  intros (fld & Hfld & Hopt) H. apply apply_cycle_spec in H as (j & _ & ->).
  apply py_index_seq in Hfld as (i & Hi & Hfi).
  destruct (decide (i = j)) as [-> | Hne].
  - exists {| field_name := field_name fld; type_decl := set_optional (type_decl fld) |}.
    split.
    + apply py_index_seq. exists j. rewrite length_alter. split; [done |].
      by rewrite list_lookup_alter_eq, Hfi.
    + simpl. intros inside b Hb. destruct (type_decl fld); try discriminate.
      by injection Hb as _ <-.
  - exists fld. split; [ | done]. apply py_index_seq. exists i. rewrite length_alter.
    split; [done |]. by rewrite list_lookup_alter_ne.
Qed.

Lemma apply_cycles_spec (cs : list PointerCycle) (fields fields' : list RecordField) :
  for_each Generator.apply_cycle cs fields = Ok fields' ->
  length fields' = length fields /\
  (forall i fld inside,
     fields' !! i = Some fld -> type_decl fld = PointerDeclaration inside true ->
     (exists fld0, fields !! i = Some fld0 /\ type_decl fld0 = PointerDeclaration inside true) \/
     exists pc, pc ∈ cs /\ py_index (seq 0 (length fields)) (member_position pc) = Ok i) /\
  (forall pc, pc ∈ cs -> marked fields' (member_position pc)).
Proof.
  revert fields. induction cs as [|c cs IH]; intros fields H.
  - injection H as <-. split; [done | split].
    + intros i fld inside Hi Hfld. left. by exists fld.
    + intros pc Hpc. inversion Hpc.
  - apply for_each_cons_Ok in H as (fields1 & Hc & H).
    pose proof Hc as Hstep. apply apply_cycle_spec in Hstep as (j & Hj & Hf1).
    assert (Hlen1 : length fields1 = length fields) by (by rewrite Hf1, length_alter).
    destruct (IH _ H) as (Hlen & Hopt & Hmarked). split; [congruence | split].
    + intros i fld inside Hi Hfld.
      destruct (Hopt i fld inside Hi Hfld) as [(fld1 & Hi1 & Hfld1) | (pc & Hpc & Hpos)].
      * destruct (decide (i = j)) as [-> | Hne].
        -- right. exists c. split; [by left | done].
        -- left. exists fld1. split; [ | done].
           by rewrite Hf1, list_lookup_alter_ne in Hi1.
      * right. exists pc. split; [by right | by rewrite <- Hlen1].
    + intros pc Hpc. apply elem_of_cons in Hpc as [-> | Hpc]; [ | by apply Hmarked].
      assert (Hm1 : marked fields1 (member_position c)).
      { destruct (lookup_lt_is_Some_2 fields j) as [old Hold].
        { unfold py_index in Hj. rewrite length_seq in Hj.
          case_bool_decide; [ | discriminate]. apply from_option_Ok in Hj.
          apply lookup_seq in Hj as [-> Hlt]. simpl. lia. }
        exists {| field_name := field_name old; type_decl := set_optional (type_decl old) |}.
        split.
        - apply py_index_seq. exists j. rewrite Hlen1. split; [done |].
          by rewrite Hf1, list_lookup_alter_eq, Hold.
        - simpl. intros inside b Hb. destruct (type_decl old); try discriminate.
          by injection Hb as _ <-. }
      revert H.
      apply (for_each_invariant (fun fs => marked fs (member_position c))); [ | done].
      intros fs c' fs' _ Hfs Hstep. by eapply apply_cycle_marked.
Qed.

Lemma apply_bound_no_optional (fields fields' : list RecordField) (mb : MemberBounds) :
  Forall (fun f => forall inside, type_decl f <> PointerDeclaration inside true) fields ->
  Generator.apply_bound fields mb = Ok fields' ->
  Forall (fun f => forall inside, type_decl f <> PointerDeclaration inside true) fields'.
Proof.
  intros Hall H. unfold Generator.apply_bound in H.
  apply bind_Ok in H as (binding & _ & H). apply bind_Ok in H as (fb & _ & H).
  apply py_update_Ok in H as (j & _ & ->).
  rewrite Forall_lookup in Hall |- *. intros i fld Hi.
  destruct (decide (i = j)) as [-> | Hne].
  - rewrite list_lookup_alter_eq in Hi.
    destruct (fields !! j) as [old|]; [ | discriminate]. by injection Hi as <-.
  - rewrite list_lookup_alter_ne in Hi by done. by eapply Hall.
Qed.

Lemma generate_record_definition_optional (fuel : nat) (g : Generator.t) (id : Z)
    (name def_name : string) (union u : bool) (fields : list RecordField) :
  Generator.generate_record_definition db fuel g id name union
  = Ok (RecordDefinition def_name fields u) ->
  exists C, Generator.cycles g = Some C /\
            optional_from (default [] (C !! id)) fields /\
            forall pc, pc ∈ default [] (C !! id) -> marked fields (member_position pc).
Proof.
  unfold Generator.generate_record_definition. intros H.
  apply bind_Ok in H as (d & _ & H). apply bind_Ok in H as (t & _ & H).
  apply bind_Ok in H as ([fields0 cnt] & Hfields0 & H).
  apply bind_Ok in H as (B & _ & H).
  apply bind_Ok in H as (fields1 & Hfields1 & H).
  apply bind_Ok in H as (C & HC & H). apply from_option_Ok in HC.
  apply bind_Ok in H as (fields2 & Hfields2 & H). injection H as <- <- <-.
  exists C. split; [done |].
  assert (H0 : Forall (fun f => forall inside, type_decl f <> PointerDeclaration inside true)
                      fields0).
  { revert Hfields0.
    apply (for_each_invariant
             (fun st : list RecordField * Z =>
                Forall (fun f => forall inside, type_decl f <> PointerDeclaration inside true)
                       st.1)); [ | constructor].
    intros [fs c] nt [fs' c'] _ Hfs Hstep. simpl in *.
    destruct (Generator.filter_anonymous_type_names c nt.1) as [fname c''].
    apply bind_Ok in Hstep as (decl & Hdecl & Hstep). injection Hstep as <- <-.
    apply Forall_app. split; [done |]. constructor; [ | constructor]. simpl.
    intros inside ->. apply generate_type_declaration_plain in Hdecl as [Hopt _].
    discriminate. }
  assert (H1 : Forall (fun f => forall inside, type_decl f <> PointerDeclaration inside true)
                      fields1).
  { destruct (B !! id) as [[|b bs]|]; try (by injection Hfields1 as <-).
    revert Hfields1. apply for_each_invariant; [ | done].
    intros fs mb fs' _ Hfs. by apply apply_bound_no_optional. }
  destruct (C !! id) as [[|c cs]|]; simpl.
  1, 3: injection Hfields2 as <-; split; [ | intros pc Hpc; inversion Hpc];
        intros i fld inside Hi Hfld; rewrite Forall_lookup in H1;
        by destruct (H1 i fld Hi inside).
  apply apply_cycles_spec in Hfields2 as (Hlen & Hopt & Hmarked). split; [ | done].
  intros i fld inside Hi Hfld.
  destruct (Hopt i fld inside Hi Hfld) as [(fld1 & Hi1 & Hfld1) | (pc & Hpc & Hpos)].
  - rewrite Forall_lookup in H1. by destruct (H1 i fld1 Hi1 inside).
  - exists pc. split; [done | by rewrite Hlen].
Qed.
End OptionalPointers.

(** X18: a field of a generated record definition is declared as an
    optional pointer only at a position that an entry of the cycles held
    for the type indexes; and at the position of every such entry there is
    a field which, if it is declared as a pointer, is optional (an entry
    whose position is outside the fields makes the generator raise). *)
Theorem optional_pointers_come_from_cycles (db : ftdb) (fuel : nat) (g : Generator.t)
    (id : Z) (name def_name : string) (union u : bool) (fields : list RecordField) :
  Generator.generate_record_definition db fuel g id name union
  = Ok (RecordDefinition def_name fields u) ->
  exists C, Generator.cycles g = Some C /\
            optional_from (default [] (C !! id)) fields /\
            forall pc, pc ∈ default [] (C !! id) -> marked fields (member_position pc).
Proof. apply generate_record_definition_optional. Qed.

Lemma optional_pointers_come_from_cycles_witness :
  exists C, Generator.cycles ring_generator = Some C /\
            optional_from (default [] (C !! 2)) ring_fields_b /\
            forall pc, pc ∈ default [] (C !! 2) -> marked ring_fields_b (member_position pc).
Proof.
  apply (optional_pointers_come_from_cycles ring_db 8 ring_generator 2 "b" "b" false false).
  vm_compute. reflexivity.
Defined.

(** ** The header of a description, read back by the postprocessor *)

Lemma prefix_cons_ne (c x : Ascii.ascii) (sub s : string) :
  x <> c -> String.prefix (String c sub) (String x s) = false.
Proof. intros Hne. simpl. destruct (Ascii.ascii_dec c x); [congruence | done]. Qed.

(** A search passes over a text in which the first character of what is
    sought does not occur. *)
Lemma py_find_from_skip (c : Ascii.ascii) (sub w tail : string) (i : Z) :
  lacks c w = true ->
  py_find_from (String c sub) (w +:+ tail) i
  = py_find_from (String c sub) tail (i + Z.of_nat (String.length w)).
Proof.
  revert i. induction w as [|x w IH]; intros i Hw.
  - simpl. f_equal. lia.
  - simpl in Hw. apply andb_true_iff in Hw as [Hx Hw].
    apply negb_true_iff, bool_decide_eq_false in Hx.
    rewrite string_app_cons.
    change (py_find_from (String c sub) (String x (w +:+ tail)) i)
      with (if String.prefix (String c sub) (String x (w +:+ tail)) then i
            else py_find_from (String c sub) (w +:+ tail) (i + 1)).
    rewrite prefix_cons_ne by done. rewrite IH by done. f_equal.
    change (String.length (String x w)) with (S (String.length w)). lia.
Qed.

Lemma py_find_from_here (sub tail : string) (i : Z) :
  py_find_from sub (sub +:+ tail) i = i.
Proof.
  destruct (sub +:+ tail) as [|x s] eqn:Hs.
  - simpl. destruct sub; [done | discriminate].
  - change (py_find_from sub (String x s) i)
      with (if String.prefix sub (String x s) then i else py_find_from sub s (i + 1)).
    by rewrite <- Hs, prefix_app_r.
Qed.

Lemma substring_app_take (b c : string) :
  String.substring 0 (String.length b) (b +:+ c) = b.
Proof.
  induction b as [|x b IH]; [by destruct c |].
  rewrite string_app_cons. simpl. by rewrite IH.
Qed.

Lemma substring_app_mid (a b c : string) :
  String.substring (String.length a) (String.length b) (a +:+ b +:+ c) = b.
Proof.
  induction a as [|x a IH]; [exact (substring_app_take b c) |].
  rewrite string_app_cons. simpl. apply IH.
Qed.

Lemma py_clamp_id (len i : Z) : 0 <= i <= len -> py_clamp len i = i.
Proof. intros H. unfold py_clamp. case_bool_decide; lia. Qed.

Lemma py_slice_mid (a b c : string) :
  py_slice (a +:+ b +:+ c) (Z.of_nat (String.length a))
           (Z.of_nat (String.length a) + Z.of_nat (String.length b)) = b.
Proof.
  unfold py_slice. rewrite !string_app_length.
  rewrite !py_clamp_id by lia.
  case_bool_decide as Hlt.
  - rewrite Nat2Z.id.
    replace (Z.to_nat (Z.of_nat (String.length a) + Z.of_nat (String.length b)
                       - Z.of_nat (String.length a))) with (String.length b) by lia.
    apply substring_app_mid.
  - destruct b; [done | simpl in Hlt; lia].
Qed.

Lemma py_slice_from_app (a b : string) :
  py_slice_from (a +:+ b) (Z.of_nat (String.length a)) = b.
Proof.
  unfold py_slice_from. pose proof (py_slice_mid a b "") as H.
  rewrite string_app_nil_r in H. by rewrite string_app_length, Nat2Z.inj_add.
Qed.

(** The value that follows [lhs] up to the end of its line, when [lhs] is
    first met after a text [before]. *)
Lemma get_colon_separated_value_at (before lhs' value after : string)
    (c0 : Ascii.ascii) :
  py_find (before +:+ String c0 lhs' +:+ value +:+ nl +:+ after) (String c0 lhs')
  = Z.of_nat (String.length before) ->
  lacks (Ascii.ascii_of_nat 10) value = true ->
  Postprocessor.get_colon_separated_value
    (before +:+ String c0 lhs' +:+ value +:+ nl +:+ after) (String c0 lhs') = value.
Proof.
  intros Hfind Hvalue. unfold Postprocessor.get_colon_separated_value. rewrite Hfind.
  rewrite decide_False by lia.
  rewrite <- Nat2Z.inj_add, <- string_app_length.
  rewrite <- (string_app_assoc before (String c0 lhs')).
  rewrite py_slice_from_app.
  unfold py_find, nl. rewrite py_find_from_skip by done.
  rewrite (py_find_from_here (String (Ascii.ascii_of_nat 10) "")). simpl.
  apply py_slice_mid.
Qed.

(** The decimal text of an integer has no line break in it. *)
Lemma pretty_N_go_lacks_nl (x : N) (s : string) :
  lacks (Ascii.ascii_of_nat 10) s = true ->
  lacks (Ascii.ascii_of_nat 10) (pretty_N_go x s) = true.
Proof.
  revert s. induction (N.lt_wf_0 x) as [x _ IH]; intros s Hs.
  assert (x = 0 \/ 0 < x)%N as [-> | Hx] by lia.
  - by rewrite pretty_N_go_0.
  - rewrite pretty_N_go_step by done. apply IH; [by apply N.div_lt |].
    simpl. rewrite Hs. unfold pretty_N_char. by repeat case_match.
Qed.

Lemma pretty_Z_lacks_nl (z : Z) : lacks (Ascii.ascii_of_nat 10) (pretty z) = true.
Proof.
  assert (Hpos : forall p : positive, lacks (Ascii.ascii_of_nat 10) (pretty p) = true).
  { intros p. unfold pretty, pretty_positive, pretty, pretty_N.
    destruct (decide (N.pos p = 0%N)); [done | by apply pretty_N_go_lacks_nl]. }
  destruct z as [|p|p]; [done | apply Hpos |].
  unfold pretty, pretty_Z.
  change ("-" +:+ pretty p) with (String (Ascii.ascii_of_nat 45) (pretty p)).
  simpl. apply Hpos.
Qed.

Lemma get_colon_separated_value_in (buffer before lhs' value after : string)
    (c0 : Ascii.ascii) :
  buffer = before +:+ String c0 lhs' +:+ value +:+ nl +:+ after ->
  py_find buffer (String c0 lhs') = Z.of_nat (String.length before) ->
  lacks (Ascii.ascii_of_nat 10) value = true ->
  Postprocessor.get_colon_separated_value buffer (String c0 lhs') = value.
Proof. intros ->. apply get_colon_separated_value_at. Qed.

(** X19: the postprocessor reads back what the generator wrote in the
    header.  In any text that starts with the header of a description, the
    value that [get_colon_separated_value] finds for [PATH_PLACEHOLDER] is
    the path constant the header was generated with, and the value it finds
    for [OPEN_PLACEHOLDER] is the decimal text of the anchor id, provided
    the date and the constant have no [#] in them and the constant has no
    line break. *)
Theorem header_values_are_read_back (today fd_name path_constant rest : string)
    (anchor_id : Z) :
  lacks (Ascii.ascii_of_nat 35) today = true ->
  lacks (Ascii.ascii_of_nat 35) path_constant = true ->
  lacks (Ascii.ascii_of_nat 10) path_constant = true ->
  Postprocessor.get_colon_separated_value
    (Generator.generate_header today fd_name path_constant anchor_id +:+ rest)
    Postprocessor.PATH_PLACEHOLDER
  = path_constant /\
  Postprocessor.get_colon_separated_value
    (Generator.generate_header today fd_name path_constant anchor_id +:+ rest)
    Postprocessor.OPEN_PLACEHOLDER
  = pretty anchor_id.
Proof.
  intros Htoday Hhash Hpath.
  unfold Generator.generate_header, Postprocessor.PATH_PLACEHOLDER,
    Postprocessor.OPEN_PLACEHOLDER.
  rewrite !string_app_assoc. split.
  - eapply (get_colon_separated_value_in _
              ("# Generated by syzdescriptor on " +:+ today +:+ nl)
              " Path constant is: ");
      [by rewrite !string_app_assoc | | done].
    unfold py_find.
    set (tail := "# Path constant is: " +:+ _).
    set (n := Z.of_nat _).
    change (py_find_from (String (Ascii.ascii_of_nat 35) " Path constant is: ")
              (" Generated by syzdescriptor on " +:+ today +:+ nl +:+ tail) (0 + 1) = n).
    rewrite (py_find_from_skip _ _ " Generated by syzdescriptor on ") by done.
    rewrite (py_find_from_skip _ _ today) by done.
    rewrite (py_find_from_skip _ _ nl) by done.
    unfold tail.
    rewrite (py_find_from_here (String (Ascii.ascii_of_nat 35) " Path constant is: ")).
    unfold n. rewrite !string_app_length. simpl. lia.
  - eapply (get_colon_separated_value_in _
              ("# Generated by syzdescriptor on " +:+ today +:+ nl
               +:+ "# Path constant is: " +:+ path_constant +:+ nl)
              " Anchor function ID is: ");
      [by rewrite !string_app_assoc | | apply pretty_Z_lacks_nl].
    unfold py_find.
    set (tail := "# Anchor function ID is: " +:+ _).
    set (n := Z.of_nat _).
    change (py_find_from (String (Ascii.ascii_of_nat 35) " Anchor function ID is: ")
              (" Generated by syzdescriptor on " +:+ today +:+ nl
               +:+ "# Path constant is: " +:+ path_constant +:+ nl +:+ tail) (0 + 1) = n).
    rewrite (py_find_from_skip _ _ " Generated by syzdescriptor on ") by done.
    rewrite (py_find_from_skip _ _ today) by done.
    rewrite (py_find_from_skip _ _ nl) by done.
    set (i := 0 + 1 + _ + _ + _).
    change (py_find_from (String (Ascii.ascii_of_nat 35) " Anchor function ID is: ")
              (" Path constant is: " +:+ path_constant +:+ nl +:+ tail) (i + 1) = n).
    rewrite (py_find_from_skip _ _ " Path constant is: ") by done.
    rewrite (py_find_from_skip _ _ path_constant) by done.
    rewrite (py_find_from_skip _ _ nl) by done.
    unfold tail.
    rewrite (py_find_from_here (String (Ascii.ascii_of_nat 35) " Anchor function ID is: ")).
    unfold i, n. rewrite !string_app_length. simpl. lia.
Qed.

Lemma header_values_are_read_back_witness :
  Postprocessor.get_colon_separated_value
    (Generator.generate_header "2024-01-01" "fd_my_fops" "SYZDESCRIPTOR_PATH_42" 42
     +:+ OpenDeclaration_str "my_fops" "SYZDESCRIPTOR_PATH_42" "fd_my_fops")
    Postprocessor.PATH_PLACEHOLDER
  = "SYZDESCRIPTOR_PATH_42" /\
  Postprocessor.get_colon_separated_value
    (Generator.generate_header "2024-01-01" "fd_my_fops" "SYZDESCRIPTOR_PATH_42" 42
     +:+ OpenDeclaration_str "my_fops" "SYZDESCRIPTOR_PATH_42" "fd_my_fops")
    Postprocessor.OPEN_PLACEHOLDER
  = pretty 42.
Proof.
  apply (header_values_are_read_back "2024-01-01" "fd_my_fops" "SYZDESCRIPTOR_PATH_42"
           (OpenDeclaration_str "my_fops" "SYZDESCRIPTOR_PATH_42" "fd_my_fops") 42);
    reflexivity.
Defined.

(** ** The names that [__strip_type] extracts *)

Lemma lacks_app (c : Ascii.ascii) (a b : string) :
  lacks c (a +:+ b) = lacks c a && lacks c b.
Proof.
  induction a as [|x a IH]; [done |].
  rewrite string_app_cons. simpl. by rewrite IH, andb_assoc.
Qed.

Lemma lacks_get (c : Ascii.ascii) (w : string) (j : nat) :
  lacks c w = true -> String.get j w <> Some c.
Proof.
  revert j. induction w as [|x w IH]; intros j Hw; [by destruct j |].
  simpl in Hw. apply andb_true_iff in Hw as [Hx Hw].
  apply negb_true_iff, bool_decide_eq_false in Hx.
  destruct j as [|j]; simpl; [congruence | by apply IH].
Qed.

Lemma prefix_get (p s : string) (j : nat) (c : Ascii.ascii) :
  String.prefix p s = true -> String.get j p = Some c -> String.get j s = Some c.
Proof.
  revert s j. induction p as [|a p IH]; intros s j Hp Hj; [by destruct j |].
  destruct s as [|b s]; simpl in Hp; [discriminate |].
  destruct (Ascii.ascii_dec a b) as [-> |]; [ | discriminate].
  destruct j as [|j]; simpl in *; [done | by apply IH].
Qed.

Lemma get_app_r (a b : string) (j : nat) :
  (String.length a <= j)%nat -> String.get j (a +:+ b) = String.get (j - String.length a) b.
Proof.
  revert j. induction a as [|x a IH]; intros j Hj.
  - simpl. by rewrite Nat.sub_0_r.
  - destruct j as [|j]; simpl in Hj; [lia |]. rewrite string_app_cons. simpl.
    apply IH. lia.
Qed.

Lemma get_app_l (a b : string) (j : nat) :
  (j < String.length a)%nat -> String.get j (a +:+ b) = String.get j a.
Proof.
  revert j. induction a as [|x a IH]; intros j Hj; simpl in Hj; [lia |].
  rewrite string_app_cons. destruct j as [|j]; simpl; [done |]. apply IH. lia.
Qed.

(** A separator that has the character [sp] at the index [j] does not start
    at the head of a word without [sp], unless the [sp] falls behind the
    word. *)
Lemma prefix_over_word (sep w tail : string) (sp : Ascii.ascii) (j : nat) :
  String.get j sep = Some sp -> lacks sp w = true ->
  ((j < String.length w)%nat \/ String.get (j - String.length w) tail <> Some sp) ->
  String.prefix sep (w +:+ tail) = false.
Proof.
  intros Hj Hw Hfar. destruct (String.prefix sep (w +:+ tail)) eqn:Hp; [ | done].
  pose proof (prefix_get _ _ _ _ Hp Hj) as Hget.
  destruct (decide (j < String.length w)%nat) as [Hlt | Hge].
  - rewrite get_app_l in Hget by done. by destruct (lacks_get sp w j Hw).
  - rewrite get_app_r in Hget by lia. destruct Hfar as [? | Hfar]; [lia | by destruct Hfar].
Qed.

(** [split] reads a word in which the separator does not start into the
    piece it is building. *)
Lemma py_split_aux_word (sep cur w tail : string) (sp : Ascii.ascii) (j : nat) :
  String.get j sep = Some sp -> lacks sp w = true ->
  (forall k, (k < j)%nat -> String.get k tail <> Some sp) ->
  py_split_aux sep 0 cur (w +:+ tail) = py_split_aux sep 0 (cur +:+ w) tail.
Proof.
  intros Hj. revert cur. induction w as [|c w IH]; intros cur Hw Htail.
  - by rewrite string_app_nil_r.
  - pose proof Hw as Hw'. simpl in Hw'. apply andb_true_iff in Hw' as [_ Hw'].
    rewrite string_app_cons.
    change (py_split_aux sep 0 cur (String c (w +:+ tail)))
      with (if String.prefix sep (String c (w +:+ tail))
            then cur :: py_split_aux sep (String.length sep - 1) EmptyString (w +:+ tail)
            else py_split_aux sep 0 (cur +:+ String c EmptyString) (w +:+ tail)).
    rewrite <- string_app_cons.
    assert (Hno : String.prefix sep (String c w +:+ tail) = false).
    { apply (prefix_over_word sep (String c w) tail sp j); [done | done |].
      destruct (decide (j < String.length (String c w))%nat); [by left |].
      right. apply Htail. simpl in *. lia. }
    rewrite Hno, IH by done. by rewrite string_app_assoc.
Qed.

Lemma py_split_aux_skip (sep cur u tail : string) :
  py_split_aux sep (String.length u) cur (u +:+ tail) = py_split_aux sep 0 cur tail.
Proof. induction u as [|c u IH]; [done |]. rewrite string_app_cons. simpl. apply IH. Qed.

(** At a separator, [split] closes the piece and goes on behind the
    separator. *)
Lemma py_split_aux_sep (c : Ascii.ascii) (sep' cur tail : string) :
  py_split_aux (String c sep') 0 cur (String c sep' +:+ tail)
  = cur :: py_split_aux (String c sep') 0 EmptyString tail.
Proof.
  rewrite string_app_cons.
  change (py_split_aux (String c sep') 0 cur (String c (sep' +:+ tail)))
    with (if String.prefix (String c sep') (String c (sep' +:+ tail))
          then cur :: py_split_aux (String c sep') (String.length (String c sep') - 1)
                        EmptyString (sep' +:+ tail)
          else py_split_aux (String c sep') 0 (cur +:+ String c EmptyString) (sep' +:+ tail)).
  rewrite <- string_app_cons, prefix_app_r.
  change (String.length (String c sep') - 1)%nat with (String.length sep' - 0)%nat.
  rewrite Nat.sub_0_r. by rewrite py_split_aux_skip.
Qed.

Lemma py_split_word (sep w : string) (sp : Ascii.ascii) (j : nat) :
  String.get j sep = Some sp -> lacks sp w = true -> py_split w sep = [w].
Proof.
  intros Hj Hw. unfold py_split. rewrite <- (string_app_nil_r w) at 1.
  rewrite (py_split_aux_word sep "" w "" sp j) by (try done; by intros [|k]).
  done.
Qed.

Lemma ends_with_app (a b : string) : ends_with (a +:+ b) b = true.
Proof.
  unfold ends_with. rewrite string_app_length.
  rewrite (proj2 (Nat.leb_le _ _)) by lia. simpl.
  rewrite bool_decide_eq_true_2; [done |].
  replace (String.length a + String.length b - String.length b)%nat
    with (String.length a) by lia.
  pose proof (substring_app_mid a b "") as H. by rewrite string_app_nil_r in H.
Qed.

Lemma substring_split (s : string) (n : nat) :
  (n <= String.length s)%nat ->
  s = String.substring 0 n s +:+ String.substring n (String.length s - n) s.
Proof.
  revert n. induction s as [|c s IH]; intros n Hn.
  - by destruct n.
  - destruct n as [|n]; simpl.
    + by rewrite substring_full.
    + rewrite string_app_cons. f_equal. apply IH. simpl in Hn. lia.
Qed.

Lemma ends_with_lacks (s suf' : string) (sp : Ascii.ascii) :
  lacks sp s = true -> ends_with s (String sp suf') = false.
Proof.
  intros Hs. destruct (ends_with s (String sp suf')) eqn:He; [ | done].
  unfold ends_with in He. apply andb_true_iff in He as [Hlen Hsub].
  apply Nat.leb_le in Hlen. apply bool_decide_eq_true in Hsub.
  pose proof (substring_split s (String.length s - String.length (String sp suf'))) as Hsplit.
  replace (String.length s - (String.length s - String.length (String sp suf')))%nat
    with (String.length (String sp suf')) in Hsplit by lia.
  rewrite Hsub in Hsplit. rewrite Hsplit in Hs by lia.
  rewrite lacks_app in Hs. apply andb_true_iff in Hs as [_ Hs]. simpl in Hs.
  by rewrite bool_decide_eq_true_2 in Hs.
Qed.

(** Two words without [sp] that are followed by [sp], one at the head of
    the other's text, are the same word. *)
Lemma prefix_word_eq (a b n tail : string) (sp : Ascii.ascii) :
  lacks sp a = true -> lacks sp n = true ->
  String.prefix (a +:+ String sp b) (n +:+ String sp tail) = true -> n = a.
Proof.
  revert n. induction a as [|x a IH]; intros n Ha Hn H.
  - destruct n as [|c n]; [done |]. exfalso. rewrite string_app_cons in H.
    simpl in Hn. apply andb_true_iff in Hn as [Hc _].
    apply negb_true_iff, bool_decide_eq_false in Hc.
    change ("" +:+ String sp b) with (String sp b) in H. simpl in H.
    destruct (Ascii.ascii_dec sp c); [congruence | discriminate].
  - simpl in Ha. apply andb_true_iff in Ha as [Hx Ha].
    apply negb_true_iff, bool_decide_eq_false in Hx.
    rewrite string_app_cons in H. destruct n as [|c n].
    + exfalso. change ("" +:+ String sp tail) with (String sp tail) in H. simpl in H.
      destruct (Ascii.ascii_dec x sp); [congruence | discriminate].
    + rewrite string_app_cons in H. simpl in H.
      destruct (Ascii.ascii_dec x c) as [-> |]; [ | discriminate].
      simpl in Hn. apply andb_true_iff in Hn as [_ Hn]. f_equal. by apply IH.
Qed.

Section StripType.
Context (n : string).
Hypothesis Hn : lacks (Ascii.ascii_of_nat 32) n = true.

Lemma plain_name_starts_with (kw keyword : string) :
  kw = keyword +:+ " " -> starts_with n kw = false.
Proof.
  intros ->. unfold starts_with.
  destruct (String.prefix (keyword +:+ " ") n) eqn:Hp; [ | done].
  apply prefix_app in Hp. rewrite Hp, string_app_assoc, !lacks_app in Hn.
  apply andb_true_iff in Hn as [_ Hs]. apply andb_true_iff in Hs as [Hs _].
  discriminate.
Qed.

Lemma split_off_keyword (keyword' : string) (c : Ascii.ascii) (j : nat) :
  String.get j (String c keyword') = Some (Ascii.ascii_of_nat 32) ->
  split_last (String c keyword' +:+ n) (String c keyword') = n.
Proof.
  intros Hj. unfold split_last, py_split. rewrite py_split_aux_sep.
  fold (py_split n (String c keyword')).
  by rewrite (py_split_word _ n _ j Hj Hn).
Qed.

Lemma split_first_plain (sep : string) (j : nat) :
  String.get j sep = Some (Ascii.ascii_of_nat 32) -> split_first n sep = n.
Proof. intros Hj. unfold split_first. by rewrite (py_split_word _ n _ j Hj Hn). Qed.

Lemma strip_keyword (kw : string) (kind : string) (tn : string) :
  split_last tn kw = n ->
  ((if ends_with tn " *" then split_first (split_last tn kw) " *"
    else split_last tn kw), kind) = (n, kind).
Proof.
  intros ->. destruct (ends_with tn " *"); [ | done].
  by rewrite (split_first_plain " *" 0).
Qed.

Lemma strip_type_plain :
  IoctlAnalysisPass.strip_type ("struct " +:+ n) = (n, "record") /\
  IoctlAnalysisPass.strip_type ("union " +:+ n) = (n, "record") /\
  IoctlAnalysisPass.strip_type ("enum " +:+ n) = (n, "enum") /\
  IoctlAnalysisPass.strip_type n = (n, "builtin") /\
  (n ∉ ["struct"; "union"; "enum"] ->
   IoctlAnalysisPass.strip_type (n +:+ " *") = (n, "pointer")).
Proof.
  split; [ | split; [ | split; [ | split]]].
  - unfold IoctlAnalysisPass.strip_type.
    replace (starts_with ("struct " +:+ n) "struct ") with true
      by (symmetry; apply prefix_app_r).
    apply (strip_keyword "struct "). by apply (split_off_keyword _ _ 6).
  - unfold IoctlAnalysisPass.strip_type.
    replace (starts_with ("union " +:+ n) "struct ") with false by done.
    replace (starts_with ("union " +:+ n) "union ") with true
      by (symmetry; apply prefix_app_r).
    apply (strip_keyword "union "). by apply (split_off_keyword _ _ 5).
  - unfold IoctlAnalysisPass.strip_type.
    replace (starts_with ("enum " +:+ n) "struct ") with false by done.
    replace (starts_with ("enum " +:+ n) "union ") with false by done.
    replace (starts_with ("enum " +:+ n) "enum ") with true
      by (symmetry; apply prefix_app_r).
    apply (strip_keyword "enum "). by apply (split_off_keyword _ _ 4).
  - unfold IoctlAnalysisPass.strip_type.
    rewrite (plain_name_starts_with "struct " "struct"),
      (plain_name_starts_with "union " "union"),
      (plain_name_starts_with "enum " "enum") by done.
    by rewrite !ends_with_lacks.
  - intros Hkw. unfold IoctlAnalysisPass.strip_type.
    assert (Hstart : forall kw keyword,
              kw = keyword +:+ " " ->
              lacks (Ascii.ascii_of_nat 32) keyword = true -> n <> keyword ->
              starts_with (n +:+ " *") kw = false).
    { intros kw keyword -> Hk Hne. unfold starts_with.
      destruct (String.prefix (keyword +:+ " ") (n +:+ " *")) eqn:Hp; [ | done].
      destruct Hne. by apply (prefix_word_eq keyword "" n "*" (Ascii.ascii_of_nat 32)). }
    rewrite (Hstart "struct " "struct"), (Hstart "union " "union"),
      (Hstart "enum " "enum")
      by (done || (intros ->; apply Hkw; set_solver)).
    rewrite ends_with_app. f_equal.
    unfold split_first, py_split.
    rewrite (py_split_aux_word " *" "" n " *" (Ascii.ascii_of_nat 32) 0) by (done || lia).
    pose proof (py_split_aux_sep (Ascii.ascii_of_nat 32) "*" n "") as Hsep.
    rewrite string_app_nil_r in Hsep.
    change (List.hd (n +:+ " *")
              (py_split_aux (String (Ascii.ascii_of_nat 32) "*") 0 n
                            (String (Ascii.ascii_of_nat 32) "*")) = n).
    by rewrite Hsep.
Qed.
End StripType.

(** X20: [__strip_type] on names without a blank.  For such a name [n], the
    type names [struct n], [union n] and [enum n] are stripped to [n] with
    the kinds [record], [record] and [enum]; [n] itself is a [builtin]
    called [n]; and [n *] is a [pointer] whose stripped name is [n], unless
    [n] is one of the three keywords. *)
Theorem strip_type_strips_plain_names (n : string) :
  lacks (Ascii.ascii_of_nat 32) n = true ->
  IoctlAnalysisPass.strip_type ("struct " +:+ n) = (n, "record") /\
  IoctlAnalysisPass.strip_type ("union " +:+ n) = (n, "record") /\
  IoctlAnalysisPass.strip_type ("enum " +:+ n) = (n, "enum") /\
  IoctlAnalysisPass.strip_type n = (n, "builtin") /\
  (n ∉ ["struct"; "union"; "enum"] ->
   IoctlAnalysisPass.strip_type (n +:+ " *") = (n, "pointer")).
Proof. apply strip_type_plain. Qed.

Lemma strip_type_strips_plain_names_witness :
  IoctlAnalysisPass.strip_type ("struct " +:+ "node") = ("node", "record") /\
  IoctlAnalysisPass.strip_type ("union " +:+ "node") = ("node", "record") /\
  IoctlAnalysisPass.strip_type ("enum " +:+ "node") = ("node", "enum") /\
  IoctlAnalysisPass.strip_type "node" = ("node", "builtin") /\
  ("node" ∉ ["struct"; "union"; "enum"] ->
   IoctlAnalysisPass.strip_type ("node" +:+ " *") = ("node", "pointer")).
Proof. apply (strip_type_strips_plain_names "node"). reflexivity. Defined.

(** The condition on blanks matters on the side of the keywords too: a name
    that ends in a keyword is cut at it when a pointer suffix follows. *)
Example strip_type_cuts_at_a_trailing_keyword :
  IoctlAnalysisPass.strip_type "struct mystruct *" = ("*", "record") /\
  IoctlAnalysisPass.strip_type "struct mystruct" = ("mystruct", "record").
Proof. split; vm_compute; reflexivity. Qed.

(** ** How [analyze_bounds] merges the bounds of the callees *)

Lemma fold_spread_last_entry {V L : Type} (subs : list (gmap Z V * L)) (local : gmap Z V)
    (k : Z) :
  fold_left (fun acc s => dict_spread acc s.1) subs local !! k
  = last_entry k (map fst subs) (local !! k).
Proof.
  revert local. induction subs as [|s subs IH]; intros local; [done |].
  simpl. rewrite IH. unfold last_entry. by rewrite dict_spread_lookup.
Qed.

(** X21: the sets of a callee replace those of the caller.  For a function
    that [analyze_bounds] analyzes past its guards, the result holds under a
    type id the set found by the last of the callees, in call order, whose
    analysis has an entry for that type id, and the set recorded at the
    function's own call sites only if no callee has one: the sets for one
    type id are never united. *)
Theorem callee_bounds_replace_those_of_the_caller (db : ftdb)
    (id_to_name : list (Z * string)) (n wfuel : nat) (chain : list Z)
    (fid depth max_depth : Z) (f : ftdb_func) (res : gmap Z (list MemberBounds)) :
  fst <$> PointerBoundsPass.analyze_bounds_traced db id_to_name (S n) wfuel chain fid depth
            max_depth = Ok res ->
  funcs_entry_by_id db fid = Ok f ->
  depth <= max_depth ->
  PointerBoundsPass.call_indexes id_to_name f <> [] ->
  exists local subs,
    for_each (PointerBoundsPass.scan_call db id_to_name wfuel f)
             (PointerBoundsPass.call_indexes id_to_name f) ∅ = Ok local /\
    Forall2 (fun call sub =>
               fst <$> PointerBoundsPass.analyze_bounds_traced db id_to_name n wfuel
                         (chain ++ [call]) call (depth + 1) 4 = Ok sub)
            (f_calls f) subs /\
    forall k, res !! k = last_entry k subs (local !! k).
Proof.
  intros H Hf Hdepth Hidx. apply fmap_Ok in H as ([res' log] & H & ->).
  simpl in H. rewrite Hf in H.
  rewrite bool_decide_eq_false_2 in H by lia.
  rewrite bool_decide_eq_false_2 in H by (intros Hlen; by apply Hidx, nil_length_inv).
  simpl in H. apply bind_Ok in H as (local & Hlocal & H).
  apply calls_loop in H as (subs & Hsubs & -> & _).
  exists local, (map fst subs). split; [done | split].
  - clear -Hsubs. induction Hsubs as [|call s calls subs Hs _ IH]; [constructor |].
    simpl. constructor; [by rewrite Hs | done].
  - intros k. apply fold_spread_last_entry.
Qed.

Lemma callee_bounds_replace_those_of_the_caller_witness :
  exists local subs,
    for_each (PointerBoundsPass.scan_call buf_len_db copy_ids 4 req_ioctl)
             (PointerBoundsPass.call_indexes copy_ids req_ioctl) ∅ = Ok local /\
    Forall2 (fun call sub =>
               fst <$> PointerBoundsPass.analyze_bounds_traced buf_len_db copy_ids 5 4
                         ([7] ++ [call]) call (1 + 1) 4 = Ok sub)
            (f_calls req_ioctl) subs /\
    forall k, buf_len_bounds !! k = last_entry k subs (local !! k).
Proof.
  apply (callee_bounds_replace_those_of_the_caller buf_len_db copy_ids 5 4 [7] 7 1 4
           req_ioctl buf_len_bounds).
  - vm_compute. reflexivity.
  - reflexivity.
  - lia.
  - vm_compute. discriminate.
Defined.

(** ** What the constructor of FopsCollector caches *)

Lemma dict_get_elem {K V : Type} `{EqDecision K} (k : K) (d : list (K * V)) :
  match dict_get k d with
  | Ok v => (k, v) ∈ d
  | Raise _ => k ∉ map fst d
  | Diverges => False
  end.
Proof.
  induction d as [|[k' v'] d IH]; simpl; [by intros H; inversion H |].
  destruct (decide (k' = k)) as [-> | Hne]; [by left |].
  destruct (dict_get k d); [by right | | done].
  intros H. apply elem_of_cons in H as [-> | H]; done.
Qed.

Lemma dict_unique {K V : Type} (k : K) (v v' : V) (d : list (K * V)) :
  NoDup (map fst d) -> (k, v) ∈ d -> (k, v') ∈ d -> v = v'.
Proof.
  induction d as [|[k0 v0] d IH]; intros Hnd H H'; [inversion H |].
  simpl in Hnd. apply NoDup_cons in Hnd as [Hk0 Hnd].
  assert (Hkey : forall w, (k, w) ∈ d -> k ∈ map fst d).
  { intros w Hw. apply list_elem_of_In, in_map_iff. exists (k, w).
    split; [done | by apply list_elem_of_In]. }
  apply elem_of_cons in H. apply elem_of_cons in H'.
  destruct H as [Heq | H], H' as [Heq' | H'].
  - congruence.
  - injection Heq as -> ->. destruct Hk0. by eapply Hkey.
  - injection Heq' as -> ->. destruct Hk0. by eapply Hkey.
  - by apply IH.
Qed.

Lemma dict_set_spec {K V : Type} `{EqDecision K} (k : K) (v : V) (d : list (K * V))
    (p : K * V) :
  NoDup (map fst d) ->
  NoDup (map fst (dict_set k v d)) /\
  (p ∈ dict_set k v d <-> p = (k, v) \/ (p ∈ d /\ p.1 <> k)).
Proof.
  induction d as [|[k0 v0] d IH]; intros Hnd; simpl.
  - split; [apply NoDup_singleton |]. rewrite list_elem_of_singleton. split; [auto |].
    intros [-> | [H _]]; [done | inversion H].
  - simpl in Hnd. apply NoDup_cons in Hnd as [Hk0 Hnd].
    destruct (decide (k0 = k)) as [-> | Hne]; simpl.
    + split; [by apply NoDup_cons |]. rewrite !elem_of_cons. split.
      * intros [-> | Hp]; [auto |]. right. split; [auto |]. intros Hk. apply Hk0.
        apply list_elem_of_In, in_map_iff. exists p. split; [done | by apply list_elem_of_In].
      * intros [-> | [[-> | Hp] Hk]]; [auto | done | auto].
    + destruct (IH Hnd) as [Hnd' Hiff]. split.
      * apply NoDup_cons. split; [ | done]. rewrite dict_set_keys.
        intros [? | ?]; done.
      * rewrite !elem_of_cons, Hiff. split.
        -- intros [-> | [-> | [Hp Hk]]]; [right; split; [by left | done] | auto |].
           right. split; [by right | done].
        -- intros [-> | [[-> | Hp] Hk]]; [right; by left | by left |].
           right. right. by split.
Qed.

Section CollectorInit.

(** Grouping keeps every entry, under its name, and keeps the names apart. *)
Lemma group_by_name_spec (fops_types : list ftdb_type) :
  NoDup (map fst (FopsCollector.group_by_name fops_types)) /\
  (forall kv t, kv ∈ FopsCollector.group_by_name fops_types -> t ∈ kv.2 -> t_str t = kv.1) /\
  (forall t, t ∈ fops_types <->
             exists kv, kv ∈ FopsCollector.group_by_name fops_types /\ t ∈ kv.2).
Proof.
  unfold FopsCollector.group_by_name.
  set (step := fun (types : list (string * list ftdb_type)) (typ : ftdb_type) =>
                 match dict_get (t_str typ) types with
                 | Ok (x :: v) => dict_set (t_str typ) ((x :: v) ++ [typ]) types
                 | _ => dict_set (t_str typ) [typ] types
                 end).
  cut (forall (seen : list ftdb_type) (types : list (string * list ftdb_type)),
         NoDup (map fst types) ->
         (forall kv t, kv ∈ types -> t ∈ kv.2 -> t_str t = kv.1) ->
         (forall t, t ∈ seen <-> exists kv, kv ∈ types /\ t ∈ kv.2) ->
         NoDup (map fst (fold_left step fops_types types)) /\
         (forall kv t, kv ∈ fold_left step fops_types types -> t ∈ kv.2 -> t_str t = kv.1) /\
         (forall t, t ∈ seen ++ fops_types <->
                    exists kv, kv ∈ fold_left step fops_types types /\ t ∈ kv.2)).
  { intros Hcut. destruct (Hcut [] []) as (H1 & H2 & H3).
    - constructor.
    - intros kv t Hkv. inversion Hkv.
    - intros t. split; [intros Ht; inversion Ht | intros (kv & Hkv & _); inversion Hkv].
    - done. }
  induction fops_types as [|typ rest IH]; intros seen types Hnd Hname Hall.
  { split; [done | split; [done |]]. intros t. by rewrite app_nil_r. }
  change (fold_left step (typ :: rest) types) with (fold_left step rest (step types typ)).
  set (k := t_str typ).
  assert (Hstep : exists group,
            step types typ = dict_set k (group ++ [typ]) types /\
            (group = [] \/ (k, group) ∈ types) /\
            forall g t, (k, g) ∈ types -> t ∈ g -> t ∈ group).
  { unfold step. fold k. pose proof (dict_get_elem k types) as Hget.
    destruct (dict_get k types) as [[|x v]| |]; [ | | | done].
    - exists []. split; [done | split; [by left |]]. intros g t Hg.
      by rewrite (dict_unique k g [] types Hnd Hg Hget).
    - exists (x :: v). split; [done | split; [by right |]]. intros g t Hg.
      by rewrite (dict_unique k g (x :: v) types Hnd Hg Hget).
    - exists []. split; [done | split; [by left |]]. intros g t Hg. destruct Hget.
      apply list_elem_of_In, in_map_iff. exists (k, g). split; [done | by apply list_elem_of_In]. }
  destruct Hstep as (group & -> & Hhas & Hgroup).
  assert (Hset : forall p, p ∈ dict_set k (group ++ [typ]) types <->
                           p = (k, group ++ [typ]) \/ (p ∈ types /\ p.1 <> k))
    by (intros p; by apply dict_set_spec).
  destruct (IH (seen ++ [typ]) (dict_set k (group ++ [typ]) types)) as (H1 & H2 & H3).
  - by apply (dict_set_spec k (group ++ [typ]) types (k, [])).
  - intros kv t Hkv Ht. apply Hset in Hkv as [-> | [Hkv Hne]]; [ | by apply Hname].
    simpl in *. apply elem_of_app in Ht as [Ht | Ht].
    + destruct Hhas as [-> | Hin]; [inversion Ht |].
      by apply (Hname (k, group) t).
    + by apply list_elem_of_singleton in Ht as ->.
  - intros t. rewrite elem_of_app, list_elem_of_singleton, Hall. split.
    + intros [(kv & Hkv & Ht) | ->].
      * destruct (decide (kv.1 = k)) as [Hk | Hk].
        -- exists (k, group ++ [typ]). split; [apply Hset; by left |].
           simpl. apply elem_of_app. left. destruct kv as [k' g]. simpl in *. subst k'.
           by eapply Hgroup.
        -- exists kv. split; [apply Hset; right; done | done].
      * exists (k, group ++ [typ]). split; [apply Hset; by left |].
        simpl. apply elem_of_app. right. by left.
    + intros (kv & Hkv & Ht). apply Hset in Hkv as [-> | [Hkv Hne]].
      * simpl in Ht. apply elem_of_app in Ht as [Ht | Ht].
        -- left. destruct Hhas as [-> | Hin]; [inversion Ht |]. by exists (k, group).
        -- right. by apply list_elem_of_singleton in Ht.
      * left. by exists kv.
  - split; [done | split; [done |]]. intros t. rewrite <- H3, <- app_assoc. done.
Qed.

Lemma fold_groups {A B S : Type} (g : S -> B -> S) (types : list (A * list B)) (m : S) :
  fold_left (fun acc (kv : A * list B) => fold_left g kv.2 acc) types m
  = fold_left g (concat (map snd types)) m.
Proof.
  revert m. induction types as [|kv types IH]; intros m; simpl; [done |].
  by rewrite fold_left_app, IH.
Qed.

Lemma fields_spec (ts : list ftdb_type) (m : gmap Z (list string)) (i : Z) :
  (forall names,
     fold_left (fun fields typ => <[t_id typ := t_refnames typ]> fields) ts m !! i
     = Some names ->
     m !! i = Some names \/ exists t, t ∈ ts /\ t_id t = i /\ t_refnames t = names) /\
  ((is_Some (m !! i) \/ exists t, t ∈ ts /\ t_id t = i) ->
   is_Some (fold_left (fun fields typ => <[t_id typ := t_refnames typ]> fields) ts m !! i)).
Proof.
  revert m. induction ts as [|t ts IH]; intros m; simpl.
  - split; [auto |]. intros [H | (t & Ht & _)]; [done | inversion Ht].
  - destruct (IH (<[t_id t := t_refnames t]> m)) as [IH1 IH2]. split.
    + intros names H. apply IH1 in H as [H | (t' & Ht' & H)].
      * destruct (decide (t_id t = i)) as [Heq | Hne].
        -- rewrite Heq, lookup_insert_eq in H. injection H as <-.
           right. exists t. split; [by left | done].
        -- rewrite lookup_insert_ne in H by done. by left.
      * right. exists t'. split; [by right | done].
    + intros [H | (t' & Ht' & Hid)]; apply IH2.
      * left. destruct (decide (t_id t = i)) as [<- | Hne].
        -- rewrite lookup_insert_eq. by eexists.
        -- by rewrite lookup_insert_ne.
      * apply elem_of_cons in Ht' as [-> | Ht'].
        -- left. rewrite Hid, lookup_insert_eq. by eexists.
        -- right. by exists t'.
Qed.

Lemma init_spec (db : ftdb) (c : FopsCollector.t) :
  FopsCollector.init db = Ok c ->
  (forall kv t, kv ∈ FopsCollector.types c -> t ∈ kv.2 ->
                t_str t = kv.1 /\ t ∈ db_types db /\ is_dispatch_type t) /\
  (forall t, t ∈ db_types db -> is_dispatch_type t ->
             (exists kv, kv ∈ FopsCollector.types c /\ kv.1 = t_str t /\ t ∈ kv.2) /\
             is_Some (FopsCollector.fields c !! t_id t)) /\
  (forall i names, FopsCollector.fields c !! i = Some names ->
                   exists t, t ∈ db_types db /\ is_dispatch_type t /\
                             t_id t = i /\ t_refnames t = names) /\
  (forall v, v ∈ FopsCollector.vars c <->
             v ∈ db_fops db /\
             exists t, t ∈ db_types db /\ is_dispatch_type t /\ t_id t = fo_type v).
Proof.
  unfold FopsCollector.init. intros H. apply bind_Ok in H as (ts & Hts & H).
  injection H as <-. simpl.
  assert (Hts' : forall t, t ∈ ts <-> is_dispatch_type t /\ t ∈ db_types db).
  { unfold FopsCollector.get_fops_types in Hts. case_bool_decide; [discriminate |].
    injection Hts as <-. intros t. apply list_elem_of_filter. }
  destruct (group_by_name_spec ts) as (_ & Hname & Hall).
  assert (Hflat : forall t, t ∈ concat (map snd (FopsCollector.group_by_name ts)) <-> t ∈ ts).
  { intros t. rewrite elem_of_concat, Hall. split.
    - intros (l & Hl & Ht). apply list_elem_of_In, in_map_iff in Hl as (kv & <- & Hkv).
      exists kv. split; [by apply list_elem_of_In | done].
    - intros (kv & Hkv & Ht). exists kv.2. split; [ | done].
      apply list_elem_of_In, in_map_iff. exists kv. split; [done | by apply list_elem_of_In]. }
  rewrite fold_groups.
  split; [ | split; [ | split]].
  - intros kv t Hkv Ht. split; [by apply Hname |].
    apply and_comm, Hts', Hall. by exists kv.
  - intros t Ht Hd. assert (Hin : t ∈ ts) by (by apply Hts'). split.
    + apply Hall in Hin as (kv & Hkv & Hkt). exists kv.
      split; [done | split; [ | done]]. symmetry. by apply Hname.
    + apply fields_spec. right. exists t. split; [by apply Hflat | done].
  - intros i names Hi. apply fields_spec in Hi as [Hi | (t & Ht & Hid & Hn)].
    + by rewrite lookup_empty in Hi.
    + apply Hflat, Hts' in Ht as [Hd Ht]. by exists t.
  - intros v. unfold FopsCollector.get_fops_vars.
    rewrite (list_elem_of_filter
               (fun x => fo_type x ∈ concat (map (fun kv => map t_id kv.2)
                                                 (FopsCollector.group_by_name ts)))).
    rewrite elem_of_concat. split.
    + intros [(l & Hl & Hv) Hdb]. split; [done |].
      apply list_elem_of_In, in_map_iff in Hl as (kv & <- & Hkv).
      apply list_elem_of_In, in_map_iff in Hv as (t & Hid & Ht).
      exists t. apply list_elem_of_In in Hkv, Ht.
      assert (Hin : t ∈ ts) by (apply Hall; by exists kv).
      apply Hts' in Hin as [Hd Hin]. done.
    + intros [Hdb (t & Ht & Hd & Hid)]. split; [ | done].
      assert (Hin : t ∈ ts) by (by apply Hts').
      apply Hall in Hin as (kv & Hkv & Hkt). exists (map t_id kv.2). split.
      * apply list_elem_of_In, in_map_iff. exists kv. split; [done | by apply list_elem_of_In].
      * apply list_elem_of_In, in_map_iff. exists t. split; [done | by apply list_elem_of_In].
Qed.
End CollectorInit.

(** X22: what the constructor of [FopsCollector] caches.  When it returns,
    [types] groups under each name the full definitions of the dispatch
    records of that name ([file_operations], [proc_ops], [uart_ops]; no
    forward declaration), each of them being in the group of its name;
    [fields] maps the id of each of these entries, and no other id, to the
    names of the members of an entry of that id; and [vars] holds exactly
    the [fops] entries of the database whose type is one of these ids. *)
Theorem collector_caches_the_dispatch_records (db : ftdb) (c : FopsCollector.t) :
  FopsCollector.init db = Ok c ->
  (forall kv t, kv ∈ FopsCollector.types c -> t ∈ kv.2 ->
                t_str t = kv.1 /\ t ∈ db_types db /\ is_dispatch_type t) /\
  (forall t, t ∈ db_types db -> is_dispatch_type t ->
             (exists kv, kv ∈ FopsCollector.types c /\ kv.1 = t_str t /\ t ∈ kv.2) /\
             is_Some (FopsCollector.fields c !! t_id t)) /\
  (forall i names, FopsCollector.fields c !! i = Some names ->
                   exists t, t ∈ db_types db /\ is_dispatch_type t /\
                             t_id t = i /\ t_refnames t = names) /\
  (forall v, v ∈ FopsCollector.vars c <->
             v ∈ db_fops db /\
             exists t, t ∈ db_types db /\ is_dispatch_type t /\ t_id t = fo_type v).
Proof. apply init_spec. Qed.

Lemma collector_caches_the_dispatch_records_witness :
  (forall kv t, kv ∈ FopsCollector.types (GenerationDriver.collector node_driver) ->
                t ∈ kv.2 ->
                t_str t = kv.1 /\ t ∈ db_types node_db /\ is_dispatch_type t) /\
  (forall t, t ∈ db_types node_db -> is_dispatch_type t ->
             (exists kv, kv ∈ FopsCollector.types (GenerationDriver.collector node_driver) /\
                         kv.1 = t_str t /\ t ∈ kv.2) /\
             is_Some (FopsCollector.fields (GenerationDriver.collector node_driver)
                        !! t_id t)) /\
  (forall i names,
     FopsCollector.fields (GenerationDriver.collector node_driver) !! i = Some names ->
     exists t, t ∈ db_types node_db /\ is_dispatch_type t /\
               t_id t = i /\ t_refnames t = names) /\
  (forall v, v ∈ FopsCollector.vars (GenerationDriver.collector node_driver) <->
             v ∈ db_fops node_db /\
             exists t, t ∈ db_types node_db /\ is_dispatch_type t /\ t_id t = fo_type v).
Proof.
  apply (collector_caches_the_dispatch_records node_db
           (GenerationDriver.collector node_driver)).
  vm_compute. reflexivity.
Defined.

(** ** The names of the handlers *)

Lemma underscores_inj (name : string) (j j' : nat) :
  name +:+ underscores j = name +:+ underscores j' -> j = j'.
Proof.
  intros H. apply (f_equal String.length) in H.
  rewrite !string_app_length, !underscores_length in H. lia.
Qed.

Lemma find_new_fops_name_loop_spec (n : nat) (keys : list string) (name : string) :
  match FopsCollector.find_new_fops_name_loop n keys name with
  | Ok r =>
      exists k, r = name +:+ underscores k /\ (r ∉ keys) /\
                forall j, (j < k)%nat -> name +:+ underscores j ∈ keys
  | Raise _ => False
  | Diverges => forall j, (j <= n)%nat -> name +:+ underscores j ∈ keys
  end.
Proof.
  revert name. induction n as [|n IH]; intros name; simpl.
  - destruct (decide (name ∈ keys)) as [Hin | Hnin].
    + intros j Hj. replace j with 0%nat by lia. simpl. by rewrite string_app_nil_r.
    + exists 0%nat. simpl. rewrite string_app_nil_r. split; [done | split; [done | lia]].
  - destruct (decide (name ∈ keys)) as [Hin | Hnin].
    + specialize (IH (name +:+ "_")).
      destruct (FopsCollector.find_new_fops_name_loop n keys (name +:+ "_")) as [r | e |].
      * destruct IH as (k & -> & Hfree & Hused). exists (S k).
        rewrite underscores_snoc in Hfree. rewrite underscores_snoc.
        split; [done | split; [done |]].
        intros [|j] Hj; [simpl; by rewrite string_app_nil_r |].
        rewrite <- underscores_snoc. apply Hused. lia.
      * done.
      * intros [|j] Hj; [simpl; by rewrite string_app_nil_r |].
        rewrite <- underscores_snoc. apply IH. lia.
    + exists 0%nat. simpl. rewrite string_app_nil_r. split; [done | split; [done | lia]].
Qed.

(** X23: [find_new_fops_name] always returns, and what it returns is the
    first of [name], [name_], [name__], ... that is not a key of the
    handlers collected so far. *)
Theorem find_new_fops_name_is_the_first_free_name {V : Type} (fops : list (string * V))
    (name : string) :
  exists k,
    FopsCollector.find_new_fops_name fops name = Ok (name +:+ underscores k) /\
    (name +:+ underscores k ∉ map fst fops) /\
    forall j, (j < k)%nat -> name +:+ underscores j ∈ map fst fops.
Proof.
  unfold FopsCollector.find_new_fops_name.
  pose proof (find_new_fops_name_loop_spec (length fops) (map fst fops) name) as H.
  destruct (FopsCollector.find_new_fops_name_loop (length fops) (map fst fops) name)
    as [r | e |]; [ | done | exfalso].
  - destruct H as (k & -> & Hfree & Hused). by exists k.
  - set (l := (fun j => name +:+ underscores j) <$> seq 0 (S (length fops))).
    assert (Hnd : NoDup l).
    { apply NoDup_fmap_2; [ | apply NoDup_seq]. intros j j'. apply underscores_inj. }
    assert (Hsub : l ⊆+ map fst fops).
    { apply NoDup_submseteq; [done |]. intros x Hx.
      apply list_elem_of_fmap in Hx as (j & -> & Hj). apply elem_of_seq in Hj.
      apply H. lia. }
    apply submseteq_length in Hsub. unfold l in Hsub.
    rewrite length_fmap, length_seq, length_map in Hsub. lia.
Qed.

(** ** Two handlers of one name *)

(** X24: the driver cannot dump two handlers of one name.  After
    [dump_file] has returned for a handler, [dump_file] for a handler of the
    same name raises [FileExistsError], whatever the commands and the types
    of the second handler are: the constants file of the first is in the
    way. *)
Theorem second_dump_of_a_name_raises (db : ftdb)
    (set_order : list (Z * string) -> list (Z * string)) (fuel : nat) (today : string)
    (drv drv' : GenerationDriver.t) (fop fop' : Fops) :
  GenerationDriver.dump_file db set_order fuel today drv fop = Ok drv' ->
  name fop' = name fop ->
  GenerationDriver.dump_file db set_order fuel today drv' fop' = Raise FileExistsError.
Proof.
  intros H Hname. unfold GenerationDriver.dump_file in H |- *. rewrite Hname.
  destruct (GenerationDriver.files drv
              !! GenerationDriver.path_join (GenerationDriver.output_path drv)
                   (name fop +:+ "_" +:+ GenerationDriver.architecture drv +:+ ".const"))
    eqn:Hconst; [discriminate |].
  apply bind_Ok in H as ([[text1 g1] fop1] & _ & H).
  destruct (<[GenerationDriver.path_join (GenerationDriver.output_path drv)
                (name fop +:+ "_" +:+ GenerationDriver.architecture drv +:+ ".const")
              := text1]> (GenerationDriver.files drv)
              !! GenerationDriver.path_join (GenerationDriver.output_path drv)
                   (name fop +:+ ".txt")) eqn:Hdesc; [discriminate |].
  apply bind_Ok in H as ([text2 g2] & _ & H). injection H as <-. simpl.
  assert (Hne : GenerationDriver.path_join (GenerationDriver.output_path drv)
                  (name fop +:+ "_" +:+ GenerationDriver.architecture drv +:+ ".const")
                <> GenerationDriver.path_join (GenerationDriver.output_path drv)
                     (name fop +:+ ".txt")).
  { intros Heq. rewrite Heq in Hdesc. by rewrite lookup_insert_eq in Hdesc. }
  rewrite lookup_insert_ne by done. by rewrite lookup_insert_eq.
Qed.

Lemma second_dump_of_a_name_raises_witness :
  GenerationDriver.dump_file node_db id 8 "2024-01-01" node_driver_after
    (Fops_init "my_fops" 43)
  = Raise FileExistsError.
Proof.
  apply (second_dump_of_a_name_raises node_db id 8 "2024-01-01" node_driver
           node_driver_after node_analyzed (Fops_init "my_fops" 43)).
  - vm_compute. reflexivity.
  - reflexivity.
Defined.

(** ** The functions that the search for a switch reaches *)

Lemma py_index_nat {A : Type} (l : list A) (i : nat) (x : A) :
  py_index l (Z.of_nat i) = Ok x -> l !! i = Some x.
Proof.
  unfold py_index. repeat case_bool_decide; try lia; try discriminate.
  rewrite Nat2Z.id. apply from_option_Ok.
Qed.

Lemma list_index_lookup {A : Type} `{EqDecision A} (x : A) (l : list A) :
  x ∈ l -> l !! IoctlAnalysisPass.list_index x l = Some x.
Proof.
  induction l as [|y l IH]; intros Hx; [inversion Hx |]. simpl.
  destruct (decide (y = x)) as [-> | Hne]; [done |].
  apply elem_of_cons in Hx as [-> | Hx]; [done | by apply IH].
Qed.

Lemma map_lookup_Some {A B : Type} (g : A -> B) (l : list A) (i : nat) (y : B) :
  map g l !! i = Some y -> exists x, l !! i = Some x /\ y = g x.
Proof.
  change (map g l) with (g <$> l). rewrite list_lookup_fmap.
  destruct (l !! i) as [x|]; [ | discriminate]. intros [= <-]. by exists x.
Qed.

Lemma get_forwarded_ioctls_elem (db : ftdb) (f : Z) (cands : list (Z * Z)) (cand : Z * Z) :
  IoctlAnalysisPass.get_forwarded_ioctls db f = Ok cands -> cand ∈ cands ->
  passes_on db f cand.
Proof.
  unfold IoctlAnalysisPass.get_forwarded_ioctls. intros H.
  apply bind_Ok in H as (fn & Hfn & H). revert cand.
  revert H.
  apply (for_each_invariant
           (fun cs : list (Z * Z) => forall cand, cand ∈ cs -> passes_on db f cand)).
  - intros cs [i callref] cs' Hic Hcs Hstep.
    apply elem_of_lookup_imap_1 in Hic as (i' & callref' & [= -> ->] & Hi).
    destruct (decide (IoctlAnalysisPass.IOCTL_COMMAND_ARG
                        ∈ map (fun ref => (cr_type ref, cr_id ref)) callref' ∧
                      IoctlAnalysisPass.IOCTL_ARGUMENT_ARG
                        ∈ map (fun ref => (cr_type ref, cr_id ref)) callref'))
      as [[Hcmd Harg] |]; [ | by injection Hstep as <-].
    apply bind_Ok in Hstep as (callee & Hcallee & Hstep).
    apply bind_Ok in Hstep as (pos & Hpos & Hstep). injection Hstep as <-.
    intros cand Hcand. apply elem_of_app in Hcand as [Hcand | Hcand]; [by apply Hcs |].
    apply list_elem_of_singleton in Hcand as ->.
    apply py_index_nat in Hcallee, Hpos.
    pose proof (list_index_lookup _ _ Hcmd) as Hidx.
    apply map_lookup_Some in Hpos as (cmd & Hc & ->).
    apply map_lookup_Some in Hidx as (cmd' & Hc' & Hidx).
    assert (cmd' = cmd) as -> by congruence.
    apply list_elem_of_In, in_map_iff in Harg as (arg & Harg & Hin).
    apply list_elem_of_In in Hin.
    exists fn, i', callref', cmd, arg. repeat split; try done.
    by eapply list_elem_of_lookup_2.
  - intros cand Hcand. inversion Hcand.
Qed.

Lemma recursively_pick_reach (db : ftdb) (fuel : nat) (chain : list Z)
    (fid argument_id depth max_depth : Z) (functions : list (Z * Z))
    (log : list invocation) :
  IoctlAnalysisPass.recursively_pick_traced db fuel chain fid argument_id depth max_depth
  = Ok (functions, log) ->
  forall fa, fa ∈ functions ->
    exists n, Z.of_nat n <= max_depth - depth /\
              nsteps (forwards db) n (fid, argument_id) fa.
Proof.
  revert chain fid argument_id depth functions log.
  induction fuel as [|n IH]; intros chain fid argument_id depth functions log H;
    simpl in H; [discriminate |].
  destruct (bool_decide (depth > max_depth)) eqn:Hcap.
  { injection H as <- <-. intros fa Hfa. inversion Hfa. }
  apply bool_decide_eq_false in Hcap.
  destruct (IoctlAnalysisPass.lookup_argument_name db fid argument_id) as [nm | e |].
  2, 3: injection H as <- <-; intros fa Hfa; inversion Hfa.
  apply bind_Ok in H as (targeted_switch & _ & H).
  apply bind_Ok in H as (forwarded & Hfwd & H).
  revert H.
  apply (for_each_invariant
           (fun st : list (Z * Z) * list invocation =>
              forall fa, fa ∈ st.1 ->
                exists n, Z.of_nat n <= max_depth - depth /\
                          nsteps (forwards db) n (fid, argument_id) fa)).
  - intros [fs lg] cand [fs' lg'] Hcand Hinv Hstep. simpl in *.
    apply bind_Ok in Hstep as ([sub sublog] & Hsub & Hstep). injection Hstep as <- <-.
    intros fa Hfa. apply elem_of_app in Hfa as [Hfa | Hfa]; [by apply Hinv |].
    destruct (IH _ _ _ _ _ _ Hsub fa Hfa) as (m & Hm & Hsteps).
    exists (S m). split; [lia |].
    apply nsteps_l with cand; [ | by destruct cand].
    by apply (get_forwarded_ioctls_elem db fid forwarded).
  - simpl. intros fa Hfa. destruct targeted_switch; [inversion Hfa |].
    apply list_elem_of_singleton in Hfa as ->. exists 0%nat. split; [lia | constructor].
Qed.

(** X25: the functions whose cases [analyze_switch_cases] harvests are
    close to the handler.  Every function that
    [recursively_pick_ioctl_with_switchcase] returns for a handler, with
    the index of the local it is switched on, is reached from the handler
    and its local 1 through at most two calls, each of which passes on both
    the command parameter of the caller, at the position that becomes the
    index followed in the callee, and its argument parameter. *)
Theorem harvested_functions_are_forwarded_to (db : ftdb) (fuel : nat) (fid : Z)
    (functions : list (Z * Z)) (fa : Z * Z) :
  IoctlAnalysisPass.recursively_pick_ioctl_with_switchcase db fuel fid 1 1 3 = Ok functions ->
  fa ∈ functions ->
  exists n, (n <= 2)%nat /\ nsteps (forwards db) n (fid, 1) fa.
Proof.
  unfold IoctlAnalysisPass.recursively_pick_ioctl_with_switchcase. intros H Hfa.
  apply fmap_Ok in H as ([fs log] & H & ->).
  destruct (recursively_pick_reach _ _ _ _ _ _ _ _ _ H fa Hfa) as (n & Hn & Hsteps).
  exists n. split; [lia | done].
Qed.

Lemma harvested_functions_are_forwarded_to_witness :
  exists n, (n <= 2)%nat /\ nsteps (forwards wrapped_db) n (1, 1) (42, 1).
Proof.
  apply (harvested_functions_are_forwarded_to wrapped_db 8 1 [(42, 1)]).
  - vm_compute. reflexivity.
  - by left.
Defined.
